(** * img4web: a shallow embedding of the media compressor and its properties

    The repository holds three generations of one command-line tool:
    - [src/index.ts]: images only ([findImages], one monolithic [main]);
    - [src/unnamed/part_001]: images and videos, still one monolithic [main];
    - [src/unnamed/part_000]: the refactored tool ([processFile],
      [loadDimensions], a logger, and a CLI mode).

    The embedding keeps the code's own view of the world: paths are strings
    handled by Node's [path] functions, the input folder is a tree of
    directory entries in [readdir] order, numbers are JavaScript numbers
    holding integers, and the effects of [main] (prompts, external tools,
    [mkdir], writes, log lines, [process.exit]) are threaded through a small
    state-and-exception monad. *)

From Stdlib Require Import ZArith Lia List Bool Ascii String DecimalString.
From stdpp Require Import base option list gmap strings.

Local Open Scope string_scope.
Local Open Scope Z_scope.
Set Warnings "-register-all".

(** ** Characters and strings *)

Definition is_slash (c : ascii) : bool := Ascii.eqb c "/".
Definition is_dot (c : ascii) : bool := Ascii.eqb c ".".

Definition str_nonempty (s : string) : bool :=
  match s with EmptyString => false | String _ _ => true end.

Fixpoint str_forallb (p : ascii -> bool) (s : string) : bool :=
  match s with
  | EmptyString => true
  | String c r => p c && str_forallb p r
  end.

(** [String.prototype.toLowerCase] on strings of 8-bit code units: the
    Latin capital letters A-Z are mapped to a-z, every other unit is kept.
    (Case mapping of code points above the ASCII range is outside the
    model: JavaScript also lowers, for instance, the Kelvin sign U+212A to
    k, so that a name whose extension is spelt with it counts as [.mkv] for
    the code.) *)
Definition lower_ascii (c : ascii) : ascii :=
  let n := nat_of_ascii c in
  if (Nat.leb 65 n && Nat.leb n 90)%bool then ascii_of_nat (n + 32) else c.

Fixpoint toLowerCase (s : string) : string :=
  match s with
  | EmptyString => EmptyString
  | String c r => String (lower_ascii c) (toLowerCase r)
  end.

(** [Array.prototype.includes] on an array of strings. *)
Fixpoint includes (l : list string) (x : string) : bool :=
  match l with
  | [] => false
  | y :: r => String.eqb y x || includes r x
  end.

(** [s.replace(/\.[^.]+$/, ext)]: the regular expression has no [g] flag, so
    the leftmost match is replaced.  A match starts at a dot that is followed,
    up to the end of the string, by one or more characters none of which is a
    dot.  Without a match the string is returned unchanged. *)
Definition ext_tail (s : string) : bool :=
  str_nonempty s && str_forallb (fun c => negb (is_dot c)) s.

Fixpoint replace_ext (s ext : string) : string :=
  match s with
  | EmptyString => EmptyString
  | String c r =>
      if is_dot c && ext_tail r then ext else String c (replace_ext r ext)
  end.

(** ** Node's [path] module (POSIX flavour) *)

Module Path.

(** The pieces of a path between its slashes (["a//b"] has the pieces
    ["a"], [""], ["b"]). *)
Fixpoint segments (s : string) : list string :=
  match s with
  | EmptyString => [EmptyString]
  | String c r =>
      if is_slash c then EmptyString :: segments r
      else match segments r with
           | [] => [String c EmptyString]
           | h :: t => String c h :: t
           end
  end.

Definition unsegments (l : list string) : string := String.concat "/" l.

Definition isAbsolute (p : string) : bool :=
  match p with String c _ => is_slash c | EmptyString => false end.

Definition trailingSeparator (p : string) : bool :=
  match last (segments p) with Some EmptyString => true | _ => false end.

(** One step of [normalizeString]; [res] is the stack of the segments kept
    so far, innermost first. *)
Definition nstep (allowAboveRoot : bool) (res : list string) (seg : string)
  : list string :=
  if String.eqb seg "" || String.eqb seg "." then res
  else if String.eqb seg ".." then
    match res with
    | top :: rest =>
        if String.eqb top ".." then
          (if allowAboveRoot then ".." :: res else res)
        else rest
    | [] => if allowAboveRoot then [".."] else []
    end
  else seg :: res.

Definition nstack (allowAboveRoot : bool) (res : list string)
  (segs : list string) : list string :=
  fold_left (nstep allowAboveRoot) segs res.

Definition normalizeSegments (allowAboveRoot : bool) (p : string)
  : list string :=
  rev (nstack allowAboveRoot [] (segments p)).

Definition normalizeString (p : string) (allowAboveRoot : bool) : string :=
  unsegments (normalizeSegments allowAboveRoot p).

Definition normalize (p : string) : string :=
  if String.eqb p "" then "."
  else
    let abs := isAbsolute p in
    let body := normalizeString p (negb abs) in
    if String.eqb body "" then
      (if abs then "/" else if trailingSeparator p then "./" else ".")
    else
      let body' := if trailingSeparator p then body ++ "/" else body in
      if abs then "/" ++ body' else body'.

(** [path.join(a, b)]: empty arguments are skipped. *)
Definition join (a b : string) : string :=
  let joined :=
    if String.eqb a "" then b
    else if String.eqb b "" then a
    else a ++ "/" ++ b in
  if String.eqb joined "" then "." else normalize joined.

(** [path.basename(p)]: trailing slashes are ignored, the result is what
    follows the last remaining slash. *)
Definition basename (p : string) : string :=
  default "" (last (List.filter str_nonempty (segments p))).

Fixpoint strip_trailing_empty (l : list string) : list string :=
  match l with
  | [] => []
  | s :: r =>
      match strip_trailing_empty r with
      | [] => if str_nonempty s then [s] else []
      | r' => s :: r'
      end
  end.

(** [path.dirname(p)]: the path up to, not including, the slash before the
    last component; the first character is never taken for that slash. *)
Definition dirname (p : string) : string :=
  if String.eqb p "" then "."
  else
    match removelast (strip_trailing_empty (segments p)) with
    | [] => if isAbsolute p then "/" else "."
    | [EmptyString] => "/"
    | [EmptyString; EmptyString] => "//"
    | l => unsegments l
    end.

Fixpoint last_dot_suffix (s : string) : option string :=
  match s with
  | EmptyString => None
  | String c r =>
      match last_dot_suffix r with
      | Some e => Some e
      | None => if is_dot c then Some s else None
      end
  end.

(** [path.extname(p)]: from the last dot of the last component to its end;
    empty when there is no dot, when the dot is the component's first
    character, and for the component [".."]. *)
Definition extname (p : string) : string :=
  let b := basename p in
  match last_dot_suffix b with
  | None => ""
  | Some e =>
      if Nat.eqb (String.length e) (String.length b) then ""
      else if String.eqb b ".." then ""
      else e
  end.

(** The segments of [path.resolve(p)] when the process runs in [cwd]. *)
Definition resolveSegments (cwd p : string) : list string :=
  normalizeSegments false (if isAbsolute p then p else cwd ++ "/" ++ p).

Definition resolve (cwd p : string) : string :=
  "/" ++ unsegments (resolveSegments cwd p).

Fixpoint strip_common (f t : list string) : list string * list string :=
  match f, t with
  | a :: f', b :: t' => if String.eqb a b then strip_common f' t' else (f, t)
  | _, _ => (f, t)
  end.

(** [path.relative(from, to)]: both are resolved, their common leading
    segments are dropped, and each segment left of [from] becomes [".."]. *)
Definition relative (cwd from to : string) : string :=
  if String.eqb from to then ""
  else
    let '(f, t) :=
      strip_common (resolveSegments cwd from) (resolveSegments cwd to) in
    unsegments (List.map (fun _ => "..") f ++ t).

End Path.

(** ** JavaScript numbers that hold integers

    [size], [totalOriginal], [totalCompressed] are JavaScript numbers, that
    is IEEE-754 doubles.  On integers, [+] and [-] return the double nearest
    to the exact result (ties to even): exact up to 2^53 in magnitude,
    rounded above.  (Overflow to Infinity is out of reach of byte counts and
    is not modelled.) *)

Definition round_to_double (z : Z) : Z :=
  let a := Z.abs z in
  if a <=? 2 ^ 53 then z
  else
    let e := Z.log2 a - 52 in
    let q := a / 2 ^ e in
    let r := a mod 2 ^ e in
    let h := 2 ^ (e - 1) in
    let q' := if r <? h then q
              else if h <? r then q + 1
              else if Z.even q then q else q + 1 in
    Z.sgn z * (q' * 2 ^ e).

Definition js_add (a b : Z) : Z := round_to_double (a + b).
Definition js_sub (a b : Z) : Z := round_to_double (a - b).

(** ** The data model *)

Definition IMAGE_EXTS : list string :=
  [".jpg"; ".jpeg"; ".png"; ".webp"; ".avif"; ".tiff"; ".gif"].
Definition VIDEO_EXTS : list string :=
  [".mp4"; ".mov"; ".avi"; ".mkv"; ".webm"; ".m4v"].

Inductive MediaType := image | video.

Definition MediaType_eqb (a b : MediaType) : bool :=
  match a, b with
  | image, image | video, video => true
  | _, _ => false
  end.

(** [interface MediaFile] of part_000 and part_001; the optional [width] and
    [height] are [None] until the dimensions are loaded. *)
Record MediaFile := {
  path : string;
  name : string;
  relativePath : string;
  size : Z;
  type : MediaType;
  width : option Z;
  height : option Z;
}.

(** What [readdir(dir, { withFileTypes: true })] yields, in its order: an
    entry for which [isDirectory()] holds, with the entries of that
    directory, or any other entry, with the [size] that [stat] reports.
    A tree of these is a folder in which every [readdir] and every [stat]
    of the walk returns; the walk in a folder where they can throw is
    modelled on a [Listing], below. *)
Inductive Dirent :=
| FileEntry (entry_name : string) (entry_size : N)
| DirEntry (entry_name : string) (entries : list Dirent).

Definition dirent_name (e : Dirent) : string :=
  match e with FileEntry n _ | DirEntry n _ => n end.

(** The prompts of [@clack/prompts]. *)
Inductive Answer (A : Type) := Cancelled | Selected (value : A).
Arguments Cancelled {A}.
Arguments Selected {A} value.

Inductive Mode := fast | custom.

(** The options of the "Max width" menu and their values. *)
Inductive WidthOption := Keep | W400 | W800 | W1200 | W1920 | W2560.

Definition option_value (o : WidthOption) : Z :=
  match o with
  | Keep => 0 | W400 => 400 | W800 => 800
  | W1200 => 1200 | W1920 => 1920 | W2560 => 2560
  end.

(** What the user is shown before the "Max width" menu. *)
Record FileInfo := {
  info_relativePath : string;
  info_width : option Z;
  info_height : option Z;
  info_size : Z;
  info_type : option MediaType;
}.

(** A [sharp] pipeline: the input and the operations chained on it. *)
Inductive SharpOp :=
| Resize (width : Z) (height : option Z) (withoutEnlargement : bool)
| Webp (quality : Z).

Record Pipeline := { input : string; ops : list SharpOp }.

Definition sharp (inputPath : string) : Pipeline :=
  {| input := inputPath; ops := [] |}.
Definition resize (p : Pipeline) (w : Z) (h : option Z) (we : bool) : Pipeline :=
  {| input := input p; ops := ops p ++ [Resize w h we] |}.
Definition webp (p : Pipeline) (quality : Z) : Pipeline :=
  {| input := input p; ops := ops p ++ [Webp quality] |}.

(** The percentage of the summary line is a floating-point quotient; the
    model keeps the expression and its operands. *)
Inductive Percent :=
| SavingsOverOriginal (savings totalOriginal : Z)
| OneMinusRatio (totalCompressed totalOriginal : Z).

Inductive Msg :=
| Text (s : string)
| Found (images videos : nat) (totalSize : Z)
| FoundImages (images : nat) (totalSize : Z)
| Progress (file_name : string) (i n : nat)
| AboutFile (i : FileInfo)
| Saved (compressedSize fileSize : Z)
| Summary (totalOriginal totalCompressed : Z) (percent : Percent)
| Output (outputDir : string).

Inductive Sink :=
| ConsoleLog | ConsoleError | StdoutWrite
| ClackInfo | ClackError | ClackSuccess | ClackCancel | ClackOutro
| SpinnerStart | SpinnerMessage | SpinnerStop.

(** Everything [main] does to the outside world, in order. *)
Inductive Event :=
| EMkdir (dir : string)
| ESharpMetadata (inputPath : string)
| EFfprobe (inputPath : string)
| ESharpToFile (p : Pipeline) (outputPath : string)
| EFfmpeg (args : list string)
| EAsk (question : string)
| EPrint (sink : Sink) (prefix : string) (m : Msg).

(** The environment of a run: the working directory, the external tools
    (a [inl] is the message of the error they raise) and the user. *)
Record Env := {
  cwd : string;
  sharp_metadata : string -> string + (option Z * option Z);
  ffprobe : string -> option (Z * Z);
  sharp_toFile : Pipeline -> string -> string + N;
  ffmpeg : list string -> string + N;
  selectMode : Answer Mode;
  selectMaxWidth : FileInfo -> Answer WidthOption;
}.

(** ** A monad for [main]: state, exceptions and [process.exit] *)

Record State := {
  trace : list Event;
  files : gmap string N;
  spinnerStarted : bool;
}.

Definition initial : State :=
  {| trace := []; files := ∅; spinnerStarted := false |}.

Inductive Outcome (A : Type) :=
| Ok (a : A)
| Thrown (message : string)
| Exited (code : Z).
Arguments Ok {A} a.
Arguments Thrown {A} message.
Arguments Exited {A} code.

Definition M (A : Type) : Type := State -> Outcome A * State.

Definition ret {A} (a : A) : M A := fun s => (Ok a, s).

Definition bind {A B} (m : M A) (k : A -> M B) : M B :=
  fun s =>
    match m s with
    | (Ok a, s') => k a s'
    | (Thrown e, s') => (Thrown e, s')
    | (Exited c, s') => (Exited c, s')
    end.

Notation "'let*' x ':=' m 'in' k" := (bind m (fun x => k))
  (at level 10, x name, m at level 100, k at level 200).
Notation "m ;;; k" := (bind m (fun _ => k))
  (at level 100, k at level 200, right associativity).

Definition throw {A} (message : string) : M A := fun s => (Thrown message, s).
Definition process_exit {A} (code : Z) : M A := fun s => (Exited code, s).

Definition emit (e : Event) : M unit :=
  fun s => (Ok tt, {| trace := trace s ++ [e]; files := files s;
                      spinnerStarted := spinnerStarted s |}).

Definition print (sink : Sink) (m : Msg) : M unit := emit (EPrint sink "" m).

Definition write_file (p : string) (sz : N) : M unit :=
  fun s => (Ok tt, {| trace := trace s; files := <[p := sz]> (files s);
                      spinnerStarted := spinnerStarted s |}).

(** [mkdir(dir, { recursive: true })]. *)
Definition mkdir (dir : string) : M unit := emit (EMkdir dir).

(** [stat(p).size] of a file of the output tree. *)
Definition stat_size (p : string) : M Z :=
  fun s =>
    match files s !! p with
    | Some sz => (Ok (Z.of_N sz), s)
    | None => (Thrown "ENOENT: no such file or directory", s)
    end.

(** [await main().catch(...)]: the handler reports [err.message] through
    [report] and exits with status 1. *)
Definition catch (main : M unit) (report : string -> M unit) : M unit :=
  fun s =>
    match main s with
    | (Thrown e, s') => (report e ;;; process_exit 1) s'
    | r => r
    end.

(** Loops that carry the loop index and the variables they assign. *)
Fixpoint for_each {A V} (body : nat -> A -> V -> M V) (i : nat) (l : list A)
  (acc : V) : M V :=
  match l with
  | [] => ret acc
  | x :: r => let* acc' := body i x acc in for_each body (S i) r acc'
  end.

Fixpoint map_each {A B} (body : A -> M B) (l : list A) : M (list B) :=
  match l with
  | [] => ret []
  | x :: r => let* y := body x in let* ys := map_each body r in ret (y :: ys)
  end.

(** ** The external tools and the prompts, as [main] calls them *)

Section Tools.
Variable env : Env.

(** [sharp(path).metadata()]: throws on a file that [sharp] cannot read. *)
Definition metadata (inputPath : string) : M (option Z * option Z) :=
  emit (ESharpMetadata inputPath) ;;;
  match sharp_metadata env inputPath with
  | inl e => throw e
  | inr d => ret d
  end.

(** [pipeline.toFile(outputPath)]: throws, or writes the output file. *)
Definition toFile (p : Pipeline) (outputPath : string) : M unit :=
  emit (ESharpToFile p outputPath) ;;;
  match sharp_toFile env p outputPath with
  | inl e => throw e
  | inr sz => write_file outputPath sz
  end.

(** [await $`${ffmpegPath} ${args}`.quiet()]: throws when [ffmpeg] fails;
    otherwise [ffmpeg] has written its last argument, the output file. *)
Definition run_ffmpeg (args : list string) : M unit :=
  emit (EFfmpeg args) ;;;
  match ffmpeg env args with
  | inl e => throw e
  | inr sz => write_file (List.last args "") sz
  end.

(** [getVideoDimensions] (the same in part_000 and part_001): the [catch]
    turns a failing [ffprobe] into 0x0, as [|| 0] does with what does not
    parse. *)
Definition getVideoDimensions (inputPath : string) : M (Z * Z) :=
  emit (EFfprobe inputPath) ;;;
  ret (default (0, 0) (ffprobe env inputPath)).

Definition askMode : M (Answer Mode) :=
  emit (EAsk "Mode") ;;; ret (selectMode env).

Definition askMaxWidth (i : FileInfo) : M (Answer WidthOption) :=
  emit (EAsk "Max width") ;;; ret (selectMaxWidth env i).
End Tools.

(** [`${n}`] for a number that holds an integer. *)
Definition number_to_string (n : Z) : string :=
  DecimalString.NilZero.string_of_int (Z.to_int n).

(** [maxWidth && maxWidth > 0] for [maxWidth?: number]. *)
Definition positive_width (maxWidth : option Z) : bool :=
  match maxWidth with
  | Some w => negb (w =? 0) && (0 <? w)
  | None => false
  end.

(** [compressVideo]'s argument list (the same in part_000 and part_001). *)
Definition ffmpeg_args (inputPath outputPath : string) (maxWidth : option Z)
  : list string :=
  let args := ["-y"; "-i"; inputPath; "-c:v"; "libx264"; "-crf"; "28";
               "-preset"; "fast"; "-c:a"; "aac"; "-b:a"; "128k"] in
  let scale :=
    "scale='min(" ++ number_to_string (default 0 maxWidth) ++ ",iw)':-2" in
  let args :=
    if positive_width maxWidth then (args ++ ["-vf"; scale])%list else args in
  (args ++ [outputPath])%list.

(** The assignments [file.width = ...; file.height = ...]. *)
Definition with_dimensions (f : MediaFile) (w h : option Z) : MediaFile :=
  {| path := path f; name := name f; relativePath := relativePath f;
     size := size f; type := type f; width := w; height := h |}.

(** What the line printed before the "Max width" menu shows of a file. *)
Definition file_info (f : MediaFile) : FileInfo :=
  {| info_relativePath := relativePath f; info_width := width f;
     info_height := height f; info_size := size f;
     info_type := Some (type f) |}.

(** ** [src/unnamed/part_001]: images and videos, monolithic [main] *)

Module Monolith.
Section WithEnv.
Variable env : Env.

(** The body of the loop of [findMedia], on a tree (where [stat] returns the
    size; see [Monolith_findMedia_listed_entry] for the walk that can
    throw). *)
Fixpoint findMedia_entry (dir baseDir : string) (entry : Dirent)
  : list MediaFile :=
  let fullPath := Path.join dir (dirent_name entry) in
  match entry with
  | DirEntry _ sub => flat_map (findMedia_entry fullPath baseDir) sub
  | FileEntry entry_name entry_size =>
      let ext := toLowerCase (Path.extname entry_name) in
      if includes IMAGE_EXTS ext then
        [ {| path := fullPath; name := entry_name;
             relativePath := Path.relative (cwd env) baseDir fullPath;
             size := Z.of_N entry_size; type := image;
             width := None; height := None |} ]
      else if includes VIDEO_EXTS ext then
        [ {| path := fullPath; name := entry_name;
             relativePath := Path.relative (cwd env) baseDir fullPath;
             size := Z.of_N entry_size; type := video;
             width := None; height := None |} ]
      else []
  end.

(** [findMedia(dir, baseDir)], where [entries] is what [readdir(dir)]
    returns. *)
Definition findMedia (dir baseDir : string) (entries : list Dirent)
  : list MediaFile :=
  flat_map (findMedia_entry dir baseDir) entries.

Definition compressVideo (inputPath outputPath : string)
  (maxWidth : option Z) : M unit :=
  run_ffmpeg env (ffmpeg_args inputPath outputPath maxWidth).

(** The body of the loop of fast mode. *)
Definition fast_step (outputDir : string) (n : nat) (i : nat)
  (file : MediaFile) (totals : Z * Z) : M (Z * Z) :=
  let '(totalOriginal, totalCompressed) := totals in
  print SpinnerMessage (Progress (name file) (i + 1) n) ;;;
  match type file with
  | image =>
      let outputRelative := replace_ext (relativePath file) ".webp" in
      let outputPath := Path.join outputDir outputRelative in
      mkdir (Path.dirname outputPath) ;;;
      toFile env (webp (sharp (path file)) 75) outputPath ;;;
      let* outputStat_size := stat_size outputPath in
      ret (js_add totalOriginal (size file),
           js_add totalCompressed outputStat_size)
  | video =>
      let outputRelative := replace_ext (relativePath file) ".mp4" in
      let outputPath := Path.join outputDir outputRelative in
      mkdir (Path.dirname outputPath) ;;;
      compressVideo (path file) outputPath None ;;;
      let* outputStat_size := stat_size outputPath in
      ret (js_add totalOriginal (size file),
           js_add totalCompressed outputStat_size)
  end.

(** The body of the loop of custom mode. *)
Definition custom_step (outputDir : string) (i : nat) (file : MediaFile)
  (totals : Z * Z) : M (Z * Z) :=
  let '(totalOriginal, totalCompressed) := totals in
  print ClackInfo (AboutFile (file_info file)) ;;;
  let* maxWidth := askMaxWidth env (file_info file) in
  match maxWidth with
  | Cancelled => print ClackCancel (Text "Cancelled") ;;; process_exit 0
  | Selected choice =>
      let maxWidth := option_value choice in
      match type file with
      | image =>
          let outputRelative := replace_ext (relativePath file) ".webp" in
          let outputPath := Path.join outputDir outputRelative in
          mkdir (Path.dirname outputPath) ;;;
          let pipeline := sharp (path file) in
          let pipeline :=
            if 0 <? maxWidth then resize pipeline maxWidth None true
            else pipeline in
          toFile env (webp pipeline 75) outputPath ;;;
          let* outputStat_size := stat_size outputPath in
          print ClackSuccess (Saved outputStat_size (size file)) ;;;
          ret (js_add totalOriginal (size file),
               js_add totalCompressed outputStat_size)
      | video =>
          let outputRelative := replace_ext (relativePath file) ".mp4" in
          let outputPath := Path.join outputDir outputRelative in
          mkdir (Path.dirname outputPath) ;;;
          compressVideo (path file) outputPath (Some maxWidth) ;;;
          let* outputStat_size := stat_size outputPath in
          print ClackSuccess (Saved outputStat_size (size file)) ;;;
          ret (js_add totalOriginal (size file),
               js_add totalCompressed outputStat_size)
      end
  end.

Definition savings (totalOriginal totalCompressed : Z) : Z :=
  js_sub totalOriginal totalCompressed.

(** [main], from the point where [folderPath] has been read and verified
    to be a directory; [tree] is what that directory holds. *)
Definition main (folderPath : string) (tree : list Dirent) : M unit :=
  let folderName := Path.basename folderPath in
  let allMedia := findMedia folderPath folderPath tree in
  (if Nat.eqb (List.length allMedia) 0
   then print ClackError (Text "No images or videos found") ;;;
        process_exit 1
   else ret tt) ;;;
  let images := List.filter (fun m => MediaType_eqb (type m) image) allMedia in
  let videos := List.filter (fun m => MediaType_eqb (type m) video) allMedia in
  let* images :=
    map_each (fun img =>
      let* md := metadata env (path img) in
      ret (with_dimensions img (fst md) (snd md))) images in
  let* videos :=
    map_each (fun vid =>
      let* dims := getVideoDimensions env (path vid) in
      ret (with_dimensions vid (Some (fst dims)) (Some (snd dims)))) videos in
  let totalSize := fold_left (fun sum m => js_add sum (size m)) allMedia 0 in
  let mediaToProcess := (images ++ videos)%list in
  print ClackInfo
    (Found (List.length images) (List.length videos) totalSize) ;;;
  let* mode := askMode env in
  match mode with
  | Cancelled => print ClackCancel (Text "Cancelled") ;;; process_exit 0
  | Selected mode =>
      let outputDir :=
        Path.join (Path.dirname folderPath) (folderName ++ "-compressed") in
      mkdir outputDir ;;;
      let* totals :=
        match mode with
        | fast =>
            print SpinnerStart (Text "Processing...") ;;;
            let* totals :=
              for_each (fast_step outputDir (List.length mediaToProcess))
                0%nat mediaToProcess (0, 0) in
            print SpinnerStop (Text "Done!") ;;;
            ret totals
        | custom =>
            for_each (custom_step outputDir) 0%nat mediaToProcess (0, 0)
        end in
      let '(totalOriginal, totalCompressed) := totals in
      let savings := savings totalOriginal totalCompressed in
      print ClackSuccess
        (Summary totalOriginal totalCompressed
           (SavingsOverOriginal savings totalOriginal)) ;;;
      print ClackInfo (Output outputDir) ;;;
      print ClackOutro (Text "Done!")
  end.

(** [main().catch((err) => { p.log.error(err.message); process.exit(1) })]. *)
Definition program (folderPath : string) (tree : list Dirent) : M unit :=
  catch (main folderPath tree) (fun message => print ClackError (Text message)).
End WithEnv.
End Monolith.

(** ** [src/unnamed/part_000]: the refactored tool *)

Module Refactored.
Section WithEnv.
Variable env : Env.

Record Logger := {
  info : Msg -> M unit;
  error : Msg -> M unit;
  success : Msg -> M unit;
  progress : Msg -> M unit;
  done : M unit;
}.

Definition get_spinnerStarted : M bool :=
  fun s => (Ok (spinnerStarted s), s).
Definition set_spinnerStarted (b : bool) : M unit :=
  fun s => (Ok tt, {| trace := trace s; files := files s;
                      spinnerStarted := b |}).

Definition carriage_return : string := String (ascii_of_nat 13) "".

Definition createLogger (cli : bool) : Logger :=
  if cli then
    {| info := print ConsoleLog;
       error := fun msg => emit (EPrint ConsoleError "Error: " msg);
       success := print ConsoleLog;
       progress := fun msg => emit (EPrint StdoutWrite carriage_return msg);
       done := print ConsoleLog (Text "") |}
  else
    {| info := print ClackInfo;
       error := print ClackError;
       success := print ClackSuccess;
       progress := fun msg =>
         let* started := get_spinnerStarted in
         if negb started
         then print SpinnerStart msg ;;; set_spinnerStarted true
         else print SpinnerMessage msg;
       done :=
         let* started := get_spinnerStarted in
         if started then print SpinnerStop (Text "Done!") else ret tt |}.

(** The body of the loop of [findMedia], on a tree (where [stat] returns the
    size; see [Refactored_findMedia_listed_entry] for the walk that can
    throw). *)
Fixpoint findMedia_entry (dir baseDir : string) (entry : Dirent)
  : list MediaFile :=
  let fullPath := Path.join dir (dirent_name entry) in
  match entry with
  | DirEntry _ sub => flat_map (findMedia_entry fullPath baseDir) sub
  | FileEntry entry_name entry_size =>
      let ext := toLowerCase (Path.extname entry_name) in
      let isImage := includes IMAGE_EXTS ext in
      let isVideo := includes VIDEO_EXTS ext in
      if isImage || isVideo then
        [ {| path := fullPath; name := entry_name;
             relativePath := Path.relative (cwd env) baseDir fullPath;
             size := Z.of_N entry_size;
             type := if isImage then image else video;
             width := None; height := None |} ]
      else []
  end.

(** [findMedia(dir, baseDir)], where [entries] is what [readdir(dir)]
    returns. *)
Definition findMedia (dir baseDir : string) (entries : list Dirent)
  : list MediaFile :=
  flat_map (findMedia_entry dir baseDir) entries.

Definition compressImage (inputPath outputPath : string)
  (maxWidth : option Z) : M unit :=
  mkdir (Path.dirname outputPath) ;;;
  let pipeline := sharp inputPath in
  let pipeline :=
    if positive_width maxWidth
    then resize pipeline (default 0 maxWidth) None true
    else pipeline in
  toFile env (webp pipeline 75) outputPath.

Definition compressVideo (inputPath outputPath : string)
  (maxWidth : option Z) : M unit :=
  mkdir (Path.dirname outputPath) ;;;
  run_ffmpeg env (ffmpeg_args inputPath outputPath maxWidth).

Definition output_ext (t : MediaType) : string :=
  match t with image => ".webp" | video => ".mp4" end.

Definition processFile (file : MediaFile) (outputDir : string)
  (maxWidth : option Z) : M Z :=
  let ext := output_ext (type file) in
  let outputRelative := replace_ext (relativePath file) ext in
  let outputPath := Path.join outputDir outputRelative in
  match type file with
  | image => compressImage (path file) outputPath maxWidth
  | video => compressVideo (path file) outputPath maxWidth
  end ;;;
  stat_size outputPath.

Definition getModeInteractive : M Mode :=
  let* mode := askMode env in
  match mode with
  | Cancelled => print ClackCancel (Text "Cancelled") ;;; process_exit 0
  | Selected mode => ret mode
  end.

Definition getMaxWidthInteractive (file : MediaFile) : M Z :=
  print ClackInfo (AboutFile (file_info file)) ;;;
  let* maxWidth := askMaxWidth env (file_info file) in
  match maxWidth with
  | Cancelled => print ClackCancel (Text "Cancelled") ;;; process_exit 0
  | Selected choice => ret (option_value choice)
  end.

(** [loadDimensions] assigns [width] and [height] in place; the model
    returns the array of the updated files. *)
Definition loadDimensions (media : list MediaFile) : M (list MediaFile) :=
  map_each (fun file =>
    match type file with
    | image =>
        let* md := metadata env (path file) in
        ret (with_dimensions file (fst md) (snd md))
    | video =>
        let* dims := getVideoDimensions env (path file) in
        ret (with_dimensions file (Some (fst dims)) (Some (snd dims)))
    end) media.

(** The body of [main]'s loop. *)
Definition step (log : Logger) (mode : Mode) (outputDir : string) (n : nat)
  (i : nat) (file : MediaFile) (totals : Z * Z) : M (Z * Z) :=
  let '(totalOriginal, totalCompressed) := totals in
  let* maxWidth :=
    match mode with
    | custom => let* w := getMaxWidthInteractive file in ret (Some w)
    | fast => ret None
    end in
  progress log (Progress (name file) (i + 1) n) ;;;
  let* compressedSize := processFile file outputDir maxWidth in
  let totalOriginal := js_add totalOriginal (size file) in
  let totalCompressed := js_add totalCompressed compressedSize in
  match mode with
  | custom => success log (Saved compressedSize (size file))
  | fast => ret tt
  end ;;;
  ret (totalOriginal, totalCompressed).

(** [main], from the point where [folderPath] has been obtained (from the
    command line when [isCliMode], else from the prompt) and verified to
    be a directory; [tree] is what that directory holds. *)
Definition main (isCliMode : bool) (folderPath : string)
  (tree : list Dirent) : M unit :=
  let log := createLogger isCliMode in
  let allMedia := findMedia folderPath folderPath tree in
  (if Nat.eqb (List.length allMedia) 0
   then error log (Text "No images or videos found") ;;; process_exit 1
   else ret tt) ;;;
  let images := List.filter (fun m => MediaType_eqb (type m) image) allMedia in
  let videos := List.filter (fun m => MediaType_eqb (type m) video) allMedia in
  let totalSize := fold_left (fun sum m => js_add sum (size m)) allMedia 0 in
  info log (Found (List.length images) (List.length videos) totalSize) ;;;
  let* mode := if isCliMode then ret fast else getModeInteractive in
  let* allMedia :=
    match mode with
    | custom => loadDimensions allMedia
    | fast => ret allMedia
    end in
  let outputDir :=
    Path.join (Path.dirname folderPath)
      (Path.basename folderPath ++ "-compressed") in
  mkdir outputDir ;;;
  let* totals :=
    for_each (step log mode outputDir (List.length allMedia))
      0%nat allMedia (0, 0) in
  let '(totalOriginal, totalCompressed) := totals in
  done log ;;;
  success log
    (Summary totalOriginal totalCompressed
       (OneMinusRatio totalCompressed totalOriginal)) ;;;
  info log (Output outputDir) ;;;
  if negb isCliMode then print ClackOutro (Text "Done!") else ret tt.

(** [main().catch((err) => { console.error(err.message); process.exit(1) })]. *)
Definition program (isCliMode : bool) (folderPath : string)
  (tree : list Dirent) : M unit :=
  catch (main isCliMode folderPath tree)
    (fun message => print ConsoleError (Text message)).
End WithEnv.
End Refactored.

(** ** [src/index.ts]: the first generation, images only *)

Module Legacy.
Record ImageFile := {
  path : string;
  name : string;
  relativePath : string;
  size : Z;
  width : option Z;
  height : option Z;
}.

Section WithEnv.
Variable env : Env.

(** The body of the loop of [findImages], on a tree (see
    [Legacy_findImages_listed_entry] for the walk that can throw). *)
Fixpoint findImages_entry (dir baseDir : string) (entry : Dirent)
  : list ImageFile :=
  let fullPath := Path.join dir (dirent_name entry) in
  match entry with
  | DirEntry _ sub => flat_map (findImages_entry fullPath baseDir) sub
  | FileEntry entry_name entry_size =>
      let ext := toLowerCase (Path.extname entry_name) in
      if includes IMAGE_EXTS ext then
        [ {| path := fullPath; name := entry_name;
             relativePath := Path.relative (cwd env) baseDir fullPath;
             size := Z.of_N entry_size;
             width := None; height := None |} ]
      else []
  end.

Definition findImages (dir baseDir : string) (entries : list Dirent)
  : list ImageFile :=
  flat_map (findImages_entry dir baseDir) entries.

Definition with_dimensions (f : ImageFile) (w h : option Z) : ImageFile :=
  {| path := path f; name := name f; relativePath := relativePath f;
     size := size f; width := w; height := h |}.

Definition file_info (f : ImageFile) : FileInfo :=
  {| info_relativePath := relativePath f; info_width := width f;
     info_height := height f; info_size := size f; info_type := None |}.

Definition fast_step (outputDir : string) (n : nat) (i : nat)
  (img : ImageFile) (totals : Z * Z) : M (Z * Z) :=
  let '(totalOriginal, totalCompressed) := totals in
  print SpinnerMessage (Progress (name img) (i + 1) n) ;;;
  let outputRelative := replace_ext (relativePath img) ".webp" in
  let outputPath := Path.join outputDir outputRelative in
  mkdir (Path.dirname outputPath) ;;;
  toFile env (webp (sharp (path img)) 75) outputPath ;;;
  let* outputStat_size := stat_size outputPath in
  ret (js_add totalOriginal (size img),
       js_add totalCompressed outputStat_size).

Definition custom_step (outputDir : string) (i : nat) (img : ImageFile)
  (totals : Z * Z) : M (Z * Z) :=
  let '(totalOriginal, totalCompressed) := totals in
  print ClackInfo (AboutFile (file_info img)) ;;;
  let* maxWidth := askMaxWidth env (file_info img) in
  match maxWidth with
  | Cancelled => print ClackCancel (Text "Cancelled") ;;; process_exit 0
  | Selected choice =>
      let maxWidth := option_value choice in
      let outputRelative := replace_ext (relativePath img) ".webp" in
      let outputPath := Path.join outputDir outputRelative in
      mkdir (Path.dirname outputPath) ;;;
      let pipeline := sharp (path img) in
      let pipeline :=
        if 0 <? maxWidth then resize pipeline maxWidth None true
        else pipeline in
      toFile env (webp pipeline 75) outputPath ;;;
      let* outputStat_size := stat_size outputPath in
      print ClackSuccess (Saved outputStat_size (size img)) ;;;
      ret (js_add totalOriginal (size img),
           js_add totalCompressed outputStat_size)
  end.

(** [main], from the point where [folderPath] has been read and verified
    to be a directory; [tree] is what that directory holds. *)
Definition main (folderPath : string) (tree : list Dirent) : M unit :=
  let folderName := Path.basename folderPath in
  let allImages := findImages folderPath folderPath tree in
  (if Nat.eqb (List.length allImages) 0
   then print ClackError (Text "No images found") ;;; process_exit 1
   else ret tt) ;;;
  let* allImages :=
    map_each (fun img =>
      let* md := metadata env (path img) in
      ret (with_dimensions img (fst md) (snd md))) allImages in
  let totalSize := fold_left (fun sum m => js_add sum (size m)) allImages 0 in
  print ClackInfo (FoundImages (List.length allImages) totalSize) ;;;
  let* mode := askMode env in
  match mode with
  | Cancelled => print ClackCancel (Text "Cancelled") ;;; process_exit 0
  | Selected mode =>
      let outputDir :=
        Path.join (Path.dirname folderPath) (folderName ++ "-compressed") in
      mkdir outputDir ;;;
      let* totals :=
        match mode with
        | fast =>
            print SpinnerStart (Text "Processing...") ;;;
            let* totals :=
              for_each (fast_step outputDir (List.length allImages))
                0%nat allImages (0, 0) in
            print SpinnerStop (Text "Done!") ;;;
            ret totals
        | custom =>
            for_each (custom_step outputDir) 0%nat allImages (0, 0)
        end in
      let '(totalOriginal, totalCompressed) := totals in
      let savings := js_sub totalOriginal totalCompressed in
      print ClackSuccess
        (Summary totalOriginal totalCompressed
           (SavingsOverOriginal savings totalOriginal)) ;;;
      print ClackInfo (Output outputDir) ;;;
      print ClackOutro (Text "Done!")
  end.

Definition program (folderPath : string) (tree : list Dirent) : M unit :=
  catch (main folderPath tree) (fun message => print ClackError (Text message)).
End WithEnv.
End Legacy.

(** ** Well-formed directory trees and what the statements observe *)

Definition no_slash (s : string) : bool :=
  str_forallb (fun c => negb (is_slash c)) s.

(** The names [readdir] can return: not empty, without a slash, and neither
    ["."] nor [".."]. *)
Definition valid_name (n : string) : bool :=
  str_nonempty n && no_slash n && negb (String.eqb n ".")
  && negb (String.eqb n "..").

Fixpoint wf_entry (e : Dirent) : bool :=
  match e with
  | FileEntry n _ => valid_name n
  | DirEntry n sub => valid_name n && forallb wf_entry sub
  end.

Definition wf_tree (tree : list Dirent) : bool := forallb wf_entry tree.

(** Every entry of the tree that is not a directory, in traversal order,
    with the names of the directories that lead to it. *)
Fixpoint files_entry (dirs : list string) (e : Dirent)
  : list (list string * string * N) :=
  match e with
  | FileEntry n sz => [(dirs, n, sz)]
  | DirEntry n sub => flat_map (files_entry (dirs ++ [n])) sub
  end.

Definition files_of (tree : list Dirent) : list (list string * string * N) :=
  flat_map (files_entry []) tree.

Definition join_all (dir : string) (names : list string) : string :=
  fold_left Path.join names dir.

(** The classification in the words of the specification. *)
Definition lowercased_extension (entry_name : string) : string :=
  toLowerCase (Path.extname entry_name).

Definition classified_image (entry_name : string) : Prop :=
  In (lowercased_extension entry_name) IMAGE_EXTS.

Definition classified_video (entry_name : string) : Prop :=
  In (lowercased_extension entry_name) VIDEO_EXTS.

Definition classify (entry_name : string) : option MediaType :=
  if includes IMAGE_EXTS (lowercased_extension entry_name) then Some image
  else if includes VIDEO_EXTS (lowercased_extension entry_name) then Some video
  else None.

(** The calls of external tools in a trace. *)
Definition is_tool (e : Event) : bool :=
  match e with
  | ESharpMetadata _ | EFfprobe _ | ESharpToFile _ _ | EFfmpeg _ => true
  | _ => false
  end.

Definition is_encode (e : Event) : bool :=
  match e with
  | ESharpToFile _ _ | EFfmpeg _ => true
  | _ => false
  end.

Definition is_mkdir (e : Event) : bool :=
  match e with EMkdir _ => true | _ => false end.

Definition tools (s : State) : list Event := List.filter is_tool (trace s).
Definition encodes (s : State) : list Event := List.filter is_encode (trace s).

(** The file a tool is run on: [sharp]'s input, [ffprobe]'s argument, and
    what follows [-i] in [ffmpeg]'s arguments. *)
Definition tool_input (e : Event) : option string :=
  match e with
  | ESharpMetadata p | EFfprobe p => Some p
  | ESharpToFile p _ => Some (input p)
  | EFfmpeg args => nth_error args 2
  | _ => None
  end.

Definition calls_on (p : string) (l : list Event) : nat :=
  List.length
    (List.filter
       (fun e => match tool_input e with
                 | Some q => String.eqb q p
                 | None => false
                 end) l).

(** What the encoder answers to an encoding call. *)
Definition encode_result (env : Env) (e : Event) : option (string + N) :=
  match e with
  | ESharpToFile p out => Some (sharp_toFile env p out)
  | EFfmpeg args => Some (ffmpeg env args)
  | _ => None
  end.

(** The output path of a media file and the encoding call made for it, given
    the max width handed to the compressor (none in fast mode). *)
Definition output_path (outputDir : string) (f : MediaFile) : string :=
  Path.join outputDir
    (replace_ext (relativePath f) (Refactored.output_ext (type f))).

Definition encode_call (outputDir : string) (f : MediaFile)
  (maxWidth : option Z) : Event :=
  match type f with
  | image =>
      ESharpToFile
        (webp (if positive_width maxWidth
               then resize (sharp (path f)) (default 0 maxWidth) None true
               else sharp (path f)) 75)
        (output_path outputDir f)
  | video =>
      EFfmpeg (ffmpeg_args (path f) (output_path outputDir f) maxWidth)
  end.

Definition dimension_call (f : MediaFile) : Event :=
  match type f with
  | image => ESharpMetadata (path f)
  | video => EFfprobe (path f)
  end.

Definition outputDir_of (folderPath : string) : string :=
  Path.join (Path.dirname folderPath)
    (Path.basename folderPath ++ "-compressed").

(** The summary line of a trace, if there is one. *)
Fixpoint summary_of (l : list Event) : option (Z * Z * Percent) :=
  match l with
  | [] => None
  | EPrint _ _ (Summary o c p) :: _ => Some (o, c, p)
  | _ :: r => summary_of r
  end.

Definition sum_Z (l : list Z) : Z := fold_right Z.add 0 l.

(** The file that the specification expects for an entry of the walk: kept
    with its classified type, or omitted. *)
Definition classified_file (env : Env) (dir baseDir : string)
  (x : list string * string * N) : option MediaFile :=
  let '(dirs, n, sz) := x in
  match classify n with
  | Some t =>
      Some {| path := join_all dir (dirs ++ [n]); name := n;
              relativePath :=
                Path.relative (cwd env) baseDir (join_all dir (dirs ++ [n]));
              size := Z.of_N sz; type := t; width := None; height := None |}
  | None => None
  end.

(** Segments that [normalizeString] keeps as they are. *)
Definition proper (s : string) : bool :=
  negb (String.eqb s "") && negb (String.eqb s ".") && negb (String.eqb s "..").

Definition nontrivial (s : string) : bool :=
  negb (String.eqb s "") && negb (String.eqb s ".").

Definition no_dot (s : string) : bool :=
  str_forallb (fun c => negb (is_dot c)) s.

(** ** The run that the statements compare [main] with

    For a list of files to process: the max width handed to the compressor
    for each file, the answer of the encoder, and the outcome of processing
    the files one after the other, stopping at the first cancelled menu and
    at the first failing encoder. *)

Definition chosen_width (env : Env) (mode : Mode) (i : FileInfo)
  : Answer (option Z) :=
  match mode with
  | fast => Selected None
  | custom =>
      match selectMaxWidth env i with
      | Cancelled => Cancelled
      | Selected choice => Selected (Some (option_value choice))
      end
  end.

Definition encoded (env : Env) (outputDir : string) (f : MediaFile)
  (maxWidth : option Z) : string + N :=
  match encode_call outputDir f maxWidth with
  | ESharpToFile p out => sharp_toFile env p out
  | EFfmpeg args => ffmpeg env args
  | _ => inl ""
  end.

Fixpoint process (env : Env) (mode : Mode) (outputDir : string)
  (l : list MediaFile) (totals : Z * Z) (fs : gmap string N)
  : Outcome (Z * Z) * list Event * gmap string N :=
  match l with
  | [] => (Ok totals, [], fs)
  | f :: r =>
      match chosen_width env mode (file_info f) with
      | Cancelled => (Exited 0, [], fs)
      | Selected mw =>
          let call := encode_call outputDir f mw in
          match encoded env outputDir f mw with
          | inl e => (Thrown e, [call], fs)
          | inr sz =>
              let '(o, calls, fs') :=
                process env mode outputDir r
                  (js_add totals.1 (size f), js_add totals.2 (Z.of_N sz))
                  (<[output_path outputDir f := sz]> fs) in
              (o, call :: calls, fs')
          end
      end
  end.

(** Loading the dimensions of a list of files: the files with their
    dimensions, or the message of the first error. *)
Definition load_dimensions (env : Env) (f : MediaFile) : string + MediaFile :=
  match type f with
  | image =>
      match sharp_metadata env (path f) with
      | inl e => inl e
      | inr md => inr (with_dimensions f md.1 md.2)
      end
  | video =>
      let dims := default (0, 0) (ffprobe env (path f)) in
      inr (with_dimensions f (Some dims.1) (Some dims.2))
  end.

Fixpoint load_all (env : Env) (l : list MediaFile)
  : (string + list MediaFile) * list Event :=
  match l with
  | [] => (inr [], [])
  | f :: r =>
      match load_dimensions env f with
      | inl e => (inl e, [dimension_call f])
      | inr f' =>
          let '(res, calls) := load_all env r in
          (match res with inl e => inl e | inr r' => inr (f' :: r') end,
           dimension_call f :: calls)
      end
  end.

(** What is observed of a run of [main]: how it ends, the calls of external
    tools, the files written, and the totals of the summary line. *)
Record Run := {
  outcome : Outcome unit;
  calls : list Event;
  written : gmap string N;
  summary : option (Z * Z * Percent);
}.

Definition observe (r : Outcome unit * State) : Run :=
  {| outcome := r.1; calls := tools r.2; written := files r.2;
     summary := summary_of (trace r.2) |}.

Definition stopped (o : Outcome unit) (calls : list Event) : Run :=
  {| outcome := o; calls := calls; written := ∅; summary := None |}.

Definition finish (percent : Z -> Z -> Percent) (dimension_calls : list Event)
  (p : Outcome (Z * Z) * list Event * gmap string N) : Run :=
  {| outcome := match p.1.1 with
                | Ok _ => Ok tt
                | Thrown e => Thrown e
                | Exited c => Exited c
                end;
     calls := dimension_calls ++ p.1.2;
     written := p.2;
     summary := match p.1.1 with
                | Ok totals => Some (totals, percent totals.1 totals.2)
                | _ => None
                end |}.

(** The run of part_000's [main] in these terms. *)
Definition Refactored_run (env : Env) (isCliMode : bool) (folderPath : string)
  (tree : list Dirent) : Run :=
  let allMedia := Refactored.findMedia env folderPath folderPath tree in
  let outputDir := outputDir_of folderPath in
  let percent o c := OneMinusRatio c o in
  if Nat.eqb (List.length allMedia) 0 then stopped (Exited 1) []
  else
    match (if isCliMode then Selected fast else selectMode env) with
    | Cancelled => stopped (Exited 0) []
    | Selected fast =>
        finish percent [] (process env fast outputDir allMedia (0, 0) ∅)
    | Selected custom =>
        match load_all env allMedia with
        | (inl e, dimension_calls) => stopped (Thrown e) dimension_calls
        | (inr media, dimension_calls) =>
            finish percent dimension_calls
              (process env custom outputDir media (0, 0) ∅)
        end
    end.

(** The run of part_001's [main] in these terms. *)
Definition Monolith_run (env : Env) (folderPath : string)
  (tree : list Dirent) : Run :=
  let allMedia := Monolith.findMedia env folderPath folderPath tree in
  let outputDir := outputDir_of folderPath in
  let percent o c := SavingsOverOriginal (Monolith.savings o c) o in
  let images := List.filter (fun m => MediaType_eqb (type m) image) allMedia in
  let videos := List.filter (fun m => MediaType_eqb (type m) video) allMedia in
  if Nat.eqb (List.length allMedia) 0 then stopped (Exited 1) []
  else
    match load_all env images with
    | (inl e, image_calls) => stopped (Thrown e) image_calls
    | (inr images, image_calls) =>
        match load_all env videos with
        | (inl e, video_calls) =>
            stopped (Thrown e) (image_calls ++ video_calls)
        | (inr videos, video_calls) =>
            match selectMode env with
            | Cancelled => stopped (Exited 0) (image_calls ++ video_calls)
            | Selected mode =>
                finish percent (image_calls ++ video_calls)
                  (process env mode outputDir (images ++ videos)%list
                     (0, 0) ∅)
            end
        end
    end.

(** A run [r] started in [s] ends as [expected] says, having appended to the
    trace events whose tool calls are the expected ones, none of them a
    summary line. *)
Definition runs_as {A} (r : Outcome A * State) (s : State)
  (expected : Outcome A * list Event * gmap string N) : Prop :=
  exists evs,
    r.1 = expected.1.1 /\ trace r.2 = (trace s ++ evs)%list /\
    List.filter is_tool evs = expected.1.2 /\ summary_of evs = None /\
    files r.2 = expected.2.

(** One round of a processing loop, run from [s], does for [f] what
    [process] says. *)
Definition step_runs_as (env : Env) (mode : Mode) (outputDir : string)
  (f : MediaFile) (totals : Z * Z) (r : Outcome (Z * Z) * State) (s : State)
  : Prop :=
  exists evs,
    trace r.2 = (trace s ++ evs)%list /\ summary_of evs = None /\
    match chosen_width env mode (file_info f) with
    | Cancelled =>
        r.1 = Exited 0 /\ List.filter is_tool evs = [] /\ files r.2 = files s
    | Selected mw =>
        List.filter is_tool evs = [encode_call outputDir f mw] /\
        match encoded env outputDir f mw with
        | inl e => r.1 = Thrown e /\ files r.2 = files s
        | inr sz =>
            r.1 = Ok (js_add totals.1 (size f), js_add totals.2 (Z.of_N sz)) /\
            files r.2 = <[output_path outputDir f := sz]> (files s)
        end
    end.

(** Loading dimensions, run from [s], does what [load_all] says. *)
Definition loads_as (env : Env) (l : list MediaFile)
  (r : Outcome (list MediaFile) * State) (s : State) : Prop :=
  exists evs,
    trace r.2 = (trace s ++ evs)%list /\ summary_of evs = None /\
    List.filter is_tool evs = (load_all env l).2 /\ files r.2 = files s /\
    spinnerStarted r.2 = spinnerStarted s /\
    r.1 = match (load_all env l).1 with
          | inl e => Thrown e
          | inr l' => Ok l'
          end.

(** The state after more events. *)
Definition add_events (evs : list Event) (s : State) : State :=
  {| trace := trace s ++ evs; files := files s;
     spinnerStarted := spinnerStarted s |}.

(** Where part_000's logger prints: the prompt library when interactive, the
    console in CLI mode. *)
Definition log_sink (cli : bool) (interactive console : Sink) : Sink :=
  if cli then console else interactive.

(** The arguments of [ffmpeg] that select the codecs. *)
Definition ffmpeg_codec_args (inputPath : string) : list string :=
  ["-y"; "-i"; inputPath; "-c:v"; "libx264"; "-crf"; "28"; "-preset"; "fast";
   "-c:a"; "aac"; "-b:a"; "128k"].

(** The two encoding calls of the specification: at the original
    dimensions, and downscaled to a max width. *)
Definition original_size_call (outputDir : string) (f : MediaFile) : Event :=
  match type f with
  | image =>
      ESharpToFile {| input := path f; ops := [Webp 75] |}
        (output_path outputDir f)
  | video =>
      EFfmpeg (ffmpeg_codec_args (path f) ++ [output_path outputDir f])
  end.

Definition downscaled_call (outputDir : string) (f : MediaFile) (w : Z)
  : Event :=
  match type f with
  | image =>
      ESharpToFile {| input := path f; ops := [Resize w None true; Webp 75] |}
        (output_path outputDir f)
  | video =>
      EFfmpeg (ffmpeg_codec_args (path f)
               ++ ["-vf"; "scale='min(" ++ number_to_string w ++ ",iw)':-2"]
               ++ [output_path outputDir f])
  end.

(** The size of the file an encoding call wrote, and the write itself. *)
Definition output_size (env : Env) (e : Event) : Z :=
  match encode_result env e with
  | Some (inr sz) => Z.of_N sz
  | _ => 0
  end.

Definition call_output (e : Event) : string :=
  match e with
  | ESharpToFile _ out => out
  | EFfmpeg args => List.last args ""
  | _ => ""
  end.

Definition write_call (env : Env) (m : gmap string N) (e : Event)
  : gmap string N :=
  match encode_result env e with
  | Some (inr sz) => <[call_output e := sz]> m
  | _ => m
  end.

(** The processing order of part_001: all images, then all videos. *)
Definition images_first (l : list MediaFile) : list MediaFile :=
  List.filter (fun m => MediaType_eqb (type m) image) l
  ++ List.filter (fun m => MediaType_eqb (type m) video) l.

(** An environment and a folder to run the programs on:
    [a.JPG], [sub.d/v.mov], [sub.d/notes.txt], [a.png]. *)
Definition example_env : Env :=
  {| cwd := "/home/u";
     sharp_metadata := fun _ => inr (Some 4000, Some 3000);
     ffprobe := fun _ => Some (1920, 1080);
     sharp_toFile := fun _ _ => inr 10%N;
     ffmpeg := fun _ => inr 20%N;
     selectMode := Selected custom;
     selectMaxWidth := fun _ => Selected W800 |}.

Definition example_tree : list Dirent :=
  [FileEntry "a.JPG" 100;
   DirEntry "sub.d" [FileEntry "v.mov" 1000; FileEntry "notes.txt" 5];
   FileEntry "a.png" 50].

Definition example_image : MediaFile :=
  {| path := "pics/a.JPG"; name := "a.JPG"; relativePath := "a.JPG";
     size := 100; type := image; width := None; height := None |}.

Definition example_video : MediaFile :=
  {| path := "pics/sub.d/v.mov"; name := "v.mov";
     relativePath := "sub.d/v.mov"; size := 1000; type := video;
     width := None; height := None |}.

(** [e] is the encoding call made for [f], and [e] succeeded. *)
Definition call_for (env : Env) (mode : Mode) (outputDir : string)
  (f : MediaFile) (e : Event) : Prop :=
  exists mw, chosen_width env mode (file_info f) = Selected mw /\
             e = encode_call outputDir f mw.

Definition succeeds (env : Env) (e : Event) : Prop :=
  exists sz, encode_result env e = Some (inr sz).

(** [f'] is [f] with its dimensions assigned. *)
Definition same_file (f f' : MediaFile) : Prop :=
  exists w h, f' = with_dimensions f w h.

(** A folder whose sizes add up beyond 2^53, and a user who picks fast
    mode. *)
Definition huge_tree : list Dirent :=
  [FileEntry "a.png" 9007199254740992; FileEntry "b.png" 1].

Definition fast_env : Env :=
  {| cwd := "/home/u";
     sharp_metadata := fun _ => inr (Some 4000, Some 3000);
     ffprobe := fun _ => Some (1920, 1080);
     sharp_toFile := fun _ _ => inr 10%N;
     ffmpeg := fun _ => inr 20%N;
     selectMode := Selected fast;
     selectMaxWidth := fun _ => Selected Keep |}.

(** How many files of a list have the path [p]. *)
Definition count_path (p : string) (l : list MediaFile) : nat :=
  List.length (List.filter (fun f => String.eqb (path f) p) l).

(** The encoding calls [es] are those of the first files of [media], one
    call per file, in order. *)
Definition attempted_in_order (media : list MediaFile) (es : list Event)
  : Prop :=
  exists k,
    Forall2 (fun f e => is_encode e = true /\ tool_input e = Some (path f))
      (take k media) es.

(** The shape of a run: dimension calls, then encoding calls for the first
    files of [media]; every encoding call succeeded, except the last one
    when the run ends with its error. *)
Definition well_ordered (env : Env) (media : list MediaFile) (R : Run)
  : Prop :=
  exists dims pcalls k,
    calls R = (List.map dimension_call dims ++ pcalls)%list /\
    Forall2 (fun f e => is_encode e = true /\ tool_input e = Some (path f))
      (take k media) pcalls /\
    match outcome R with
    | Ok _ => k = List.length media /\ Forall (succeeds env) pcalls
    | Thrown msg =>
        pcalls = [] \/
        exists done call,
          pcalls = (done ++ [call])%list /\ Forall (succeeds env) done /\
          encode_result env call = Some (inl msg)
    | Exited _ => Forall (succeeds env) pcalls
    end.

(** A folder that lists a video before an image, and a machine on which
    [ffmpeg] fails. *)
Definition video_first_tree : list Dirent :=
  [FileEntry "v.mp4" 1000; FileEntry "i.png" 50].

Definition failing_env : Env :=
  {| cwd := "/home/u";
     sharp_metadata := fun _ => inr (Some 4000, Some 3000);
     ffprobe := fun _ => Some (1920, 1080);
     sharp_toFile := fun _ _ => inr 10%N;
     ffmpeg := fun _ => inl "ffmpeg exited with code 1";
     selectMode := Selected fast;
     selectMaxWidth := fun _ => Selected Keep |}.

(** A file after its dimensions were loaded (unchanged if they cannot be). *)
Definition loaded (env : Env) (f : MediaFile) : MediaFile :=
  match load_dimensions env f with
  | inr f' => f'
  | inl _ => f
  end.

Definition load_ok (env : Env) (f : MediaFile) : Prop :=
  exists f', load_dimensions env f = inr f'.

(** The encoding call made for a file, and whether the file goes through:
    the menu is answered and the encoder succeeds. *)
Definition call_of (env : Env) (mode : Mode) (outputDir : string)
  (f : MediaFile) : Event :=
  match chosen_width env mode (file_info f) with
  | Selected mw => encode_call outputDir f mw
  | Cancelled => encode_call outputDir f None
  end.

Definition goes_through (env : Env) (mode : Mode) (outputDir : string)
  (f : MediaFile) : Prop :=
  exists mw sz,
    chosen_width env mode (file_info f) = Selected mw /\
    encoded env outputDir f mw = inr sz.

Fixpoint last_char (s : string) : option ascii :=
  match s with
  | EmptyString => None
  | String c EmptyString => Some c
  | String _ r => last_char r
  end.

(** Two files of one folder whose names differ in the extension only, and an
    encoder whose output size tells the two apart. *)
Definition same_stem_tree : list Dirent :=
  [FileEntry "a.jpg" 100; FileEntry "a.png" 50].

Definition telling_env : Env :=
  {| cwd := "/home/u";
     sharp_metadata := fun _ => inr (Some 4000, Some 3000);
     ffprobe := fun _ => Some (1920, 1080);
     sharp_toFile := fun p _ =>
       if String.eqb (input p) "pics/a.jpg" then inr 111%N else inr 222%N;
     ffmpeg := fun _ => inr 20%N;
     selectMode := Selected fast;
     selectMaxWidth := fun _ => Selected Keep |}.

(** The output of [f] is named after [f]'s type. *)
Definition output_named (outputDir : string) (f : MediaFile) : Prop :=
  exists stem,
    Path.basename (output_path outputDir f) =
    stem ++ Refactored.output_ext (type f).

(** Induction on directory entries, with the induction hypothesis for
    every entry of a sub-directory. *)
Fixpoint Dirent_nested_ind (P : Dirent -> Prop)
  (Hfile : forall n sz, P (FileEntry n sz))
  (Hdir : forall n sub, Forall P sub -> P (DirEntry n sub))
  (e : Dirent) : P e :=
  match e with
  | FileEntry n sz => Hfile n sz
  | DirEntry n sub =>
      Hdir n sub
        ((fix all (l : list Dirent) : Forall P l :=
            match l with
            | [] => @List.Forall_nil _ P
            | x :: r =>
                @List.Forall_cons _ P x r (Dirent_nested_ind P Hfile Hdir x) (all r)
            end) sub)
  end.

(** ** Invariants of runs

    [hoare I m Q]: run from a state in which [I] holds, [m] ends in a state
    in which [I] holds, and when it returns, its result satisfies [Q]. *)
Definition hoare {A} (I : State -> Prop) (m : M A) (Q : A -> Prop) : Prop :=
  forall s, I s ->
    I (m s).2 /\ match (m s).1 with Ok a => Q a | _ => True end.

Definition anything {A} (a : A) : Prop := True.

(** Every event of the trace satisfies [P] and every file written so far
    has a path that satisfies [W]. *)
Definition footprint (P : Event -> Prop) (W : string -> Prop) (s : State)
  : Prop :=
  Forall P (trace s) /\ forall p sz, files s !! p = Some sz -> W p.

(** What a run may touch, given the files it may read, the files it may
    write and the directories it may create: every tool reads one of the
    inputs, every encoder writes one of the outputs, every [mkdir] creates
    one of the directories. *)
Definition touches_only (inputs outputs dirs : list string) (e : Event)
  : Prop :=
  match e with
  | EMkdir d => In d dirs
  | EAsk _ | EPrint _ _ _ => True
  | _ =>
      (exists p, tool_input e = Some p /\ In p inputs) /\
      (is_encode e = true -> In (call_output e) outputs)
  end.

(** The output path of an image in [src/index.ts]. *)
Definition Legacy_output_path (outputDir : string) (img : Legacy.ImageFile)
  : string :=
  Path.join outputDir (replace_ext (Legacy.relativePath img) ".webp").

(** The footprint allowed to a run on the media files [media] with the
    output folder [dir]: the tools read media files only, the encoders
    write output paths of media files only, and the directories created are
    the output folder and the parent directories of output paths. *)
Definition media_footprint (dir : string) (inputs outputs : list string)
  (s : State) : Prop :=
  footprint
    (touches_only inputs outputs (dir :: List.map Path.dirname outputs))
    (fun p => In p outputs) s.

(** The events of a run that needs no terminal user: no prompt, no call
    that reads dimensions, and no print through the prompt library or its
    spinner. *)
Definition cli_event (e : Event) : bool :=
  match e with
  | EAsk _ | ESharpMetadata _ | EFfprobe _ => false
  | EPrint (ConsoleLog | ConsoleError | StdoutWrite) _ _ => true
  | EPrint _ _ _ => false
  | EMkdir _ | ESharpToFile _ _ | EFfmpeg _ => true
  end.

(** ** The spinner

    The spinner of the prompt library is started, then given messages, then
    stopped.  [spinner_state] follows it along a trace and is [None] as soon
    as the trace uses it otherwise (a message or a stop before the start, a
    second start, any use after the stop). *)
Inductive Spinner := Idle | Spinning | Stopped.

Definition spinner_step (st : option Spinner) (e : Event) : option Spinner :=
  match e with
  | EPrint SpinnerStart _ _ =>
      match st with Some Idle => Some Spinning | _ => None end
  | EPrint SpinnerMessage _ _ =>
      match st with Some Spinning => Some Spinning | _ => None end
  | EPrint SpinnerStop _ _ =>
      match st with Some Spinning => Some Stopped | _ => None end
  | _ => st
  end.

Definition spinner_state (l : list Event) : option Spinner :=
  fold_left spinner_step l (Some Idle).

Definition is_spinner_event (e : Event) : bool :=
  match e with
  | EPrint (SpinnerStart | SpinnerMessage | SpinnerStop) _ _ => true
  | _ => false
  end.

(** [triple P m R E]: run from a state in which [P] holds, [m] ends in a
    state in which [R] holds when it returns, and in a state in which [E]
    holds when it throws or exits. *)
Definition triple {A} (P : State -> Prop) (m : M A) (R E : State -> Prop)
  : Prop :=
  forall s, P s ->
    match (m s).1 with Ok _ => R (m s).2 | _ => E (m s).2 end.

(** The spinner is where the logger's [spinnerStarted] says. *)
Definition spinner_synced (s : State) : Prop :=
  spinner_state (trace s) =
  Some (if spinnerStarted s then Spinning else Idle).

Definition spinner_at (st : Spinner) (s : State) : Prop :=
  spinner_state (trace s) = Some st.

Definition spinner_fine (s : State) : Prop :=
  spinner_state (trace s) <> None.

Definition spinner_at_rest (s : State) : Prop :=
  spinner_state (trace s) = Some Idle \/
  spinner_state (trace s) = Some Stopped.

(** An invariant of the trace that every event satisfying [q] keeps, and
    that does not depend on the files written. *)
Definition kept_by (q : Event -> bool) (I : State -> Prop) : Prop :=
  (forall s e, q e = true -> I s -> I (add_events [e] s)) /\
  (forall s fs, I s ->
     I {| trace := trace s; files := fs; spinnerStarted := spinnerStarted s |}).

(** The events that are not the spinner's: an invariant that only depends
    on the spinner's state and the logger's flag is kept by them. *)
Definition not_spinner_event (e : Event) : bool := negb (is_spinner_event e).

(** How a run can end: completed, with a summary line; or stopped by
    [process.exit] with status 0 or 1, without one. *)
Definition ends_well (r : Outcome unit * State) : Prop :=
  (r.1 = Ok tt /\ summary_of (trace r.2) <> None) \/
  ((r.1 = Exited 0 \/ r.1 = Exited 1) /\ summary_of (trace r.2) = None).

(** A normalised path: proper names separated by single slashes, after a
    leading slash when the path is absolute. *)
Definition normal_path (absolute : bool) (names : list string) : string :=
  (if absolute then "/" else "") ++ Path.unsegments names.

(** The events of a run that creates and encodes nothing. *)
Definition idle_event (e : Event) : bool := negb (is_mkdir e || is_encode e).

(** A user who cancels the Mode prompt. *)
Definition cancelling_env : Env :=
  {| cwd := "/home/u";
     sharp_metadata := fun _ => inr (Some 4000, Some 3000);
     ffprobe := fun _ => Some (1920, 1080);
     sharp_toFile := fun _ _ => inr 10%N;
     ffmpeg := fun _ => inr 20%N;
     selectMode := Cancelled;
     selectMaxWidth := fun _ => Selected Keep |}.

(** ** [normalizePath] (part_000) and the same expression in the [main] of
    part_001 and index.ts

    [input.trim().replace(/\\ /g, " ").replace(/\/$/, "")].  Strings are
    sequences of code units below 256; of the white space and line
    terminators that [trim] removes, those are TAB, LF, VT, FF, CR, SP and
    NBSP (the others lie above that range). *)
Definition is_whitespace (c : ascii) : bool :=
  let n := nat_of_ascii c in
  (Nat.leb 9 n && Nat.leb n 13) || Nat.eqb n 32 || Nat.eqb n 160.

Fixpoint trimStart (s : string) : string :=
  match s with
  | EmptyString => EmptyString
  | String c r => if is_whitespace c then trimStart r else s
  end.

Fixpoint trimEnd (s : string) : string :=
  match s with
  | EmptyString => EmptyString
  | String c r =>
      match trimEnd r with
      | EmptyString => if is_whitespace c then EmptyString else String c ""
      | r' => String c r'
      end
  end.

Definition trim (s : string) : string := trimEnd (trimStart s).

Definition is_backslash (c : ascii) : bool := Nat.eqb (nat_of_ascii c) 92.
Definition is_space (c : ascii) : bool := Nat.eqb (nat_of_ascii c) 32.

(** [s.replace(/\\ /g, " ")]: every backslash that is followed by a space
    goes, from left to right. *)
Fixpoint unescape_spaces (s : string) : string :=
  match s with
  | EmptyString => EmptyString
  | String c r =>
      match r with
      | String d r' =>
          if is_backslash c && is_space d then String d (unescape_spaces r')
          else String c (unescape_spaces r)
      | EmptyString => String c EmptyString
      end
  end.

(** [s.replace(/\/$/, "")]: one slash at the end of the string goes. *)
Fixpoint strip_trailing_slash (s : string) : string :=
  match s with
  | EmptyString => EmptyString
  | String c r =>
      match r with
      | EmptyString => if is_slash c then EmptyString else s
      | _ => String c (strip_trailing_slash r)
      end
  end.

Definition normalizePath (input : string) : string :=
  strip_trailing_slash (unescape_spaces (trim input)).

Definition all_whitespace (s : string) : bool := str_forallb is_whitespace s.

Definition starts_with_whitespace (s : string) : bool :=
  match s with String c _ => is_whitespace c | EmptyString => false end.

Definition ends_with (p : ascii -> bool) (s : string) : bool :=
  match last_char s with Some c => p c | None => false end.

(** The path as the terminal pastes it: a backslash before every space. *)
Fixpoint escape_spaces (s : string) : string :=
  match s with
  | EmptyString => EmptyString
  | String c r =>
      if is_space c
      then String (ascii_of_nat 92) (String c (escape_spaces r))
      else String c (escape_spaces r)
  end.

(** ** [formatBytes] (the same in the three files)

    [bytes] is a number that holds an integer.  Dividing it by a power of
    two is exact in floating point, so [x.toFixed(f)] is applied to the
    exact quotient [num / den]: it takes the integer [n] for which
    [n / 10^f] is nearest to the quotient (the larger one of two) and
    prints its digits with a decimal point before the last [f] of them.
    (Quotients of 10^21 and more, which [toFixed] prints in exponent
    notation, are out of the reach of byte counts.) *)
Definition toFixed_integer (num den : Z) (f : nat) : Z :=
  (2 * num * 10 ^ Z.of_nat f + den) / (2 * den).

Fixpoint pad_zeros (k : nat) (digits : string) : string :=
  match k with
  | O => digits
  | S k' => pad_zeros k' (String "0" digits)
  end.

Fixpoint split_at (k : nat) (s : string) : string * string :=
  match k, s with
  | S k', String c r => let '(a, b) := split_at k' r in (String c a, b)
  | _, _ => (EmptyString, s)
  end.

Definition toFixed (num den : Z) (f : nat) : string :=
  let m := number_to_string (toFixed_integer num den f) in
  match f with
  | O => m
  | _ =>
      let m := pad_zeros (S f - String.length m) m in
      let '(a, b) := split_at (String.length m - f) m in
      a ++ "." ++ b
  end.

Definition formatBytes (bytes : Z) : string :=
  if bytes <? 1024 then number_to_string bytes ++ " B"
  else if bytes <? 1024 * 1024 then toFixed bytes 1024 1 ++ " KB"
  else toFixed bytes (1024 * 1024) 2 ++ " MB".

(** ** Obtaining the folder (part_000)

    The command line and the file system at start-up: [process.argv[2]],
    what [stat] says of a path ([None] when it throws), and what the
    directories hold. *)
Record Shell := {
  argv2 : option string;
  stat_isDirectory : string -> option bool;
  readdir : string -> list Dirent;
}.

Definition verifyFolder (sh : Shell) (folderPath : string) : bool :=
  match stat_isDirectory sh folderPath with
  | Some isDirectory => isDirectory
  | None => false
  end.

(** [getFolderFromCli]: [null] without an argument and for the empty
    argument ([!cliPath]). *)
Definition getFolderFromCli (sh : Shell) : M (option string) :=
  match argv2 sh with
  | None => ret None
  | Some cliPath =>
      if String.eqb cliPath "" then ret None
      else
        let folderPath := normalizePath cliPath in
        if negb (verifyFolder sh folderPath)
        then print ConsoleError (Text "Error: Invalid folder path") ;;;
             process_exit 1
        else ret (Some folderPath)
  end.

(** The whole of part_000: [main] from its first line, inside
    [main().catch].  [getFolderInteractive] is a parameter: it only runs
    when [getFolderFromCli] returns [null].  [isCliMode] is [!!cliFolder],
    and [folderPath] is [cliFolder ?? ...]. *)
Definition Refactored_start (sh : Shell) (env : Env)
  (getFolderInteractive : M string) : M unit :=
  catch
    (let* cliFolder := getFolderFromCli sh in
     let isCliMode :=
       match cliFolder with
       | Some folder => negb (String.eqb folder "")
       | None => false
       end in
     let* folderPath :=
       match cliFolder with
       | Some folder => ret folder
       | None => getFolderInteractive
       end in
     Refactored.main env isCliMode folderPath (readdir sh folderPath))
    (fun message => print ConsoleError (Text message)).

(** A shell started as [img4web pics/], where [pics] is a directory that
    holds [example_tree]. *)
Definition example_shell : Shell :=
  {| argv2 := Some "pics/";
     stat_isDirectory := fun p =>
       if String.eqb p "pics" then Some true else None;
     readdir := fun _ => example_tree |}.

(** A media file as an [ImageFile] of index.ts, if it is an image. *)
Definition as_image (m : MediaFile) : option Legacy.ImageFile :=
  match type m with
  | image =>
      Some {| Legacy.path := path m; Legacy.name := name m;
              Legacy.relativePath := relativePath m; Legacy.size := size m;
              Legacy.width := width m; Legacy.height := height m |}
  | video => None
  end.

(** No directory of the tree lists a name twice (as [readdir] guarantees). *)
Fixpoint distinct_strings (l : list string) : bool :=
  match l with
  | [] => true
  | x :: r => negb (includes r x) && distinct_strings r
  end.

Fixpoint distinct_entry (e : Dirent) : bool :=
  match e with
  | FileEntry _ _ => true
  | DirEntry _ sub =>
      distinct_strings (List.map dirent_name sub) && forallb distinct_entry sub
  end.

Definition distinct_tree (tree : list Dirent) : bool :=
  distinct_strings (List.map dirent_name tree) && forallb distinct_entry tree.

(** The names that lead from the input folder to an entry of the walk. *)
Definition entry_key (x : list string * string * N) : list string :=
  x.1.1 ++ [x.1.2].

(** ** Progress messages

    The progress messages of a trace, each with the name of the file, its
    number and the number of files, as the template
    [`${file.name} (${i + 1}/${n})`] prints them. *)
Definition progress_of (e : Event) : option (string * nat * nat) :=
  match e with
  | EPrint _ _ (Progress file_name i n) => Some (file_name, i, n)
  | _ => None
  end.

Definition progress_messages (tr : list Event) : list (string * nat * nat) :=
  omap progress_of tr.

Definition no_progress (e : Event) : bool :=
  match progress_of e with Some _ => false | None => true end.

(** The files [names] numbered from [i + 1], out of [n]. *)
Fixpoint numbered (n i : nat) (names : list string)
  : list (string * nat * nat) :=
  match names with
  | [] => []
  | file_name :: r => (file_name, (i + 1)%nat, n) :: numbered n (S i) r
  end.

(** The trace holds the first [k] of the [expected] progress messages. *)
Definition progress_at (expected : list (string * nat * nat)) (k : nat)
  (s : State) : Prop :=
  progress_messages (trace s) = take k expected.

Definition progress_within (expected : list (string * nat * nat))
  (s : State) : Prop :=
  exists k, progress_at expected k s.

(** The size of the file at [p] when the run ends ([0] if there is none). *)
Definition file_size (s : State) (p : string) : Z :=
  match files s !! p with
  | Some sz => Z.of_N sz
  | None => 0
  end.

(** ** One attempt per file

    What a processing loop is to do for a file: the encoding call to make, or
    nothing when the user cancels the file's menu. *)
Definition planned (env : Env) (mode : Mode) (outputDir : string)
  (f : MediaFile) : Answer Event :=
  match chosen_width env mode (file_info f) with
  | Cancelled => Cancelled
  | Selected mw => Selected (encode_call outputDir f mw)
  end.

(** The run [r] follows the [plan], one entry per file in processing order:
    it makes the planned calls one after the other, each once, as long as
    they succeed ([done]), and
    - with no entry left, it completes;
    - at a cancelled menu it exits with status 0, having made no call for
      that file nor for a later one;
    - at a call that throws, that call is the last one it makes, it prints
      the message of the error last, on [sink], and exits with status 1. *)
Definition follows_plan (env : Env) (plan : list (Answer Event))
  (sink : Sink) (r : Outcome unit * State) : Prop :=
  exists done rest,
    plan = (List.map Selected done ++ rest)%list /\
    Forall (succeeds env) done /\
    match rest with
    | [] => r.1 = Ok tt /\ encodes r.2 = done
    | Cancelled :: _ => r.1 = Exited 0 /\ encodes r.2 = done
    | Selected call :: _ =>
        exists msg,
          encode_result env call = Some (inl msg) /\ r.1 = Exited 1 /\
          encodes r.2 = (done ++ [call])%list /\
          last (trace r.2) = Some (EPrint sink "" (Text msg))
    end.

(** One round of a loop does what is planned for the file: nothing but
    exiting with status 0 at a cancelled menu, else the one call, after which
    it goes on or throws as the call does. *)
Definition step_follows (env : Env) (a : Answer Event)
  (r : Outcome (Z * Z) * State) (s : State) : Prop :=
  exists evs,
    trace r.2 = (trace s ++ evs)%list /\
    match a with
    | Cancelled => r.1 = Exited 0 /\ List.filter is_encode evs = []
    | Selected call =>
        List.filter is_encode evs = [call] /\
        match encode_result env call with
        | Some (inl msg) => r.1 = Thrown msg
        | Some (inr _) => exists totals, r.1 = Ok totals
        | None => False
        end
    end.

(** The same for the whole loop, run from [s]. *)
Definition loop_follows (env : Env) (plan : list (Answer Event))
  (r : Outcome (Z * Z) * State) (s : State) : Prop :=
  exists evs done rest,
    trace r.2 = (trace s ++ evs)%list /\
    plan = (List.map Selected done ++ rest)%list /\
    Forall (succeeds env) done /\
    match rest with
    | [] => (exists totals, r.1 = Ok totals) /\ List.filter is_encode evs = done
    | Cancelled :: _ => r.1 = Exited 0 /\ List.filter is_encode evs = done
    | Selected call :: _ =>
        exists msg,
          encode_result env call = Some (inl msg) /\ r.1 = Thrown msg /\
          List.filter is_encode evs = (done ++ [call])%list
    end.

(** index.ts: the call for an image, given the max width chosen (0 in fast
    mode), the plan for an image, and an image after [main] has read its
    dimensions. *)
Definition Legacy_encode_call (outputDir : string) (img : Legacy.ImageFile)
  (maxWidth : Z) : Event :=
  ESharpToFile
    (webp (if 0 <? maxWidth
           then resize (sharp (Legacy.path img)) maxWidth None true
           else sharp (Legacy.path img)) 75)
    (Legacy_output_path outputDir img).

Definition Legacy_planned (env : Env) (mode : Mode) (outputDir : string)
  (img : Legacy.ImageFile) : Answer Event :=
  match mode with
  | fast => Selected (Legacy_encode_call outputDir img 0)
  | custom =>
      match selectMaxWidth env (Legacy.file_info img) with
      | Cancelled => Cancelled
      | Selected choice =>
          Selected (Legacy_encode_call outputDir img (option_value choice))
      end
  end.

Definition Legacy_loaded (env : Env) (img : Legacy.ImageFile)
  : Legacy.ImageFile :=
  match sharp_metadata env (Legacy.path img) with
  | inr md => Legacy.with_dimensions img md.1 md.2
  | inl _ => img
  end.

Definition Legacy_load_ok (env : Env) (img : Legacy.ImageFile) : Prop :=
  exists md, sharp_metadata env (Legacy.path img) = inr md.

(** The calls that read dimensions. *)
Definition is_dimension_call (e : Event) : bool :=
  match e with
  | ESharpMetadata _ | EFfprobe _ => true
  | _ => false
  end.

(** A machine on which [sharp] can neither read the metadata of
    [pics/i.png] nor encode it, in fast mode. *)
Definition broken_image_env : Env :=
  {| cwd := "/home/u";
     sharp_metadata := fun p =>
       if String.eqb p "pics/i.png"
       then inl "Input file contains unsupported image format"
       else inr (Some 4000, Some 3000);
     ffprobe := fun _ => Some (1920, 1080);
     sharp_toFile := fun p _ =>
       if String.eqb (input p) "pics/i.png"
       then inl "Input file contains unsupported image format"
       else inr 10%N;
     ffmpeg := fun _ => inr 20%N;
     selectMode := Selected fast;
     selectMaxWidth := fun _ => Selected Keep |}.

(** ** The walk when [readdir] or [stat] throws

    What the walk meets in the input folder: an entry that is not a
    directory, with what [stat] answers for its path (its size, or the
    message of the error it throws, as for a dangling symbolic link), and a
    directory, with what [readdir] answers for it (its entries, or the
    message of the error it throws, as for a directory that may not be
    read).  A [Dirent] tree is a listing on which no call throws. *)
Inductive Listing :=
| ListedFile (entry_name : string) (stat_result : string + N)
| ListedDir (entry_name : string) (readdir_result : string + list Listing).

Definition listing_name (e : Listing) : string :=
  match e with ListedFile n _ | ListedDir n _ => n end.

(** The loop over the entries of a directory: the first error ends it. *)
Definition walk_all {A} (walk : Listing -> string + list A)
  : list Listing -> string + list A :=
  fix go (entries : list Listing) : string + list A :=
    match entries with
    | [] => inr []
    | entry :: rest =>
        match walk entry with
        | inl message => inl message
        | inr found =>
            match go rest with
            | inl message => inl message
            | inr more => inr (found ++ more)%list
            end
        end
    end.

(** [findMedia] of part_000: [stat] is awaited for every entry that is not
    a directory, before its extension is looked at. *)
Fixpoint Refactored_findMedia_listed_entry (env : Env) (dir baseDir : string)
  (entry : Listing) : string + list MediaFile :=
  let fullPath := Path.join dir (listing_name entry) in
  match entry with
  | ListedDir _ (inl message) => inl message
  | ListedDir _ (inr sub) =>
      walk_all (Refactored_findMedia_listed_entry env fullPath baseDir) sub
  | ListedFile entry_name fileStat =>
      let ext := toLowerCase (Path.extname entry_name) in
      match fileStat with
      | inl message => inl message
      | inr entry_size =>
          let isImage := includes IMAGE_EXTS ext in
          let isVideo := includes VIDEO_EXTS ext in
          inr (if isImage || isVideo then
                 [ {| path := fullPath; name := entry_name;
                      relativePath := Path.relative (cwd env) baseDir fullPath;
                      size := Z.of_N entry_size;
                      type := if isImage then image else video;
                      width := None; height := None |} ]
               else [])
      end
  end.

Definition Refactored_findMedia_listed (env : Env) (dir baseDir : string)
  (entries : string + list Listing) : string + list MediaFile :=
  match entries with
  | inl message => inl message
  | inr entries =>
      walk_all (Refactored_findMedia_listed_entry env dir baseDir) entries
  end.

(** [findMedia] of part_001: the same, with the two tests of the extension
    one after the other. *)
Fixpoint Monolith_findMedia_listed_entry (env : Env) (dir baseDir : string)
  (entry : Listing) : string + list MediaFile :=
  let fullPath := Path.join dir (listing_name entry) in
  match entry with
  | ListedDir _ (inl message) => inl message
  | ListedDir _ (inr sub) =>
      walk_all (Monolith_findMedia_listed_entry env fullPath baseDir) sub
  | ListedFile entry_name fileStat =>
      let ext := toLowerCase (Path.extname entry_name) in
      match fileStat with
      | inl message => inl message
      | inr entry_size =>
          inr (if includes IMAGE_EXTS ext then
                 [ {| path := fullPath; name := entry_name;
                      relativePath := Path.relative (cwd env) baseDir fullPath;
                      size := Z.of_N entry_size; type := image;
                      width := None; height := None |} ]
               else if includes VIDEO_EXTS ext then
                 [ {| path := fullPath; name := entry_name;
                      relativePath := Path.relative (cwd env) baseDir fullPath;
                      size := Z.of_N entry_size; type := video;
                      width := None; height := None |} ]
               else [])
      end
  end.

Definition Monolith_findMedia_listed (env : Env) (dir baseDir : string)
  (entries : string + list Listing) : string + list MediaFile :=
  match entries with
  | inl message => inl message
  | inr entries =>
      walk_all (Monolith_findMedia_listed_entry env dir baseDir) entries
  end.

(** [findImages] of index.ts: [stat] is awaited for the entries with an
    image extension only. *)
Fixpoint Legacy_findImages_listed_entry (env : Env) (dir baseDir : string)
  (entry : Listing) : string + list Legacy.ImageFile :=
  let fullPath := Path.join dir (listing_name entry) in
  match entry with
  | ListedDir _ (inl message) => inl message
  | ListedDir _ (inr sub) =>
      walk_all (Legacy_findImages_listed_entry env fullPath baseDir) sub
  | ListedFile entry_name fileStat =>
      let ext := toLowerCase (Path.extname entry_name) in
      if includes IMAGE_EXTS ext then
        match fileStat with
        | inl message => inl message
        | inr entry_size =>
            inr [ {| Legacy.path := fullPath; Legacy.name := entry_name;
                     Legacy.relativePath :=
                       Path.relative (cwd env) baseDir fullPath;
                     Legacy.size := Z.of_N entry_size;
                     Legacy.width := None; Legacy.height := None |} ]
        end
      else inr []
  end.

Definition Legacy_findImages_listed (env : Env) (dir baseDir : string)
  (entries : string + list Listing) : string + list Legacy.ImageFile :=
  match entries with
  | inl message => inl message
  | inr entries =>
      walk_all (Legacy_findImages_listed_entry env dir baseDir) entries
  end.

(** A listing as a tree, once the walk went through: what was not asked
    for (the size of an entry whose [stat] would throw, the entries of a
    directory that cannot be read) is left out. *)
Fixpoint as_tree_entry (entry : Listing) : Dirent :=
  match entry with
  | ListedFile entry_name fileStat =>
      FileEntry entry_name
        match fileStat with inr entry_size => entry_size | inl _ => 0%N end
  | ListedDir entry_name (inr sub) =>
      DirEntry entry_name (List.map as_tree_entry sub)
  | ListedDir entry_name (inl _) => DirEntry entry_name []
  end.

Definition as_tree (entries : string + list Listing) : list Dirent :=
  match entries with
  | inr entries => List.map as_tree_entry entries
  | inl _ => []
  end.

(** A tree as the listing on which no call throws. *)
Fixpoint listed_entry (entry : Dirent) : Listing :=
  match entry with
  | FileEntry entry_name entry_size => ListedFile entry_name (inr entry_size)
  | DirEntry entry_name sub =>
      ListedDir entry_name (inr (List.map listed_entry sub))
  end.

Definition listed (tree : list Dirent) : string + list Listing :=
  inr (List.map listed_entry tree).

(** The names of the entries of a listing that are not directories. *)
Fixpoint listed_names_entry (entry : Listing) : list string :=
  match entry with
  | ListedFile entry_name _ => [entry_name]
  | ListedDir _ (inr sub) => flat_map listed_names_entry sub
  | ListedDir _ (inl _) => []
  end.

Definition listed_names (entries : string + list Listing) : list string :=
  match entries with
  | inr entries => flat_map listed_names_entry entries
  | inl _ => []
  end.

(** The programs from the walk on: [main] awaits [findMedia] before it does
    anything else with the folder, so an error of the walk is thrown from
    [main] before any event; when the walk returns, the run is the one on
    the tree. *)
Definition Refactored_program_listed (env : Env) (isCliMode : bool)
  (folderPath : string) (entries : string + list Listing) : M unit :=
  catch
    (match Refactored_findMedia_listed env folderPath folderPath entries with
     | inl message => throw message
     | inr _ => Refactored.main env isCliMode folderPath (as_tree entries)
     end)
    (fun message => print ConsoleError (Text message)).

Definition Monolith_program_listed (env : Env) (folderPath : string)
  (entries : string + list Listing) : M unit :=
  catch
    (match Monolith_findMedia_listed env folderPath folderPath entries with
     | inl message => throw message
     | inr _ => Monolith.main env folderPath (as_tree entries)
     end)
    (fun message => print ClackError (Text message)).

Definition Legacy_program_listed (env : Env) (folderPath : string)
  (entries : string + list Listing) : M unit :=
  catch
    (match Legacy_findImages_listed env folderPath folderPath entries with
     | inl message => throw message
     | inr _ => Legacy.main env folderPath (as_tree entries)
     end)
    (fun message => print ClackError (Text message)).

(** A folder without media that holds a dangling symbolic link. *)
Definition dangling_link_message : string :=
  "ENOENT: no such file or directory, stat 'docs/link'".

Definition dangling_link_listing : string + list Listing :=
  inr [ListedFile "readme.md" (inr 10%N);
       ListedFile "link" (inl dangling_link_message)].

(** Induction on listings, with the induction hypothesis for every entry of
    a directory that can be read. *)
Fixpoint Listing_nested_ind (P : Listing -> Prop)
  (Hfile : forall n st, P (ListedFile n st))
  (Hfail : forall n message, P (ListedDir n (inl message)))
  (Hdir : forall n sub, Forall P sub -> P (ListedDir n (inr sub)))
  (e : Listing) : P e :=
  match e with
  | ListedFile n st => Hfile n st
  | ListedDir n (inl message) => Hfail n message
  | ListedDir n (inr sub) =>
      Hdir n sub
        ((fix all (l : list Listing) : Forall P l :=
            match l with
            | [] => @List.Forall_nil _ P
            | x :: r =>
                @List.Forall_cons _ P x r
                  (Listing_nested_ind P Hfile Hfail Hdir x) (all r)
            end) sub)
  end.

(** * Properties *)

(** ** The path functions on known values

    The values are those Node returns. *)

Example Path_examples :
  Path.join "pics" "a.JPG" = "pics/a.JPG" /\
  Path.join "." "a" = "a" /\
  Path.join "a/" "../b" = "b" /\
  Path.join "" "" = "." /\
  Path.normalize "a//b/./c/.." = "a/b" /\
  Path.normalize "/../a/" = "/a/" /\
  Path.normalize "../../a" = "../../a" /\
  Path.basename "/a/b/" = "b" /\
  Path.basename "." = "." /\
  Path.dirname "." = "." /\
  Path.dirname "a" = "." /\
  Path.dirname "/a" = "/" /\
  Path.dirname "/a/b" = "/a" /\
  Path.dirname "a/b/" = "a" /\
  Path.extname "a.tar.gz" = ".gz" /\
  Path.extname ".bashrc" = "" /\
  Path.extname "a." = "." /\
  Path.extname ".." = "" /\
  Path.extname "sub.d/notes" = "" /\
  Path.relative "/home/u" "/a/b" "/a/b/c/d" = "c/d" /\
  Path.relative "/home/u" "/a/b" "/a/c" = "../c" /\
  Path.relative "/home/u" "pics" "pics/sub/a.png" = "sub/a.png" /\
  Path.resolve "/home/u" "pics/../x" = "/home/u/x".
Proof. repeat split; reflexivity. Qed.

Example replace_ext_examples :
  replace_ext "sub.d/v.mov" ".mp4" = "sub.d/v.mp4" /\
  replace_ext "a.tar.gz" ".webp" = "a.tar.webp" /\
  replace_ext "notes" ".webp" = "notes" /\
  replace_ext "a." ".webp" = "a." /\
  replace_ext "a.b/c" ".mp4" = "a.mp4".
Proof. repeat split; reflexivity. Qed.

Example js_add_examples :
  js_add 9007199254740991 1 = 9007199254740992 /\
  js_add 9007199254740992 1 = 9007199254740992 /\
  js_add 9007199254740992 2 = 9007199254740994 /\
  js_add 9007199254740994 1 = 9007199254740996 /\
  js_sub 9007199254740993 0 = 9007199254740992.
Proof. repeat split; reflexivity. Qed.

(** ** Facts about strings *)

#[local] Arguments String.append !_ _ / : simpl nomatch.

Lemma append_nil_r (s : string) : s ++ "" = s.
Proof. induction s; simpl; congruence. Qed.

Lemma append_assoc (a b c : string) : (a ++ b) ++ c = a ++ (b ++ c).
Proof. induction a; simpl; congruence. Qed.

Lemma str_length_app (a b : string) :
  String.length (a ++ b) = (String.length a + String.length b)%nat.
Proof. induction a; simpl; congruence. Qed.

Lemma eqb_false_ne (a b : string) : a ≠ b -> String.eqb a b = false.
Proof. intros H. apply String.eqb_neq. exact H. Qed.

Lemma str_nonempty_app_r (a b : string) :
  str_nonempty b = true -> str_nonempty (a ++ b) = true.
Proof. destruct a, b; simpl; congruence. Qed.

Lemma no_slash_app (a b : string) :
  no_slash (a ++ b) = no_slash a && no_slash b.
Proof.
  unfold no_slash. induction a as [|c a IH]; simpl; [done|].
  rewrite IH. by rewrite andb_assoc.
Qed.

(** ** Facts about [segments] *)

Lemma segments_nonnil (s : string) : Path.segments s ≠ [].
Proof.
  induction s as [|c s IH]; simpl; [done|].
  destruct (is_slash c); [done|]. by destruct (Path.segments s).
Qed.

Lemma segments_no_slash (n : string) :
  no_slash n = true -> Path.segments n = [n].
Proof.
  unfold no_slash. induction n as [|c n IH]; simpl; [done|].
  intros [Hc Hn]%andb_prop. apply negb_true_iff in Hc. rewrite Hc.
  by rewrite (IH Hn).
Qed.

Lemma segments_app_slash (a b : string) :
  Path.segments (a ++ "/" ++ b) = (Path.segments a ++ Path.segments b)%list.
Proof.
  induction a as [|c a IH]; simpl in *; [done|].
  rewrite IH. destruct (is_slash c); [done|].
  destruct (Path.segments a) eqn:E; [by apply segments_nonnil in E|done].
Qed.

Lemma segments_cons_slash (b : string) :
  Path.segments ("/" ++ b) = "" :: Path.segments b.
Proof. done. Qed.

Lemma segments_elements (s : string) :
  Forall (fun x => no_slash x = true) (Path.segments s).
Proof.
  induction s as [|c s IH]; simpl.
  - by repeat constructor.
  - destruct (is_slash c) eqn:Hc.
    + by constructor.
    + destruct (Path.segments s) as [|h t]; inversion IH; subst;
        constructor; try done; unfold no_slash in *; simpl; by rewrite Hc.
Qed.

Lemma segments_unsegments (l : list string) :
  l ≠ [] -> Forall (fun x => no_slash x = true) l ->
  Path.segments (Path.unsegments l) = l.
Proof.
  induction l as [|x l IH]; [done|]. intros _ H.
  inversion H as [|? ? Hx Hl]; subst.
  destruct l as [|y l].
  - simpl. by apply segments_no_slash.
  - change (Path.unsegments (x :: y :: l))
      with (x ++ "/" ++ Path.unsegments (y :: l)).
    rewrite segments_app_slash, (segments_no_slash _ Hx), IH; done.
Qed.

Lemma unsegments_cons2 (y z : string) (l : list string) :
  Path.unsegments (y :: z :: l) = y ++ "/" ++ Path.unsegments (z :: l).
Proof. done. Qed.

Lemma unsegments_snoc (l : list string) (x : string) :
  l ≠ [] -> Path.unsegments (l ++ [x]) = Path.unsegments l ++ "/" ++ x.
Proof.
  induction l as [|y l IH]; [done|]. intros _.
  destruct l as [|z l]; [done|].
  change ((y :: z :: l) ++ [x])%list with (y :: z :: (l ++ [x]))%list.
  rewrite !unsegments_cons2.
  change (z :: (l ++ [x]))%list with ((z :: l) ++ [x])%list.
  rewrite IH by done. by rewrite !append_assoc.
Qed.

Lemma unsegments_snoc_app (l : list string) (x e : string) :
  Path.unsegments (l ++ [x ++ e]) = Path.unsegments (l ++ [x]) ++ e.
Proof.
  destruct l as [|y l]; [done|].
  rewrite !unsegments_snoc by done. by rewrite !append_assoc.
Qed.

(** ** Facts about [normalizeString], [normalize] and [join] *)

Lemma valid_name_proper (n : string) : valid_name n = true -> proper n = true.
Proof.
  unfold valid_name, proper. intros H.
  repeat (apply andb_prop in H as [H ?]).
  destruct n; [done|]. simpl in *. by rewrite H0, H1.
Qed.

Lemma valid_name_no_slash (n : string) :
  valid_name n = true -> no_slash n = true.
Proof.
  unfold valid_name. intros H. by repeat (apply andb_prop in H as [H ?]).
Qed.

Lemma valid_name_nonempty (n : string) :
  valid_name n = true -> str_nonempty n = true.
Proof.
  unfold valid_name. intros H. by repeat (apply andb_prop in H as [H ?]).
Qed.

Lemma nstep_proper (a : bool) (S : list string) (x : string) :
  proper x = true -> Path.nstep a S x = x :: S.
Proof.
  unfold proper, Path.nstep. intros H.
  repeat (apply andb_prop in H as [H ?]).
  apply negb_true_iff in H, H0, H1. by rewrite H, H0, H1.
Qed.

Lemma nstack_app (a : bool) (S : list string) (l1 l2 : list string) :
  Path.nstack a S (l1 ++ l2) = Path.nstack a (Path.nstack a S l1) l2.
Proof. apply fold_left_app. Qed.

Lemma nstack_proper (a : bool) (l S : list string) :
  Forall (fun x => proper x = true) l ->
  Path.nstack a S l = (rev l ++ S)%list.
Proof.
  revert S. induction l as [|x l IH]; intros S H; [done|].
  inversion H; subst. simpl. unfold Path.nstack in *. simpl.
  rewrite nstep_proper by done. rewrite IH by done.
  by rewrite <- app_assoc.
Qed.

Lemma nstep_false_proper (S : list string) (x : string) :
  Forall (fun x => proper x = true) S ->
  Forall (fun x => proper x = true) (Path.nstep false S x).
Proof.
  intros H. unfold Path.nstep.
  destruct (String.eqb x "") eqn:E1; [done|].
  destruct (String.eqb x ".") eqn:E2; [done|]. simpl.
  destruct (String.eqb x "..") eqn:E3.
  - destruct S as [|t r]; [done|]. inversion H; subst.
    by destruct (String.eqb t "..").
  - constructor; [|done]. unfold proper. by rewrite E1, E2, E3.
Qed.

Lemma nstack_false_proper (l S : list string) :
  Forall (fun x => proper x = true) S ->
  Forall (fun x => proper x = true) (Path.nstack false S l).
Proof.
  revert S. induction l as [|x l IH]; intros S H; [done|].
  apply IH. by apply nstep_false_proper.
Qed.

Lemma proper_nontrivial (l : list string) :
  Forall (fun x => proper x = true) l ->
  Forall (fun x => nontrivial x = true) l.
Proof.
  intros Hl. eapply Forall_impl; [exact Hl|].
  intros x H. unfold proper, nontrivial in *.
  by apply andb_prop in H as [H _].
Qed.

Lemma nstep_nontrivial (a : bool) (S : list string) (x : string) :
  Forall (fun x => nontrivial x = true) S ->
  Forall (fun x => nontrivial x = true) (Path.nstep a S x).
Proof.
  intros H. unfold Path.nstep.
  destruct (String.eqb x "") eqn:E1; [done|].
  destruct (String.eqb x ".") eqn:E2; [done|]. simpl.
  destruct (String.eqb x "..") eqn:E3.
  - destruct S as [|t r]; [by destruct a; repeat constructor|].
    inversion H; subst.
    destruct (String.eqb t ".."); [|done].
    destruct a; [|done]. by constructor.
  - constructor; [|done]. unfold nontrivial. by rewrite E1, E2.
Qed.

Lemma nstack_nontrivial (a : bool) (l S : list string) :
  Forall (fun x => nontrivial x = true) S ->
  Forall (fun x => nontrivial x = true) (Path.nstack a S l).
Proof.
  revert S. induction l as [|x l IH]; intros S H; [done|].
  apply IH. by apply nstep_nontrivial.
Qed.

Lemma nstep_no_slash (a : bool) (S : list string) (x : string) :
  no_slash x = true ->
  Forall (fun x => no_slash x = true) S ->
  Forall (fun x => no_slash x = true) (Path.nstep a S x).
Proof.
  intros Hx H. unfold Path.nstep.
  destruct (String.eqb x "" || String.eqb x "."); [done|].
  destruct (String.eqb x "..") eqn:E3.
  - destruct S as [|t r]; [by destruct a; repeat constructor|].
    inversion H; subst.
    destruct (String.eqb t ".."); [|done].
    destruct a; [|done]. by constructor.
  - by constructor.
Qed.

Lemma nstack_no_slash (a : bool) (l S : list string) :
  Forall (fun x => no_slash x = true) l ->
  Forall (fun x => no_slash x = true) S ->
  Forall (fun x => no_slash x = true) (Path.nstack a S l).
Proof.
  revert S. induction l as [|x l IH]; intros S Hl H; [done|].
  inversion Hl; subst. apply IH; [done|]. by apply nstep_no_slash.
Qed.

Lemma nstep_trivial (a : bool) (S : list string) (x : string) :
  nontrivial x = false -> Path.nstep a S x = S.
Proof.
  unfold nontrivial, Path.nstep. intros H.
  destruct (String.eqb x ""); [done|]. by destruct (String.eqb x ".").
Qed.

Lemma nstep_push (a : bool) (S : list string) (x : string) :
  nontrivial x = true -> String.eqb x ".." = false ->
  Path.nstep a S x = x :: S.
Proof.
  intros H E. apply nstep_proper. unfold proper, nontrivial in *.
  by rewrite E, H.
Qed.

Lemma nstep_up_pop (a : bool) (S : list string) (t : string) :
  String.eqb t ".." = false -> Path.nstep a (t :: S) ".." = S.
Proof. intros E. unfold Path.nstep. simpl. by rewrite E. Qed.

(** Resolving a relative path that was normalized first gives what resolving
    the path itself gives. *)
Lemma nstack_renormalize (l S : list string) :
  Path.nstack false S (rev (Path.nstack true [] l)) = Path.nstack false S l.
Proof.
  induction l as [|x l IH] using rev_ind; [done|].
  rewrite !nstack_app. simpl. rewrite <- IH.
  assert (Hnt : Forall (fun x => nontrivial x = true) (Path.nstack true [] l))
    by (by apply nstack_nontrivial).
  destruct (nontrivial x) eqn:Hx; [|by rewrite !nstep_trivial].
  destruct (String.eqb x "..") eqn:E.
  - apply String.eqb_eq in E. subst x.
    destruct (Path.nstack true [] l) as [|t r]; [done|].
    destruct (String.eqb t "..") eqn:Et.
    + assert (Path.nstep true (t :: r) ".." = ".." :: t :: r) as ->
        by (unfold Path.nstep; simpl; by rewrite Et).
      change (rev (".." :: t :: r)) with (rev (t :: r) ++ [".."])%list.
      by rewrite nstack_app.
    + rewrite nstep_up_pop by done.
      change (rev (t :: r)) with (rev r ++ [t])%list.
      rewrite nstack_app. simpl.
      inversion Hnt as [|? ? Ht _]; subst.
      rewrite (nstep_push false _ t) by done.
      by rewrite nstep_up_pop.
  - rewrite (nstep_push true) by done.
    change (rev (x :: Path.nstack true [] l))
      with (rev (Path.nstack true [] l) ++ [x])%list.
    by rewrite nstack_app.
Qed.

Lemma nstack_renormalize_abs (l : list string) :
  Path.nstack false [] (rev (Path.nstack false [] l)) = Path.nstack false [] l.
Proof.
  rewrite nstack_proper.
  - by rewrite rev_involutive, app_nil_r.
  - apply Forall_rev. by apply nstack_false_proper.
Qed.

Lemma nstack_trivial_l (a : bool) (S l : list string) (x : string) :
  nontrivial x = false -> Path.nstack a S (x :: l) = Path.nstack a S l.
Proof.
  intros H. unfold Path.nstack. simpl. f_equal. unfold Path.nstep.
  unfold nontrivial in H.
  destruct (String.eqb x ""); [done|]. destruct (String.eqb x "."); done.
Qed.

Lemma nstack_trivial_r (a : bool) (S l : list string) (x : string) :
  nontrivial x = false -> Path.nstack a S (l ++ [x]) = Path.nstack a S l.
Proof.
  intros H. rewrite nstack_app. simpl. unfold Path.nstep.
  unfold nontrivial in H.
  destruct (String.eqb x ""); [done|]. destruct (String.eqb x "."); done.
Qed.

Lemma nontrivial_nonempty (x : string) :
  nontrivial x = true -> str_nonempty x = true.
Proof. by destruct x. Qed.

Lemma unsegments_head (x : string) (l : list string) :
  exists z, Path.unsegments (x :: l) = x ++ z.
Proof.
  destruct l as [|y l].
  - exists "". simpl. by rewrite append_nil_r.
  - by exists ("/" ++ Path.unsegments (y :: l)).
Qed.

Lemma unsegments_nonempty (R : list string) :
  R ≠ [] -> Forall (fun x => nontrivial x = true) R ->
  String.eqb (Path.unsegments R) "" = false.
Proof.
  destruct R as [|x l]; [done|]. intros _ H. inversion H; subst.
  destruct (unsegments_head x l) as [z ->].
  destruct x; [done|]. done.
Qed.

Lemma unsegments_relative (R : list string) (z : string) :
  R ≠ [] -> Forall (fun x => nontrivial x = true) R ->
  Forall (fun x => no_slash x = true) R ->
  Path.isAbsolute (Path.unsegments R ++ z) = false.
Proof.
  destruct R as [|x l]; [done|]. intros _ H1 H2.
  inversion H1; subst. inversion H2; subst.
  destruct (unsegments_head x l) as [y ->].
  destruct x as [|c x]; [done|]. simpl.
  unfold no_slash in *. simpl in *.
  match goal with H : _ && _ = true |- _ => apply andb_prop in H as [Hc _] end.
  by apply negb_true_iff in Hc.
Qed.

Lemma segments_slash_end (a : string) :
  Path.segments (a ++ "/") = (Path.segments a ++ [""])%list.
Proof. apply (segments_app_slash a ""). Qed.

Lemma filter_nonempty_nontrivial (R : list string) :
  Forall (fun x => nontrivial x = true) R ->
  List.filter str_nonempty R = R.
Proof.
  induction 1 as [|x l Hx _ IH]; [done|]. simpl.
  by rewrite (nontrivial_nonempty _ Hx), IH.
Qed.

Section Normalize.
Variable x : string.
Hypothesis x_nonempty : x ≠ "".

Local Abbreviation R := (Path.normalizeSegments (negb (Path.isAbsolute x)) x).

Lemma normalized_nontrivial : Forall (fun s => nontrivial s = true) R.
Proof. apply Forall_rev. by apply nstack_nontrivial. Qed.

Lemma normalized_no_slash : Forall (fun s => no_slash s = true) R.
Proof.
  apply Forall_rev. apply nstack_no_slash; [|done]. apply segments_elements.
Qed.

Ltac abstract_normalized :=
  pose proof normalized_nontrivial as Hnt;
  pose proof normalized_no_slash as Hns;
  unfold Path.normalize, Path.normalizeString, Path.basename;
  rewrite ?(eqb_false_ne _ _ x_nonempty);
  generalize dependent (Path.normalizeSegments (negb (Path.isAbsolute x)) x);
  intros R0 Hnt Hns.

Lemma normalize_shape :
  Path.segments (Path.normalize x) =
  if decide (R = []) then
    (if Path.isAbsolute x then [""; ""]
     else if Path.trailingSeparator x then ["."; ""] else ["."])
  else
    ((if Path.isAbsolute x then [""] else []) ++ R ++
     (if Path.trailingSeparator x then [""] else []))%list.
Proof.
  abstract_normalized.
  destruct (decide (R0 = [])) as [E|E].
  - rewrite E. simpl.
    destruct (Path.isAbsolute x); [done|].
    by destruct (Path.trailingSeparator x).
  - rewrite (unsegments_nonempty R0 E Hnt).
    pose proof (segments_unsegments R0 E Hns) as HR.
    destruct (Path.isAbsolute x), (Path.trailingSeparator x);
      rewrite ?segments_cons_slash, ?segments_slash_end, HR;
      by rewrite ?app_nil_r.
Qed.

Lemma normalize_isAbsolute :
  Path.isAbsolute (Path.normalize x) = Path.isAbsolute x.
Proof.
  abstract_normalized.
  destruct (String.eqb (Path.unsegments R0) "") eqn:E.
  - destruct (Path.isAbsolute x); [done|].
    by destruct (Path.trailingSeparator x).
  - destruct (Path.isAbsolute x) eqn:Ha; [done|].
    assert (R0 ≠ []) as HR by (intros HR; by rewrite HR in E).
    destruct (Path.trailingSeparator x).
    + by apply unsegments_relative.
    + rewrite <- (append_nil_r (Path.unsegments R0)).
      by apply unsegments_relative.
Qed.

Lemma nstack_normalize (a : bool) (S : list string) :
  Path.nstack a S (Path.segments (Path.normalize x)) = Path.nstack a S R.
Proof.
  rewrite normalize_shape. destruct (decide (R = [])) as [E|E].
  - rewrite E. destruct (Path.isAbsolute x); [done|].
    by destruct (Path.trailingSeparator x).
  - destruct (Path.isAbsolute x), (Path.trailingSeparator x); simpl;
      rewrite ?app_nil_r, ?nstack_trivial_l, ?nstack_trivial_r; done.
Qed.

Lemma basename_normalize :
  R ≠ [] -> Path.basename (Path.normalize x) = default "" (last R).
Proof.
  intros E. unfold Path.basename. rewrite normalize_shape.
  destruct (decide (R = [])); [done|].
  rewrite !List.filter_app, (filter_nonempty_nontrivial R)
    by apply normalized_nontrivial.
  destruct (Path.isAbsolute x), (Path.trailingSeparator x); simpl;
    by rewrite ?app_nil_r.
Qed.
End Normalize.

Section Join.
Variables (p : string) (names : list string).
Hypothesis names_nonempty : names ≠ [].
Hypothesis names_valid : Forall (fun n => valid_name n = true) names.

Local Abbreviation b := (Path.unsegments names).
Local Abbreviation joined :=
  (if String.eqb p "" then b
   else if String.eqb b "" then p else p ++ "/" ++ b).

Lemma names_proper : Forall (fun n => proper n = true) names.
Proof.
  eapply Forall_impl; [exact names_valid|]. apply valid_name_proper.
Qed.

Lemma names_no_slash : Forall (fun n => no_slash n = true) names.
Proof.
  eapply Forall_impl; [exact names_valid|]. apply valid_name_no_slash.
Qed.

Lemma unsegments_names_nonempty : String.eqb b "" = false.
Proof.
  apply unsegments_nonempty; [done|].
  apply proper_nontrivial, names_proper.
Qed.

Lemma joined_nonempty : joined ≠ "".
Proof.
  pose proof unsegments_names_nonempty as Hb.
  destruct (String.eqb p "") eqn:Ep.
  - by apply String.eqb_neq.
  - rewrite Hb. apply String.eqb_neq in Ep. by destruct p.
Qed.

Lemma joined_isAbsolute : Path.isAbsolute joined = Path.isAbsolute p.
Proof.
  rewrite unsegments_names_nonempty.
  destruct (String.eqb p "") eqn:Ep.
  - apply String.eqb_eq in Ep. subst p. simpl.
    rewrite <- (append_nil_r b).
    apply unsegments_relative; [done| |apply names_no_slash].
    apply proper_nontrivial, names_proper.
  - apply String.eqb_neq in Ep. by destruct p.
Qed.

Lemma joined_nstack (a : bool) (S : list string) :
  Path.nstack a S (Path.segments joined) =
  (rev names ++ Path.nstack a S (Path.segments p))%list.
Proof.
  rewrite unsegments_names_nonempty.
  pose proof (segments_unsegments names names_nonempty names_no_slash) as Hs.
  destruct (String.eqb p "") eqn:Ep.
  - apply String.eqb_eq in Ep. subst p. rewrite Hs.
    by rewrite nstack_proper by apply names_proper.
  - rewrite segments_app_slash, Hs, nstack_app.
    apply nstack_proper, names_proper.
Qed.

Lemma join_eq : Path.join p b = Path.normalize joined.
Proof.
  unfold Path.join. by rewrite (eqb_false_ne _ _ joined_nonempty).
Qed.

Lemma join_isAbsolute : Path.isAbsolute (Path.join p b) = Path.isAbsolute p.
Proof.
  rewrite join_eq, (normalize_isAbsolute _ joined_nonempty).
  apply joined_isAbsolute.
Qed.

(** Joining names to a path appends them to the resolved path. *)
Lemma resolveSegments_join (cwd : string) :
  Path.resolveSegments cwd (Path.join p b) =
  (Path.resolveSegments cwd p ++ names)%list.
Proof.
  unfold Path.resolveSegments. rewrite join_isAbsolute, join_eq.
  unfold Path.normalizeSegments at 1 2.
  destruct (Path.isAbsolute p) eqn:Ha.
  - rewrite (nstack_normalize _ joined_nonempty).
    rewrite joined_isAbsolute, Ha. simpl. unfold Path.normalizeSegments.
    rewrite nstack_renormalize_abs, joined_nstack.
    by rewrite rev_app_distr, rev_involutive.
  - rewrite !segments_app_slash, !nstack_app.
    rewrite (nstack_normalize _ joined_nonempty).
    rewrite joined_isAbsolute, Ha. simpl. unfold Path.normalizeSegments.
    rewrite nstack_renormalize, joined_nstack.
    by rewrite rev_app_distr, rev_involutive.
Qed.

(** The last component of a joined path is the last name joined. *)
Lemma basename_join :
  Path.basename (Path.join p b) = default "" (last names).
Proof.
  rewrite join_eq.
  assert (Path.normalizeSegments (negb (Path.isAbsolute joined)) joined =
          (rev (Path.nstack (negb (Path.isAbsolute joined)) []
                  (Path.segments p)) ++ names)%list) as HR.
  { unfold Path.normalizeSegments. rewrite joined_nstack.
    by rewrite rev_app_distr, rev_involutive. }
  rewrite (basename_normalize _ joined_nonempty); rewrite HR.
  - rewrite last_app. destruct (last names) eqn:E; [done|].
    by apply last_None in E.
  - intros E. by apply app_eq_nil in E as [_ ?].
Qed.
End Join.

Lemma strip_common_prefix (f t : list string) :
  Path.strip_common f (f ++ t) = ([], t).
Proof.
  induction f as [|a f IH]; simpl; [by destruct t|].
  by rewrite String.eqb_refl.
Qed.

(** A path below [base] is, relative to [base], the names that lead to it. *)
Lemma relative_below (cwd base full : string) (names : list string) :
  names ≠ [] ->
  Path.resolveSegments cwd full = (Path.resolveSegments cwd base ++ names)%list ->
  Path.relative cwd base full = Path.unsegments names.
Proof.
  intros Hn H. unfold Path.relative.
  destruct (String.eqb base full) eqn:E.
  - apply String.eqb_eq in E. subst full.
    rewrite <- (app_nil_r (Path.resolveSegments cwd base)) in H at 1.
    apply app_inv_head in H. by subst.
  - by rewrite H, strip_common_prefix.
Qed.

(** ** Facts about extensions *)

Lemma ext_tail_dot (a t : string) : ext_tail (a ++ String "." t) = false.
Proof.
  unfold ext_tail. apply andb_false_intro2.
  induction a as [|c a IH]; simpl; [done|]. rewrite IH. apply andb_false_r.
Qed.

(** The replacement acts on the last dot of the string when something
    follows it. *)
Lemma replace_ext_last_dot (a t ext : string) :
  ext_tail t = true -> replace_ext (a ++ String "." t) ext = a ++ ext.
Proof.
  intros Ht. induction a as [|c a IH]; simpl.
  - by rewrite Ht.
  - by rewrite ext_tail_dot, andb_false_r, IH.
Qed.

Lemma last_dot_suffix_none (b : string) :
  Path.last_dot_suffix b = None -> no_dot b = true.
Proof.
  unfold no_dot. induction b as [|c b IH]; simpl; [done|].
  destruct (Path.last_dot_suffix b); [done|].
  unfold is_dot. destruct (Ascii.eqb c "."); [done|]. intros _. by apply IH.
Qed.

Lemma last_dot_suffix_some (b e : string) :
  Path.last_dot_suffix b = Some e ->
  exists stem t, b = stem ++ String "." t /\ e = String "." t /\ no_dot t = true.
Proof.
  revert e. induction b as [|c b IH]; simpl; [done|]. intros e.
  destruct (Path.last_dot_suffix b) as [e'|] eqn:E.
  - intros [= <-]. destruct (IH e' eq_refl) as (stem & t & -> & -> & Ht).
    by exists (String c stem), t.
  - destruct (is_dot c) eqn:Hc; [|done]. intros [= <-].
    apply Ascii.eqb_eq in Hc. subst c.
    exists "", b. repeat split. by apply last_dot_suffix_none.
Qed.

Lemma basename_valid (n : string) : valid_name n = true -> Path.basename n = n.
Proof.
  intros H. unfold Path.basename.
  rewrite (segments_no_slash _ (valid_name_no_slash _ H)). simpl.
  by rewrite (valid_name_nonempty _ H).
Qed.

Lemma includes_In (l : list string) (x : string) :
  includes l x = true <-> In x l.
Proof.
  induction l as [|y l IH]; simpl; [done|].
  rewrite orb_true_iff, IH, String.eqb_eq. done.
Qed.

(** A name with a recognised extension is a stem followed by a dot and a
    non-empty, dot-free rest. *)
Lemma recognised_name_split (n : string) (t : MediaType) :
  valid_name n = true -> classify n = Some t ->
  exists stem tail, n = stem ++ String "." tail /\ ext_tail tail = true /\
    Path.extname n = String "." tail.
Proof.
  intros Hn Hc. unfold classify, lowercased_extension in Hc.
  assert (includes (IMAGE_EXTS ++ VIDEO_EXTS) (toLowerCase (Path.extname n))
          = true) as Hin.
  { apply includes_In, in_or_app.
    destruct (includes IMAGE_EXTS _) eqn:E1; [left; by apply includes_In|].
    destruct (includes VIDEO_EXTS _) eqn:E2; [right; by apply includes_In|].
    done. }
  clear Hc. unfold Path.extname in *. rewrite (basename_valid _ Hn) in *.
  destruct (Path.last_dot_suffix n) as [e|] eqn:E; [|done].
  destruct (last_dot_suffix_some _ _ E) as (stem & tail & Hn' & -> & Ht).
  destruct (Nat.eqb _ _); [done|]. destruct (String.eqb n ".."); [done|].
  exists stem, tail. repeat split; [done|].
  unfold ext_tail. fold (no_dot tail). rewrite Ht, andb_true_r.
  destruct tail; [|done]. by vm_compute in Hin.
Qed.

Lemma recognised_output_name (n : string) (t : MediaType) (ext : string) :
  valid_name n = true -> classify n = Some t ->
  (3 <= String.length ext)%nat -> no_slash ext = true ->
  exists stem, n = stem ++ Path.extname n /\
    replace_ext n ext = stem ++ ext /\ valid_name (stem ++ ext) = true.
Proof.
  intros Hn Hc Hlen Hext.
  destruct (recognised_name_split n t Hn Hc) as (stem & tail & E & Ht & Hx).
  exists stem. rewrite Hx. split; [done|]. split.
  - rewrite E. by apply replace_ext_last_dot.
  - pose proof (valid_name_no_slash _ Hn) as Hs.
    rewrite E, no_slash_app in Hs. apply andb_prop in Hs as [Hs _].
    unfold valid_name. rewrite no_slash_app, Hs, Hext.
    assert (str_nonempty (stem ++ ext) = true) as Hne.
    { apply str_nonempty_app_r. destruct ext; [simpl in Hlen; lia|done]. }
    rewrite Hne.
    simpl. apply andb_true_intro. split; apply negb_true_iff, String.eqb_neq;
      intros Heq; apply (f_equal String.length) in Heq;
      rewrite str_length_app in Heq; simpl in Heq; lia.
Qed.

(** ** The directory walk *)

Lemma flat_map_omap {A B C} (f : A -> list C) (g : B -> option C)
  (h : A -> list B) (l : list A) :
  Forall (fun x => f x = omap g (h x)) l ->
  flat_map f l = omap g (flat_map h l).
Proof.
  induction 1 as [|x l Hx _ IH]; [done|]. simpl.
  by rewrite omap_app, Hx, IH.
Qed.

Lemma join_all_snoc (dir : string) (dirs : list string) (n : string) :
  join_all dir (dirs ++ [n]) = Path.join (join_all dir dirs) n.
Proof. unfold join_all. by rewrite fold_left_app. Qed.

Lemma Monolith_findMedia_entry_walk (env : Env) (dir base : string)
  (e : Dirent) (dirs : list string) :
  Monolith.findMedia_entry env (join_all dir dirs) base e =
  omap (classified_file env dir base) (files_entry dirs e).
Proof.
  revert dirs. induction e as [n sz|n sub IH] using Dirent_nested_ind;
    intros dirs.
  - cbn [Monolith.findMedia_entry Refactored.findMedia_entry dirent_name
         files_entry omap list_omap classified_file].
    rewrite join_all_snoc. unfold classify, lowercased_extension.
    destruct (includes IMAGE_EXTS _); [done|].
    by destruct (includes VIDEO_EXTS _).
  - simpl. rewrite <- join_all_snoc. apply flat_map_omap.
    eapply Forall_impl; [exact IH|]. intros x Hx. apply Hx.
Qed.

Lemma Refactored_findMedia_entry_walk (env : Env) (dir base : string)
  (e : Dirent) (dirs : list string) :
  Refactored.findMedia_entry env (join_all dir dirs) base e =
  omap (classified_file env dir base) (files_entry dirs e).
Proof.
  revert dirs. induction e as [n sz|n sub IH] using Dirent_nested_ind;
    intros dirs.
  - cbn [Monolith.findMedia_entry Refactored.findMedia_entry dirent_name
         files_entry omap list_omap classified_file].
    rewrite join_all_snoc. unfold classify, lowercased_extension.
    destruct (includes IMAGE_EXTS _); [done|].
    by destruct (includes VIDEO_EXTS _).
  - simpl. rewrite <- join_all_snoc. apply flat_map_omap.
    eapply Forall_impl; [exact IH|]. intros x Hx. apply Hx.
Qed.

Lemma Monolith_findMedia_walk (env : Env) (dir base : string)
  (tree : list Dirent) :
  Monolith.findMedia env dir base tree =
  omap (classified_file env dir base) (files_of tree).
Proof.
  unfold Monolith.findMedia, files_of. apply flat_map_omap.
  apply Forall_forall. intros e _.
  apply (Monolith_findMedia_entry_walk env dir base e []).
Qed.

Lemma Refactored_findMedia_walk (env : Env) (dir base : string)
  (tree : list Dirent) :
  Refactored.findMedia env dir base tree =
  omap (classified_file env dir base) (files_of tree).
Proof.
  unfold Refactored.findMedia, files_of. apply flat_map_omap.
  apply Forall_forall. intros e _.
  apply (Refactored_findMedia_entry_walk env dir base e []).
Qed.

Lemma findMedia_agree (env : Env) (dir base : string) (tree : list Dirent) :
  Monolith.findMedia env dir base tree = Refactored.findMedia env dir base tree.
Proof. by rewrite Monolith_findMedia_walk, Refactored_findMedia_walk. Qed.

Lemma image_video_disjoint (x : string) :
  In x IMAGE_EXTS -> In x VIDEO_EXTS -> False.
Proof.
  intros H1 H2. apply includes_In in H2. unfold IMAGE_EXTS in H1.
  simpl in H1.
  repeat (destruct H1 as [<-|H1]; [by vm_compute in H2|]). done.
Qed.

Lemma classify_image (n : string) :
  classify n = Some image <-> classified_image n.
Proof.
  unfold classify, classified_image. rewrite <- includes_In.
  destruct (includes IMAGE_EXTS _); [done|].
  by destruct (includes VIDEO_EXTS _).
Qed.

Lemma classify_video (n : string) :
  classify n = Some video <-> classified_video n.
Proof.
  unfold classify, classified_video.
  destruct (includes IMAGE_EXTS _) eqn:E1.
  - split; [done|]. intros H2. apply includes_In in E1.
    destruct (image_video_disjoint _ E1 H2).
  - rewrite <- includes_In. by destruct (includes VIDEO_EXTS _).
Qed.

Lemma classify_none (n : string) :
  classify n = None <-> ~ classified_image n /\ ~ classified_video n.
Proof.
  unfold classify, classified_image, classified_video.
  rewrite <- !includes_In.
  destruct (includes IMAGE_EXTS _), (includes VIDEO_EXTS _); split;
    try done; intros [H1 H2]; try done; by destruct H1.
Qed.

(** In a well-formed tree every name on the way to a file is valid. *)
Lemma files_entry_valid (e : Dirent) (dirs : list string) :
  wf_entry e = true -> Forall (fun n => valid_name n = true) dirs ->
  Forall (fun x => Forall (fun n => valid_name n = true) (x.1.1 ++ [x.1.2]))
    (files_entry dirs e).
Proof.
  revert dirs. induction e as [n sz|n sub IH] using Dirent_nested_ind;
    intros dirs Hwf Hd; simpl in *.
  - constructor; [|done]. simpl. apply Forall_app. split; [done|].
    by constructor.
  - apply andb_prop in Hwf as [Hn Hsub].
    assert (Forall (fun n => valid_name n = true) (dirs ++ [n])) as Hd'.
    { apply Forall_app. split; [done|]. by constructor. }
    clear Hd Hn. induction sub as [|x sub IHs]; simpl; [done|].
    simpl in Hsub. apply andb_prop in Hsub as [Hx Hsub].
    inversion IH; subst. apply Forall_app. split; [by auto|by apply IHs].
Qed.

Lemma files_of_valid (tree : list Dirent) :
  wf_tree tree = true ->
  Forall (fun x => Forall (fun n => valid_name n = true) (x.1.1 ++ [x.1.2]))
    (files_of tree).
Proof.
  unfold wf_tree, files_of. induction tree as [|e tree IH]; simpl; [done|].
  intros [He Ht]%andb_prop. apply Forall_app. split; [|by apply IH].
  by apply files_entry_valid.
Qed.

Lemma resolveSegments_join_all (cwd p : string) (names : list string) :
  Forall (fun n => valid_name n = true) names ->
  Path.resolveSegments cwd (join_all p names) =
  (Path.resolveSegments cwd p ++ names)%list.
Proof.
  revert p. induction names as [|n names IH]; intros p H.
  - by rewrite app_nil_r.
  - inversion H; subst. unfold join_all in *. simpl. rewrite IH by done.
    pose proof (resolveSegments_join p [n]) as Hj. simpl in Hj.
    rewrite Hj; [by rewrite <- app_assoc|done|by constructor].
Qed.

(** ** The media files of a well-formed tree and their output paths *)

Lemma output_ext_facts (t : MediaType) :
  (3 <= String.length (Refactored.output_ext t))%nat /\
  no_slash (Refactored.output_ext t) = true.
Proof. destruct t; simpl; split; (lia || done). Qed.

(** What [findMedia] returns for the input folder of a well-formed tree. *)
Lemma found_file (env : Env) (base : string) (tree : list Dirent)
  (f : MediaFile) :
  wf_tree tree = true ->
  In f (Refactored.findMedia env base base tree) ->
  exists dirs n sz,
    In (dirs, n, sz) (files_of tree) /\
    Forall (fun x => valid_name x = true) (dirs ++ [n]) /\
    classify n = Some (type f) /\
    name f = n /\ size f = Z.of_N sz /\
    path f = join_all base (dirs ++ [n]) /\
    relativePath f = Path.unsegments (dirs ++ [n]).
Proof.
  intros Hwf Hin. rewrite Refactored_findMedia_walk in Hin.
  apply list_elem_of_In, list_elem_of_omap in Hin as ([[dirs n] sz] & Hx & Hf).
  pose proof (files_of_valid tree Hwf) as Hv.
  rewrite List.Forall_forall in Hv. apply list_elem_of_In in Hx.
  specialize (Hv _ Hx). simpl in Hv.
  exists dirs, n, sz. unfold classified_file in Hf.
  destruct (classify n) as [t|] eqn:Hc; [|done]. injection Hf as <-. simpl.
  repeat split; try done.
  apply relative_below; [by destruct dirs|].
  by apply resolveSegments_join_all.
Qed.

Section OutputPath.
Variables (dirs : list string) (n : string) (t : MediaType).
Hypothesis names_valid : Forall (fun x => valid_name x = true) (dirs ++ [n]).
Hypothesis recognised : classify n = Some t.

Lemma output_relative :
  exists stem,
    n = stem ++ Path.extname n /\
    valid_name (stem ++ Refactored.output_ext t) = true /\
    replace_ext (Path.unsegments (dirs ++ [n])) (Refactored.output_ext t) =
    Path.unsegments (dirs ++ [stem ++ Refactored.output_ext t]).
Proof.
  apply Forall_app in names_valid as [Hd Hn]. inversion Hn; subst.
  destruct (recognised_name_split n t) as (stem & tail & E & Ht & Hx);
    [done..|].
  destruct (output_ext_facts t) as [Hlen Hns].
  destruct (recognised_output_name n t _ ltac:(done) recognised Hlen Hns)
    as (stem' & E' & _ & Hv).
  rewrite Hx in E'. rewrite E in E' at 1.
  assert (stem' = stem) as ->.
  { clear -E'. revert stem' E'. induction stem as [|c s IH]; intros s' E.
    - destruct s' as [|c' s']; [done|]. exfalso.
      apply (f_equal String.length) in E. simpl in E.
      rewrite str_length_app in E. simpl in E. lia.
    - destruct s' as [|c' s'].
      + exfalso. apply (f_equal String.length) in E. simpl in E.
        rewrite str_length_app in E. simpl in E. lia.
      + simpl in E. injection E as -> E. f_equal. by apply IH. }
  exists stem. rewrite Hx. repeat split; [done..|].
  rewrite E at 1. rewrite unsegments_snoc_app.
  rewrite replace_ext_last_dot by done.
  by rewrite <- unsegments_snoc_app.
Qed.
End OutputPath.

(** ** Running the loops *)

Lemma ffmpeg_args_last (i o : string) (mw : option Z) :
  List.last (ffmpeg_args i o mw) "" = o.
Proof. unfold ffmpeg_args. apply last_last. Qed.

Lemma ffmpeg_args_input (i o : string) (mw : option Z) :
  nth_error (ffmpeg_args i o mw) 2 = Some i.
Proof. unfold ffmpeg_args. by destruct (positive_width mw). Qed.

Lemma summary_of_app (a b : list Event) :
  summary_of (a ++ b) =
  match summary_of a with Some x => Some x | None => summary_of b end.
Proof.
  induction a as [|e a IH]; [done|]. simpl.
  destruct e; try done. by destruct m.
Qed.

Ltac run_monad :=
  cbv beta iota zeta delta
    [Refactored.step Refactored.processFile Refactored.compressImage
     Refactored.compressVideo Refactored.getMaxWidthInteractive
     Refactored.createLogger Refactored.progress Refactored.success
     Refactored.info Refactored.error Refactored.done
     Refactored.get_spinnerStarted Refactored.set_spinnerStarted
     Refactored.getModeInteractive
     Monolith.fast_step Monolith.custom_step Monolith.compressVideo
     Legacy.fast_step Legacy.custom_step
     askMaxWidth askMode toFile run_ffmpeg metadata getVideoDimensions
     bind ret emit print mkdir write_file stat_size throw process_exit
     Refactored.output_ext trace files spinnerStarted fst snd].

Ltac split_oracles :=
  repeat match goal with
    | |- context [selectMaxWidth ?e ?i] => destruct (selectMaxWidth e i)
    | |- context [sharp_toFile ?e ?p ?o] =>
        destruct (sharp_toFile e p o) eqn:?
    | |- context [ffmpeg ?e ?a] => destruct (ffmpeg e a) eqn:?
    | |- context [sharp_metadata ?e ?a] => destruct (sharp_metadata e a) eqn:?
    end.

Ltac close_run :=
  cbv beta iota zeta delta [negb trace files spinnerStarted fst snd];
  rewrite ?ffmpeg_args_last, ?lookup_insert_eq;
  eexists; (split; [rewrite <- ?app_assoc; reflexivity|]);
  simpl; rewrite ?ffmpeg_args_last; done.

Lemma Refactored_step_run (env : Env) (cli : bool) (mode : Mode)
  (outputDir : string) (n i : nat) (f : MediaFile) (totals : Z * Z)
  (s : State) :
  step_runs_as env mode outputDir f totals
    (Refactored.step env (Refactored.createLogger cli) mode outputDir n i f
       totals s) s.
Proof.
  destruct totals as [o c], s as [tr fs sp].
  unfold step_runs_as, chosen_width, encoded, encode_call, output_path.
  destruct mode, cli, sp, (type f) eqn:Ht; run_monad; rewrite ?Ht;
    split_oracles.
  all: close_run.
Qed.

Lemma Monolith_fast_step_run (env : Env) (outputDir : string) (n i : nat)
  (f : MediaFile) (totals : Z * Z) (s : State) :
  step_runs_as env fast outputDir f totals
    (Monolith.fast_step env outputDir n i f totals s) s.
Proof.
  destruct totals as [o c], s as [tr fs sp].
  unfold step_runs_as, chosen_width, encoded, encode_call, output_path.
  destruct (type f) eqn:Ht; run_monad; rewrite ?Ht; simpl positive_width;
    cbv iota; split_oracles.
  all: close_run.
Qed.

Lemma positive_width_option (choice : WidthOption) :
  positive_width (Some (option_value choice)) = (0 <? option_value choice).
Proof. by destruct choice. Qed.

Lemma Monolith_custom_step_run (env : Env) (outputDir : string) (i : nat)
  (f : MediaFile) (totals : Z * Z) (s : State) :
  step_runs_as env custom outputDir f totals
    (Monolith.custom_step env outputDir i f totals s) s.
Proof.
  destruct totals as [o c], s as [tr fs sp].
  unfold step_runs_as, chosen_width, encoded, encode_call, output_path.
  destruct (type f) eqn:Ht; run_monad; rewrite ?Ht;
    destruct (selectMaxWidth env (file_info f)) as [|choice];
    rewrite ?positive_width_option;
    cbv beta iota zeta delta [default id]; split_oracles.
  all: close_run.
Qed.

Lemma for_each_cons {A V} (body : nat -> A -> V -> M V) (i : nat) (x : A)
  (l : list A) (acc : V) (s : State) :
  for_each body i (x :: l) acc s =
  match body i x acc s with
  | (Ok acc', s') => for_each body (S i) l acc' s'
  | (Thrown e, s') => (Thrown e, s')
  | (Exited c, s') => (Exited c, s')
  end.
Proof. done. Qed.

Lemma loop_run (env : Env) (mode : Mode) (outputDir : string)
  (body : nat -> MediaFile -> Z * Z -> M (Z * Z)) :
  (forall i f totals s,
     step_runs_as env mode outputDir f totals (body i f totals s) s) ->
  forall l i totals s,
    runs_as (for_each body i l totals s) s
      (process env mode outputDir l totals (files s)).
Proof.
  intros Hbody. induction l as [|f l IH]; intros i totals s.
  - exists []. simpl. by rewrite app_nil_r.
  - rewrite for_each_cons.
    destruct (Hbody i f totals s) as (evs & Htr & Hsum & H).
    simpl process.
    destruct (chosen_width env mode (file_info f)) as [|mw].
    + destruct H as (Ho & Ht & Hf). exists evs.
      destruct (body i f totals s) as [[a|e|c] s']; simpl in *; try done.
    + destruct H as (Ht & H).
      destruct (encoded env outputDir f mw) as [e|sz].
      * destruct H as (Ho & Hf). exists evs.
        destruct (body i f totals s) as [[a|e'|c] s']; simpl in *; try done.
      * destruct H as (Ho & Hf).
        destruct (body i f totals s) as [[a|e'|c] s']; simpl in *; try done.
        injection Ho as ->.
        destruct (IH (S i) (js_add totals.1 (size f),
                         js_add totals.2 (Z.of_N sz)) s')
          as (evs' & Ho' & Htr' & Ht' & Hsum' & Hf').
        rewrite Hf in *.
        destruct (process env mode outputDir l _ _) as [[o calls] fs'].
        exists (evs ++ evs')%list. simpl in *.
        rewrite Htr', Htr, List.filter_app, Ht, Ht', <- app_assoc.
        by rewrite summary_of_app, Hsum, Hsum'.
Qed.

Lemma Refactored_loop_run (env : Env) (cli : bool) (mode : Mode)
  (outputDir : string) (n : nat) (l : list MediaFile) (i : nat)
  (totals : Z * Z) (s : State) :
  runs_as
    (for_each (Refactored.step env (Refactored.createLogger cli) mode
                 outputDir n) i l totals s) s
    (process env mode outputDir l totals (files s)).
Proof. apply loop_run. intros. apply Refactored_step_run. Qed.

Lemma Monolith_fast_loop_run (env : Env) (outputDir : string) (n : nat)
  (l : list MediaFile) (i : nat) (totals : Z * Z) (s : State) :
  runs_as (for_each (Monolith.fast_step env outputDir n) i l totals s) s
    (process env fast outputDir l totals (files s)).
Proof. apply loop_run. intros. apply Monolith_fast_step_run. Qed.

Lemma Monolith_custom_loop_run (env : Env) (outputDir : string)
  (l : list MediaFile) (i : nat) (totals : Z * Z) (s : State) :
  runs_as (for_each (Monolith.custom_step env outputDir) i l totals s) s
    (process env custom outputDir l totals (files s)).
Proof. apply loop_run. intros. apply Monolith_custom_step_run. Qed.

Lemma map_each_cons {A B} (body : A -> M B) (x : A) (l : list A) (s : State) :
  map_each body (x :: l) s =
  match body x s with
  | (Ok y, s') =>
      match map_each body l s' with
      | (Ok ys, s'') => (Ok (y :: ys), s'')
      | (Thrown e, s'') => (Thrown e, s'')
      | (Exited c, s'') => (Exited c, s'')
      end
  | (Thrown e, s') => (Thrown e, s')
  | (Exited c, s') => (Exited c, s')
  end.
Proof.
  simpl. unfold bind. by destruct (body x s) as [[y|e|c] s'].
Qed.

Lemma dimension_call_tool (f : MediaFile) :
  is_tool (dimension_call f) = true /\ summary_of [dimension_call f] = None.
Proof. unfold dimension_call. by destruct (type f). Qed.

Lemma load_run (env : Env) (body : MediaFile -> M MediaFile)
  (l : list MediaFile) :
  Forall (fun f => forall s,
    let r := body f s in
    trace r.2 = (trace s ++ [dimension_call f])%list /\
    files r.2 = files s /\ spinnerStarted r.2 = spinnerStarted s /\
    r.1 = match load_dimensions env f with
          | inl e => Thrown e
          | inr f' => Ok f'
          end) l ->
  forall s, loads_as env l (map_each body l s) s.
Proof.
  induction 1 as [|f l Hf _ IH]; intros s.
  - exists []. simpl. by rewrite app_nil_r.
  - rewrite map_each_cons. destruct (Hf s) as (Htr & Hfs & Hsp & Ho).
    destruct (dimension_call_tool f) as [Htool Hsum].
    unfold loads_as. cbn [load_all].
    destruct (load_dimensions env f) as [e0|f0] eqn:E.
    + exists [dimension_call f].
      destruct (body f s) as [[f'|e|c] s']; simpl in *; try done.
      rewrite Htool. by injection Ho as ->.
    + destruct (body f s) as [[f'|e|c] s']; simpl in Htr, Hfs, Hsp, Ho;
        try done.
      injection Ho as ->.
      destruct (IH s') as (evs & Htr' & Hs' & Ht' & Hf' & Hsp' & Ho').
      destruct (load_all env l) as [res calls].
      simpl in Htr', Ht', Hf', Hsp', Ho'.
      exists (dimension_call f :: evs).
      cbn [List.filter]. rewrite Htool, Ht'.
      assert (summary_of (dimension_call f :: evs) = None) as ->.
      { change (dimension_call f :: evs) with ([dimension_call f] ++ evs)%list.
        by rewrite summary_of_app, Hsum. }
      destruct (map_each body l s') as [[ys|e|c] s''];
        simpl in Htr', Hf', Hsp', Ho' |- *;
        destruct res; try done;
        rewrite Htr', Htr, <- app_assoc, Hf', Hsp'; repeat split; try done;
        congruence.
Qed.

(** ** The runs of [main] *)

Lemma bind_run {A B} (m : M A) (k : A -> M B) (s : State) :
  bind m k s =
  match m s with
  | (Ok a, s') => k a s'
  | (Thrown e, s') => (Thrown e, s')
  | (Exited c, s') => (Exited c, s')
  end.
Proof. done. Qed.

Lemma emit_run (e : Event) (s : State) : emit e s = (Ok tt, add_events [e] s).
Proof. done. Qed.

Lemma print_run (sink : Sink) (m : Msg) (s : State) :
  print sink m s = (Ok tt, add_events [EPrint sink "" m] s).
Proof. done. Qed.

Lemma mkdir_run (dir : string) (s : State) :
  mkdir dir s = (Ok tt, add_events [EMkdir dir] s).
Proof. done. Qed.

Lemma askMode_run (env : Env) (s : State) :
  askMode env s = (Ok (selectMode env), add_events [EAsk "Mode"] s).
Proof. done. Qed.

Lemma add_events_add (a b : list Event) (s : State) :
  add_events b (add_events a s) = add_events (a ++ b) s.
Proof. unfold add_events. simpl. by rewrite app_assoc. Qed.

Lemma log_info_run (cli : bool) (m : Msg) (s : State) :
  Refactored.info (Refactored.createLogger cli) m s =
  (Ok tt, add_events [EPrint (log_sink cli ClackInfo ConsoleLog) "" m] s).
Proof. by destruct cli. Qed.

Lemma log_success_run (cli : bool) (m : Msg) (s : State) :
  Refactored.success (Refactored.createLogger cli) m s =
  (Ok tt, add_events [EPrint (log_sink cli ClackSuccess ConsoleLog) "" m] s).
Proof. by destruct cli. Qed.

Lemma log_error_run (cli : bool) (m : Msg) (s : State) :
  Refactored.error (Refactored.createLogger cli) m s =
  (Ok tt, add_events [EPrint (log_sink cli ClackError ConsoleError)
                        (if cli then "Error: " else "") m] s).
Proof. by destruct cli. Qed.

Lemma log_done_run (cli : bool) (s : State) :
  Refactored.done (Refactored.createLogger cli) s =
  (Ok tt,
   add_events
     (if cli then [EPrint ConsoleLog "" (Text "")]
      else if spinnerStarted s then [EPrint SpinnerStop "" (Text "Done!")]
      else []) s).
Proof.
  destruct cli; [done|]. destruct s as [tr fs []]; [done|].
  unfold add_events. simpl. unfold Refactored.get_spinnerStarted, bind, ret.
  simpl. by rewrite app_nil_r.
Qed.

Lemma getModeInteractive_run (env : Env) (s : State) :
  Refactored.getModeInteractive env s =
  match selectMode env with
  | Cancelled =>
      (Exited 0,
       add_events [EAsk "Mode"; EPrint ClackCancel "" (Text "Cancelled")] s)
  | Selected mode => (Ok mode, add_events [EAsk "Mode"] s)
  end.
Proof.
  unfold Refactored.getModeInteractive. rewrite bind_run, askMode_run.
  destruct (selectMode env); [|done].
  by rewrite bind_run, print_run, add_events_add.
Qed.

Lemma metadata_run (env : Env) (p : string) (s : State) :
  metadata env p s =
  (match sharp_metadata env p with inl e => Thrown e | inr d => Ok d end,
   add_events [ESharpMetadata p] s).
Proof.
  unfold metadata. rewrite bind_run, emit_run.
  by destruct (sharp_metadata env p).
Qed.

Lemma getVideoDimensions_run (env : Env) (p : string) (s : State) :
  getVideoDimensions env p s =
  (Ok (default (0, 0) (ffprobe env p)), add_events [EFfprobe p] s).
Proof. done. Qed.

Lemma loadDimensions_run (env : Env) (l : list MediaFile) (s : State) :
  loads_as env l (Refactored.loadDimensions env l s) s.
Proof.
  apply load_run. apply Forall_forall. intros f _ s0.
  unfold load_dimensions, dimension_call. destruct (type f).
  - rewrite bind_run, metadata_run.
    by destruct (sharp_metadata env (path f)).
  - by rewrite bind_run, getVideoDimensions_run.
Qed.

Lemma Monolith_load_images (env : Env) (l : list MediaFile) (s : State) :
  Forall (fun f => type f = image) l ->
  loads_as env l
    (map_each (fun img =>
       let* md := metadata env (path img) in
       ret (with_dimensions img md.1 md.2)) l s) s.
Proof.
  intros Hl. apply load_run. eapply Forall_impl; [exact Hl|].
  intros f Hf s0. unfold load_dimensions, dimension_call. rewrite Hf.
  rewrite bind_run, metadata_run. by destruct (sharp_metadata env (path f)).
Qed.

Lemma Monolith_load_videos (env : Env) (l : list MediaFile) (s : State) :
  Forall (fun f => type f = video) l ->
  loads_as env l
    (map_each (fun vid =>
       let* dims := getVideoDimensions env (path vid) in
       ret (with_dimensions vid (Some dims.1) (Some dims.2))) l s) s.
Proof.
  intros Hl. apply load_run. eapply Forall_impl; [exact Hl|].
  intros f Hf s0. unfold load_dimensions, dimension_call. rewrite Hf.
  by rewrite bind_run, getVideoDimensions_run.
Qed.

Lemma ret_run {A} (a : A) (s : State) : ret a s = (Ok a, s).
Proof. done. Qed.

Lemma process_exit_run {A} (c : Z) (s : State) :
  @process_exit A c s = (Exited c, s).
Proof. done. Qed.

Ltac mprim :=
  first [ rewrite print_run | rewrite log_info_run | rewrite log_success_run
        | rewrite log_error_run | rewrite log_done_run | rewrite mkdir_run
        | rewrite askMode_run | rewrite getModeInteractive_run
        | rewrite ret_run | rewrite process_exit_run ].

Ltac mstep :=
  first [ rewrite bind_run; first [ mprim | rewrite bind_run; mprim ]
        | mprim ];
  cbv beta iota zeta.

Lemma tools_add_events (evs : list Event) (s : State) :
  tools (add_events evs s) = (tools s ++ List.filter is_tool evs)%list.
Proof. apply List.filter_app. Qed.

Lemma observe_eq (r : Outcome unit * State) (o : Outcome unit)
  (c : list Event) (w : gmap string N) (sm : option (Z * Z * Percent)) :
  r.1 = o -> tools r.2 = c -> files r.2 = w -> summary_of (trace r.2) = sm ->
  observe r = {| outcome := o; calls := c; written := w; summary := sm |}.
Proof. intros <- <- <- <-. done. Qed.

Lemma Refactored_main_tail (env : Env) (cli : bool) (mode : Mode)
  (dir : string) (media : list MediaFile) (s : State) :
  summary_of (trace s) = None ->
  observe
    ((mkdir dir ;;;
      let* totals :=
        for_each (Refactored.step env (Refactored.createLogger cli) mode dir
                    (List.length media)) 0%nat media (0, 0) in
      let '(totalOriginal, totalCompressed) := totals in
      Refactored.done (Refactored.createLogger cli) ;;;
      Refactored.success (Refactored.createLogger cli)
        (Summary totalOriginal totalCompressed
           (OneMinusRatio totalCompressed totalOriginal)) ;;;
      Refactored.info (Refactored.createLogger cli) (Output dir) ;;;
      if negb cli then print ClackOutro (Text "Done!") else ret tt) s) =
  finish (fun o c => OneMinusRatio c o) (tools s)
    (process env mode dir media (0, 0) (files s)).
Proof.
  intros Hs. mstep. rewrite bind_run.
  destruct (Refactored_loop_run env cli mode dir (List.length media) media
              0%nat (0, 0) (add_events [EMkdir dir] s))
    as (evs & Ho & Htr & Ht & Hsum & Hf).
  change (files (add_events [EMkdir dir] s)) with (files s) in *.
  destruct (process env mode dir media (0, 0) (files s)) as [[po pcalls] fs'].
  destruct (for_each _ _ _ _ _) as [[[o c]|e|code] s5];
    simpl in Ho, Htr, Ht, Hf; subst po pcalls fs'; unfold finish; simpl.
  - repeat mstep.
    assert (exists evs',
      (if negb cli then print ClackOutro (Text "Done!") else ret tt)
        (add_events
           [EPrint (log_sink cli ClackInfo ConsoleLog) "" (Output dir)]
           (add_events
              [EPrint (log_sink cli ClackSuccess ConsoleLog) ""
                 (Summary o c (OneMinusRatio c o))]
              (add_events
                 (if cli then [EPrint ConsoleLog "" (Text "")]
                  else if spinnerStarted s5
                       then [EPrint SpinnerStop "" (Text "Done!")] else [])
                 s5))) =
      (Ok tt, add_events evs' s5) /\ List.filter is_tool evs' = [] /\
      summary_of evs' = Some (o, c, OneMinusRatio c o)) as (evs' & -> & Ht' & Hs').
    { destruct cli; [|destruct (spinnerStarted s5)]; simpl;
        rewrite ?print_run, !add_events_add; eexists; split; try done. }
    apply observe_eq; simpl; [done| | |].
    + unfold tools. simpl. rewrite Htr, !List.filter_app, Ht'. simpl.
      by rewrite !app_nil_r.
    + done.
    + rewrite Htr, !summary_of_app, Hs, Hsum. simpl. done.
  - apply observe_eq; simpl; [done| | |].
    + unfold tools. rewrite Htr, !List.filter_app. simpl.
      by rewrite !app_nil_r.
    + done.
    + by rewrite Htr, !summary_of_app, Hs, Hsum.
  - apply observe_eq; simpl; [done| | |].
    + unfold tools. rewrite Htr, !List.filter_app. simpl.
      by rewrite !app_nil_r.
    + done.
    + by rewrite Htr, !summary_of_app, Hs, Hsum.
Qed.

Lemma Refactored_main_run (env : Env) (cli : bool) (folderPath : string)
  (tree : list Dirent) :
  observe (Refactored.main env cli folderPath tree initial) =
  Refactored_run env cli folderPath tree.
Proof.
  unfold Refactored_run, Refactored.main, outputDir_of.
  set (allMedia := Refactored.findMedia env folderPath folderPath tree).
  destruct (Nat.eqb (List.length allMedia) 0) eqn:Hempty.
  - repeat mstep. done.
  - repeat mstep. destruct cli.
    + cbv beta iota. do 2 mstep.
      by rewrite Refactored_main_tail.
    + cbv beta iota. mstep.
      destruct (selectMode env) as [|[|]]; cbv beta iota; [done| |].
      * mstep.
        by rewrite Refactored_main_tail.
      * rewrite bind_run.
        match goal with
        | |- context [Refactored.loadDimensions env allMedia ?s] =>
            destruct (loadDimensions_run env allMedia s)
              as (evs & Htr & Hsum & Ht & Hf & Hsp & Ho);
            destruct (Refactored.loadDimensions env allMedia s)
              as [[media|e|c] s3]
        end;
          destruct (load_all env allMedia) as [[e'|media'] dcalls];
          simpl in Htr, Ht, Hf, Ho; try done.
        -- injection Ho as ->. rewrite Refactored_main_tail.
           ++ unfold tools. rewrite Htr, Hf. simpl. by rewrite Ht.
           ++ by rewrite Htr.
        -- injection Ho as ->. apply observe_eq; simpl; try done.
           ++ unfold tools. rewrite Htr. simpl. by rewrite Ht.
           ++ by rewrite Htr.
Qed.

Lemma Monolith_main_tail (env : Env) (mode : Mode) (dir : string)
  (media : list MediaFile) (s : State) :
  summary_of (trace s) = None ->
  observe
    ((mkdir dir ;;;
      let* totals :=
        match mode with
        | fast =>
            print SpinnerStart (Text "Processing...") ;;;
            let* totals :=
              for_each (Monolith.fast_step env dir (List.length media))
                0%nat media (0, 0) in
            print SpinnerStop (Text "Done!") ;;;
            ret totals
        | custom => for_each (Monolith.custom_step env dir) 0%nat media (0, 0)
        end in
      let '(totalOriginal, totalCompressed) := totals in
      let savings := Monolith.savings totalOriginal totalCompressed in
      print ClackSuccess
        (Summary totalOriginal totalCompressed
           (SavingsOverOriginal savings totalOriginal)) ;;;
      print ClackInfo (Output dir) ;;;
      print ClackOutro (Text "Done!")) s) =
  finish (fun o c => SavingsOverOriginal (Monolith.savings o c) o) (tools s)
    (process env mode dir media (0, 0) (files s)).
Proof.
  intros Hs. mstep. rewrite bind_run. destruct mode.
  - mstep. rewrite bind_run.
    match goal with
    | |- context [for_each ?b ?i ?l ?t ?s0] =>
        destruct (Monolith_fast_loop_run env dir (List.length media) l i t s0)
          as (evs & Ho & Htr & Ht & Hsum & Hf);
        destruct (for_each b i l t s0) as [[[o c]|e|code] s5]
    end;
      change (files (add_events _ (add_events _ s))) with (files s) in *;
      destruct (process env fast dir media (0, 0) (files s))
        as [[po pcalls] fs'];
      simpl in Ho, Htr, Ht, Hf; subst po pcalls fs'; unfold finish; simpl;
      repeat mstep.
    all: apply observe_eq; simpl; try done.
    all: unfold tools; simpl; rewrite Htr, ?List.filter_app, ?summary_of_app,
           ?Hs, ?Hsum; simpl; by rewrite ?app_nil_r.
  - match goal with
    | |- context [for_each ?b ?i ?l ?t ?s0] =>
        destruct (Monolith_custom_loop_run env dir l i t s0)
          as (evs & Ho & Htr & Ht & Hsum & Hf);
        destruct (for_each b i l t s0) as [[[o c]|e|code] s5]
    end;
      change (files (add_events _ s)) with (files s) in *;
      destruct (process env custom dir media (0, 0) (files s))
        as [[po pcalls] fs'];
      simpl in Ho, Htr, Ht, Hf; subst po pcalls fs'; unfold finish; simpl;
      repeat mstep.
    all: apply observe_eq; simpl; try done.
    all: unfold tools; simpl; rewrite Htr, ?List.filter_app, ?summary_of_app,
           ?Hs, ?Hsum; simpl; by rewrite ?app_nil_r.
Qed.

Lemma filter_type (t : MediaType) (l : list MediaFile) :
  Forall (fun f => type f = t)
    (List.filter (fun m => MediaType_eqb (type m) t) l).
Proof.
  apply Forall_forall. intros f Hf. apply list_elem_of_In in Hf.
  apply List.filter_In in Hf as [_ Hf]. by destruct (type f), t.
Qed.

Lemma Monolith_main_run (env : Env) (folderPath : string)
  (tree : list Dirent) :
  observe (Monolith.main env folderPath tree initial) =
  Monolith_run env folderPath tree.
Proof.
  unfold Monolith_run, Monolith.main, outputDir_of.
  set (allMedia := Monolith.findMedia env folderPath folderPath tree).
  destruct (Nat.eqb (List.length allMedia) 0) eqn:Hempty.
  - repeat mstep. done.
  - repeat mstep. rewrite bind_run.
    set (images := List.filter (fun m => MediaType_eqb (type m) image) allMedia).
    set (videos := List.filter (fun m => MediaType_eqb (type m) video) allMedia).
    destruct (Monolith_load_images env images initial (filter_type image _))
      as (evs1 & Htr1 & Hsum1 & Ht1 & Hf1 & _ & Ho1).
    destruct (map_each _ images initial) as [[images'|e|c] s1];
      destruct (load_all env images) as [[e1|images1] calls1];
      simpl in Htr1, Ht1, Hf1, Ho1; try done.
    + injection Ho1 as ->. rewrite bind_run.
      destruct (Monolith_load_videos env videos s1 (filter_type video _))
        as (evs2 & Htr2 & Hsum2 & Ht2 & Hf2 & _ & Ho2).
      destruct (map_each _ videos s1) as [[videos'|e|c] s2];
        destruct (load_all env videos) as [[e2|videos2] calls2];
        simpl in Htr2, Ht2, Hf2, Ho2; try done.
      * injection Ho2 as ->. repeat mstep.
        destruct (selectMode env) as [|mode].
        -- repeat mstep. apply observe_eq; simpl; try done.
           ++ unfold tools. simpl. rewrite Htr2, Htr1, !List.filter_app, Ht1,
                Ht2. simpl. by rewrite !app_nil_r.
           ++ congruence.
           ++ by rewrite Htr2, Htr1, !summary_of_app, Hsum1, Hsum2.
        -- rewrite List.length_app. rewrite <- (List.length_app images1).
           rewrite Monolith_main_tail.
           ++ unfold tools. simpl. rewrite Htr2, Htr1, !List.filter_app, Ht1,
                Ht2, Hf2, Hf1. simpl. by rewrite !app_nil_r.
           ++ simpl. by rewrite Htr2, Htr1, !summary_of_app, Hsum1, Hsum2.
      * injection Ho2 as ->. apply observe_eq; simpl; try done.
        -- unfold tools. by rewrite Htr2, Htr1, !List.filter_app, Ht1, Ht2.
        -- congruence.
        -- by rewrite Htr2, Htr1, !summary_of_app, Hsum1, Hsum2.
    + injection Ho1 as ->. apply observe_eq; simpl; try done.
      * unfold tools. by rewrite Htr1, Ht1.
      * by rewrite Htr1.
Qed.

(** ** The claims *)

(** C2.  [findMedia] (part_001 and part_000 alike) returns, for the whole
    tree and in traversal order, every entry that is not a directory and
    whose lowercased extension is recognised, and nothing else; an entry is
    kept as an image exactly when its lowercased extension is one of
    .jpg .jpeg .png .webp .avif .tiff .gif, as a video exactly when it is one
    of .mp4 .mov .avi .mkv .webm .m4v, and omitted exactly when it is
    neither. *)
Theorem C2_findMedia_classifies (env : Env) (dir baseDir : string)
  (tree : list Dirent) :
  Monolith.findMedia env dir baseDir tree =
    omap (classified_file env dir baseDir) (files_of tree) /\
  Refactored.findMedia env dir baseDir tree =
    omap (classified_file env dir baseDir) (files_of tree) /\
  forall (dirs : list string) (n : string) (sz : N),
    (classified_image n <->
     exists f, classified_file env dir baseDir (dirs, n, sz) = Some f /\
               type f = image) /\
    (classified_video n <->
     exists f, classified_file env dir baseDir (dirs, n, sz) = Some f /\
               type f = video) /\
    (~ classified_image n /\ ~ classified_video n <->
     classified_file env dir baseDir (dirs, n, sz) = None) /\
    (forall f, classified_file env dir baseDir (dirs, n, sz) = Some f ->
       name f = n /\ size f = Z.of_N sz /\
       path f = join_all dir (dirs ++ [n]) /\
       relativePath f = Path.relative (cwd env) baseDir (path f)).
Proof.
  split; [apply Monolith_findMedia_walk|].
  split; [apply Refactored_findMedia_walk|].
  intros dirs n sz. unfold classified_file.
  rewrite <- classify_none, <- classify_image, <- classify_video.
  destruct (classify n) as [[]|]; repeat split; try done;
    try (intros (f & [= <-] & Ht); done); try (by eexists);
    try (by intros f [= <-]);
    match goal with H : Some _ = Some _ |- _ => by injection H as <- end.
Qed.

Lemma processFile_trace (env : Env) (f : MediaFile) (outputDir : string)
  (maxWidth : option Z) (s : State) :
  trace (Refactored.processFile env f outputDir maxWidth s).2 =
  (trace s ++ [EMkdir (Path.dirname (output_path outputDir f));
               encode_call outputDir f maxWidth])%list.
Proof.
  destruct s as [tr fs sp]. unfold encode_call, output_path.
  destruct (type f) eqn:Ht; run_monad; rewrite ?Ht; split_oracles.
  all: cbv beta iota zeta delta [trace files spinnerStarted fst snd];
    rewrite ?ffmpeg_args_last, ?lookup_insert_eq; simpl;
    by rewrite <- ?app_assoc.
Qed.

(** C1.  For a media file found in the input folder, [processFile] creates
    the output directory and makes one encoding call: for an image, a [sharp]
    pipeline on the file that ends in WebP at quality 75; for a video,
    [ffmpeg] on the file with libx264, CRF 28, AAC at 128k.  The output
    file's name is the input's name with its final extension replaced by
    .webp or .mp4. *)
Theorem C1_processFile_reencodes (env : Env) (folderPath : string)
  (tree : list Dirent) (f : MediaFile) (w h : option Z) (outputDir : string)
  (maxWidth : option Z) (s : State) :
  wf_tree tree = true ->
  In f (Refactored.findMedia env folderPath folderPath tree) ->
  let r := Refactored.processFile env (with_dimensions f w h) outputDir
             maxWidth s in
  exists (stem out : string) (call : Event),
    trace r.2 = (trace s ++ [EMkdir (Path.dirname out); call])%list /\
    name f = stem ++ Path.extname (name f) /\ Path.extname (name f) ≠ "" /\
    match type f with
    | image =>
        classified_image (name f) /\
        Path.basename out = stem ++ ".webp" /\
        exists p, call = ESharpToFile p out /\ input p = path f /\
                  last (ops p) = Some (Webp 75)
    | video =>
        classified_video (name f) /\
        Path.basename out = stem ++ ".mp4" /\
        exists scale,
          call = EFfmpeg (ffmpeg_codec_args (path f) ++ scale ++ [out])
    end.
Proof.
  intros Hwf Hin r.
  destruct (found_file env folderPath tree f Hwf Hin)
    as (dirs & n & sz & _ & Hv & Hc & Hn & _ & _ & Hrel).
  destruct (output_relative dirs n (type f) Hv Hc) as (stem & Hs & Hvs & Hr).
  set (f' := with_dimensions f w h).
  exists stem, (output_path outputDir f'), (encode_call outputDir f' maxWidth).
  split; [apply processFile_trace|].
  rewrite Hn. split; [done|]. split.
  { destruct (recognised_name_split n (type f)) as (? & tl & _ & _ & ->);
      [|done..].
    apply Forall_app in Hv as [_ Hv]. by inversion Hv. }
  assert (Path.basename (output_path outputDir f') =
          stem ++ Refactored.output_ext (type f)) as Hb.
  { unfold output_path. simpl. rewrite Hrel, Hr, basename_join.
    - by rewrite last_snoc.
    - by destruct dirs.
    - apply Forall_app in Hv as [Hd _]. apply Forall_app. split; [done|].
      by constructor. }
  unfold encode_call. simpl type. destruct (type f) eqn:Ht.
  - split; [by apply classify_image|]. split; [done|].
    eexists. split; [done|]. by destruct (positive_width maxWidth).
  - split; [by apply classify_video|]. split; [done|].
    unfold ffmpeg_args, ffmpeg_codec_args.
    destruct (positive_width maxWidth).
    + eexists. by rewrite <- app_assoc.
    + by exists [].
Qed.

(** On the example image, processed in fast mode. *)
Lemma C1_witness :
  exists (stem out : string) (call : Event),
    trace (Refactored.processFile example_env example_image "pics-compressed"
             None initial).2 =
      [EMkdir (Path.dirname out); call] /\
    "a.JPG" = stem ++ Path.extname "a.JPG" /\ Path.extname "a.JPG" ≠ "" /\
    classified_image "a.JPG" /\ Path.basename out = stem ++ ".webp" /\
    exists p, call = ESharpToFile p out /\ input p = "pics/a.JPG" /\
              last (ops p) = Some (Webp 75).
Proof.
  apply (C1_processFile_reencodes example_env "pics" example_tree
           example_image None None "pics-compressed" None initial).
  - reflexivity.
  - vm_compute. left. reflexivity.
Defined.

Lemma step_tools (env : Env) (mode : Mode) (outputDir : string)
  (f : MediaFile) (totals : Z * Z) (r : Outcome (Z * Z) * State) (s : State)
  (mw : option Z) :
  step_runs_as env mode outputDir f totals r s ->
  chosen_width env mode (file_info f) = Selected mw ->
  tools r.2 = (tools s ++ [encode_call outputDir f mw])%list.
Proof.
  intros (evs & Htr & _ & H) Hc. rewrite Hc in H. destruct H as [Ht _].
  unfold tools. by rewrite Htr, List.filter_app, Ht.
Qed.

Lemma encode_call_original (outputDir : string) (f : MediaFile) :
  encode_call outputDir f None = original_size_call outputDir f.
Proof. unfold encode_call, original_size_call. by destruct (type f). Qed.

Lemma encode_call_selected (outputDir : string) (f : MediaFile)
  (choice : WidthOption) :
  encode_call outputDir f (Some (option_value choice)) =
  if 0 <? option_value choice
  then downscaled_call outputDir f (option_value choice)
  else original_size_call outputDir f.
Proof.
  unfold encode_call, original_size_call, downscaled_call, ffmpeg_args,
    ffmpeg_codec_args.
  rewrite positive_width_option.
  by destruct (type f), (0 <? option_value choice).
Qed.

(** C4.  One round of the processing loop makes exactly one tool call.  In
    fast mode (part_000 with either logger, part_001) it is the call at the
    original dimensions.  In custom mode, when the user selects a max width,
    it is the downscaled call if the selected value is greater than 0 (a
    [resize] to that width without enlargement for an image, the filter
    [scale='min(w,iw)':-2] for a video) and the call at the original
    dimensions if the selected value is 0. *)
Theorem C4_downscaling_only_when_selected (env : Env) (outputDir : string)
  (n i : nat) (f : MediaFile) (totals : Z * Z) (s : State) :
  (forall cli,
     tools (Refactored.step env (Refactored.createLogger cli) fast outputDir
              n i f totals s).2 =
     (tools s ++ [original_size_call outputDir f])%list) /\
  tools (Monolith.fast_step env outputDir n i f totals s).2 =
    (tools s ++ [original_size_call outputDir f])%list /\
  forall choice,
    selectMaxWidth env (file_info f) = Selected choice ->
    let expected :=
      if 0 <? option_value choice
      then downscaled_call outputDir f (option_value choice)
      else original_size_call outputDir f in
    (forall cli,
       tools (Refactored.step env (Refactored.createLogger cli) custom
                outputDir n i f totals s).2 =
       (tools s ++ [expected])%list) /\
    tools (Monolith.custom_step env outputDir i f totals s).2 =
      (tools s ++ [expected])%list.
Proof.
  split; [|split].
  - intros cli. rewrite <- encode_call_original.
    eapply step_tools; [apply Refactored_step_run|done].
  - rewrite <- encode_call_original.
    eapply step_tools; [apply Monolith_fast_step_run|done].
  - intros choice Hc expected. subst expected.
    rewrite <- encode_call_selected. split; [intros cli|].
    + eapply step_tools; [apply Refactored_step_run|].
      unfold chosen_width. by rewrite Hc.
    + eapply step_tools; [apply Monolith_custom_step_run|].
      unfold chosen_width. by rewrite Hc.
Qed.

(** On the example video, for which the user selects 800px. *)
Lemma C4_witness :
  selectMaxWidth example_env (file_info example_video) = Selected W800 /\
  tools (Monolith.custom_step example_env "pics-compressed" 0 example_video
           (0, 0) initial).2 =
  [EFfmpeg ["-y"; "-i"; "pics/sub.d/v.mov"; "-c:v"; "libx264"; "-crf"; "28";
            "-preset"; "fast"; "-c:a"; "aac"; "-b:a"; "128k"; "-vf";
            "scale='min(800,iw)':-2"; "pics-compressed/sub.d/v.mp4"]].
Proof.
  split; [reflexivity|].
  destruct (C4_downscaling_only_when_selected example_env "pics-compressed"
              0 0 example_video (0, 0) initial) as (_ & _ & H).
  apply (H W800). reflexivity.
Defined.

(** ** Facts about [process] and [load_all] *)

Lemma encode_result_call (env : Env) (dir : string) (f : MediaFile)
  (mw : option Z) :
  encode_result env (encode_call dir f mw) = Some (encoded env dir f mw).
Proof. unfold encoded, encode_call. by destruct (type f). Qed.

Lemma call_output_call (dir : string) (f : MediaFile) (mw : option Z) :
  call_output (encode_call dir f mw) = output_path dir f.
Proof.
  unfold encode_call. destruct (type f); [done|]. apply ffmpeg_args_last.
Qed.

Lemma tool_input_call (dir : string) (f : MediaFile) (mw : option Z) :
  tool_input (encode_call dir f mw) = Some (path f).
Proof.
  unfold encode_call. destruct (type f); simpl.
  - by destruct (positive_width mw).
  - apply ffmpeg_args_input.
Qed.

Lemma is_encode_call (dir : string) (f : MediaFile) (mw : option Z) :
  is_encode (encode_call dir f mw) = true.
Proof. unfold encode_call. by destruct (type f). Qed.

Lemma write_call_call (env : Env) (dir : string) (f : MediaFile)
  (mw : option Z) (m : gmap string N) :
  write_call env m (encode_call dir f mw) =
  match encoded env dir f mw with
  | inr sz => <[output_path dir f := sz]> m
  | inl _ => m
  end.
Proof.
  unfold write_call. rewrite encode_result_call, call_output_call.
  by destruct (encoded env dir f mw).
Qed.

Lemma process_inv (env : Env) (mode : Mode) (dir : string)
  (l : list MediaFile) (t : Z * Z) (fs : gmap string N) :
  let '(o, calls, fs') := process env mode dir l t fs in
  exists k,
    Forall2 (call_for env mode dir) (take k l) calls /\
    fs' = fold_left (write_call env) calls fs /\
    match o with
    | Ok t' =>
        k = List.length l /\ Forall (succeeds env) calls /\
        t'.1 = fold_left js_add (List.map size l) t.1 /\
        t'.2 = fold_left js_add (List.map (output_size env) calls) t.2
    | Thrown e =>
        exists done call,
          calls = (done ++ [call])%list /\ Forall (succeeds env) done /\
          encode_result env call = Some (inl e)
    | Exited c => c = 0 /\ Forall (succeeds env) calls
    end.
Proof.
  revert t fs. induction l as [|f l IH]; intros t fs; simpl.
  - exists 0%nat. repeat split; constructor.
  - destruct (chosen_width env mode (file_info f)) as [|mw] eqn:Hc.
    + exists 0%nat. repeat split; constructor.
    + destruct (encoded env dir f mw) as [e|sz] eqn:He.
      * exists 1%nat. simpl. rewrite take_0. split.
        { repeat constructor. by exists mw. }
        split. { by rewrite write_call_call, He. }
        exists [], (encode_call dir f mw). repeat split; [constructor|].
        by rewrite encode_result_call, He.
      * specialize (IH (js_add t.1 (size f), js_add t.2 (Z.of_N sz))
                      (<[output_path dir f := sz]> fs)).
        destruct (process env mode dir l _ _) as [[o calls] fs'].
        destruct IH as (k & Hk & Hfs & Ho).
        assert (succeeds env (encode_call dir f mw)) as Hs.
        { exists sz. by rewrite encode_result_call, He. }
        exists (S k). simpl. split.
        { constructor; [by exists mw|done]. }
        split. { by rewrite write_call_call, He. }
        destruct o as [t'|e|c].
        -- destruct Ho as (-> & Hall & H1 & H2). repeat split; try done.
           ++ by constructor.
           ++ rewrite H2. cbn [List.map fold_left].
              assert (output_size env (encode_call dir f mw) = Z.of_N sz)
                as -> by (unfold output_size;
                          by rewrite encode_result_call, He).
              done.
        -- destruct Ho as (done & call & -> & Hd & Hcall).
           exists (encode_call dir f mw :: done), call.
           repeat split; try done. by constructor.
        -- destruct Ho as [-> Hall]. split; [done|]. by constructor.
Qed.

Lemma load_all_inv (env : Env) (l : list MediaFile) :
  let '(res, calls) := load_all env l in
  match res with
  | inr l' =>
      calls = List.map dimension_call l /\
      Forall2 (fun f f' => exists w h, f' = with_dimensions f w h) l l'
  | inl e =>
      exists k, calls = List.map dimension_call (take (S k) l)
  end.
Proof.
  induction l as [|f l IH]; simpl; [by split; constructor|].
  unfold load_dimensions.
  destruct (type f) eqn:Ht.
  - destruct (sharp_metadata env (path f)) as [e|md].
    + by exists 0%nat.
    + destruct (load_all env l) as [[e|l'] calls].
      * destruct IH as [k ->]. by exists (S k).
      * destruct IH as [-> IH]. split; [done|]. constructor; [|done].
        by eexists _, _.
  - destruct (load_all env l) as [[e|l'] calls].
    + destruct IH as [k ->]. by exists (S k).
    + destruct IH as [-> IH]. split; [done|]. constructor; [|done].
      by eexists _, _.
Qed.

(** ** Sums of JavaScript numbers *)

Lemma round_exact (z : Z) : Z.abs z <= 2 ^ 53 -> round_to_double z = z.
Proof.
  intros H. unfold round_to_double.
  destruct (Z.abs z <=? 2 ^ 53) eqn:E; [done|]. apply Z.leb_gt in E. lia.
Qed.

Lemma sum_Z_app (a b : list Z) : sum_Z (a ++ b) = sum_Z a + sum_Z b.
Proof. induction a as [|x a IH]; simpl; lia. Qed.

Lemma sum_Z_nonneg (l : list Z) : Forall (fun x => 0 <= x) l -> 0 <= sum_Z l.
Proof. induction 1; simpl; lia. Qed.

(** Below 2^53 the running total of a loop is the exact sum. *)
Lemma fold_js_add_exact (l : list Z) (a : Z) :
  Forall (fun x => 0 <= x) l -> 0 <= a -> a + sum_Z l <= 2 ^ 53 ->
  fold_left js_add l a = a + sum_Z l.
Proof.
  revert a. induction l as [|x l IH]; intros a Hl Ha Hb; simpl in *; [lia|].
  inversion Hl; subst. pose proof (sum_Z_nonneg l ltac:(done)).
  unfold js_add at 2. rewrite round_exact by lia.
  rewrite IH; [lia|done|lia|lia].
Qed.

Lemma output_size_nonneg (env : Env) (l : list Event) :
  Forall (fun x => 0 <= x) (List.map (output_size env) l).
Proof.
  apply Forall_forall. intros x Hx. apply list_elem_of_In, in_map_iff in Hx.
  destruct Hx as (e & <- & _). unfold output_size.
  destruct (encode_result env e) as [[|]|]; lia.
Qed.

Lemma findMedia_size_nonneg (env : Env) (dir base : string)
  (tree : list Dirent) :
  Forall (fun x => 0 <= x)
    (List.map size (Refactored.findMedia env dir base tree)).
Proof.
  apply Forall_forall. intros x Hx. apply list_elem_of_In, in_map_iff in Hx.
  destruct Hx as (f & <- & Hf). rewrite Refactored_findMedia_walk in Hf.
  apply list_elem_of_In, list_elem_of_omap in Hf as ([[d n] sz] & _ & Hf).
  unfold classified_file in Hf. destruct (classify n); [|done].
  injection Hf as <-. simpl. lia.
Qed.

Lemma same_file_sizes (l l' : list MediaFile) :
  Forall2 same_file l l' -> List.map size l' = List.map size l.
Proof.
  induction 1 as [|f f' l l' (w & h & ->) _ IH]; [done|]. simpl. by rewrite IH.
Qed.

Lemma same_file_paths (l l' : list MediaFile) :
  Forall2 same_file l l' -> List.map path l' = List.map path l.
Proof.
  induction 1 as [|f f' l l' (w & h & ->) _ IH]; [done|]. simpl. by rewrite IH.
Qed.

Lemma images_first_sizes (l : list MediaFile) :
  sum_Z (List.map size (images_first l)) = sum_Z (List.map size l).
Proof.
  unfold images_first. rewrite List.map_app, sum_Z_app.
  induction l as [|f l IH]; [done|]. simpl.
  destruct (type f); simpl; lia.
Qed.

Lemma encodes_tools (s : State) :
  encodes s = List.filter is_encode (tools s).
Proof.
  unfold encodes, tools. induction (trace s) as [|e l IH]; [done|]. simpl.
  destruct e; simpl; by rewrite ?IH.
Qed.

Lemma dimension_calls_not_encodes (l : list MediaFile) :
  List.filter is_encode (List.map dimension_call l) = [].
Proof.
  induction l as [|f l IH]; [done|]. simpl. unfold dimension_call at 1.
  by destruct (type f).
Qed.

Lemma calls_are_encodes (env : Env) (mode : Mode) (dir : string)
  (l : list MediaFile) (calls : list Event) :
  Forall2 (call_for env mode dir) l calls ->
  List.filter is_encode calls = calls.
Proof.
  induction 1 as [|f e l calls (mw & _ & ->) _ IH]; [done|]. simpl.
  by rewrite is_encode_call, IH.
Qed.

(** ** Runs of the programs that complete *)

Lemma catch_ok (main : M unit) (report : string -> M unit) (s s' : State) :
  catch main report s = (Ok tt, s') -> main s = (Ok tt, s').
Proof.
  unfold catch. destruct (main s) as [[[]|e|c] s1]; try done.
  rewrite bind_run. destruct (report e s1) as [[[]|?|?] ?]; done.
Qed.

Lemma observe_inv (r : Outcome unit * State) (R : Run) :
  observe r = R ->
  r.1 = outcome R /\ tools r.2 = calls R /\ files r.2 = written R /\
  summary_of (trace r.2) = summary R.
Proof. by intros <-. Qed.

Lemma finish_ok (percent : Z -> Z -> Percent) (dcalls : list Event)
  (p : Outcome (Z * Z) * list Event * gmap string N) :
  outcome (finish percent dcalls p) = Ok tt ->
  exists totals, p.1.1 = Ok totals /\
    summary (finish percent dcalls p) =
      Some (totals, percent totals.1 totals.2).
Proof.
  unfold finish. simpl. destruct p as [[[t|e|c] calls] fs]; simpl; try done.
  by exists t.
Qed.

Lemma Monolith_completed (env : Env) (folderPath : string)
  (tree : list Dirent) (s' : State) :
  Monolith.program env folderPath tree initial = (Ok tt, s') ->
  let allMedia := Monolith.findMedia env folderPath folderPath tree in
  exists mode media totals pcalls,
    selectMode env = Selected mode /\
    Forall2 same_file (images_first allMedia) media /\
    process env mode (outputDir_of folderPath) media (0, 0) ∅ =
      (Ok totals, pcalls, files s') /\
    tools s' = (List.map dimension_call (images_first allMedia) ++ pcalls)%list /\
    summary_of (trace s') =
      Some (totals, SavingsOverOriginal
                      (Monolith.savings totals.1 totals.2) totals.1).
Proof.
  intros Hp allMedia. apply catch_ok in Hp.
  pose proof (Monolith_main_run env folderPath tree) as Hrun.
  rewrite Hp in Hrun. apply observe_inv in Hrun as (Ho & Ht & Hf & Hs).
  simpl in Ho, Ht, Hf, Hs. unfold Monolith_run in *. fold allMedia in Ho, Ht, Hf, Hs.
  destruct (Nat.eqb (List.length allMedia) 0); [done|].
  unfold images_first.
  pose proof (load_all_inv env
    (List.filter (fun m => MediaType_eqb (type m) image) allMedia)) as Hi.
  pose proof (load_all_inv env
    (List.filter (fun m => MediaType_eqb (type m) video) allMedia)) as Hv.
  destruct (load_all env (List.filter _ allMedia)) as [[e|images] ic]; [done|].
  destruct (load_all env (List.filter _ allMedia)) as [[e|videos] vc]; [done|].
  destruct Hi as [-> Hi], Hv as [-> Hv].
  destruct (selectMode env) as [|mode]; [done|].
  symmetry in Ho. destruct (finish_ok _ _ _ Ho) as (totals & Hok & Hsum).
  rewrite Hsum in Hs. unfold finish in Ht, Hf. simpl in Ht, Hf.
  destruct (process env mode (outputDir_of folderPath) (images ++ videos)
              (0, 0) ∅) as [[o pcalls] fs] eqn:Hproc.
  simpl in *. subst o fs.
  exists mode, (images ++ videos)%list, totals, pcalls.
  repeat split; try done.
  - by apply Forall2_app.
  - by rewrite Ht, List.map_app.
Qed.

Lemma Refactored_completed (env : Env) (cli : bool) (folderPath : string)
  (tree : list Dirent) (s' : State) :
  Refactored.program env cli folderPath tree initial = (Ok tt, s') ->
  let allMedia := Refactored.findMedia env folderPath folderPath tree in
  exists mode media totals pcalls,
    (if cli then Selected fast else selectMode env) = Selected mode /\
    Forall2 same_file allMedia media /\
    process env mode (outputDir_of folderPath) media (0, 0) ∅ =
      (Ok totals, pcalls, files s') /\
    tools s' =
      ((match mode with
        | custom => List.map dimension_call allMedia
        | fast => []
        end) ++ pcalls)%list /\
    summary_of (trace s') =
      Some (totals, OneMinusRatio totals.2 totals.1).
Proof.
  intros Hp allMedia. apply catch_ok in Hp.
  pose proof (Refactored_main_run env cli folderPath tree) as Hrun.
  rewrite Hp in Hrun. apply observe_inv in Hrun as (Ho & Ht & Hf & Hs).
  simpl in Ho, Ht, Hf, Hs. unfold Refactored_run in *.
  fold allMedia in Ho, Ht, Hf, Hs.
  destruct (Nat.eqb (List.length allMedia) 0); [done|].
  destruct (if cli then Selected fast else selectMode env) as [|[|]];
    [done| |].
  - symmetry in Ho. destruct (finish_ok _ _ _ Ho) as (totals & Hok & Hsum).
    rewrite Hsum in Hs. unfold finish in Ht, Hf. simpl in Ht, Hf.
    destruct (process env fast (outputDir_of folderPath) allMedia (0, 0) ∅)
      as [[o pcalls] fs] eqn:Hproc.
    simpl in *. subst o fs. exists fast, allMedia, totals, pcalls.
    repeat split; try done.
    apply Forall2_same_length_lookup_2; [done|].
    intros i x y Hx Hy. rewrite Hx in Hy. injection Hy as <-.
    exists (width x), (height x). by destruct x.
  - pose proof (load_all_inv env allMedia) as Hl.
    destruct (load_all env allMedia) as [[e|media] dc]; [done|].
    destruct Hl as [-> Hl].
    symmetry in Ho. destruct (finish_ok _ _ _ Ho) as (totals & Hok & Hsum).
    rewrite Hsum in Hs. unfold finish in Ht, Hf. simpl in Ht, Hf.
    destruct (process env custom (outputDir_of folderPath) media (0, 0) ∅)
      as [[o pcalls] fs] eqn:Hproc.
    simpl in *. subst o fs. by exists custom, media, totals, pcalls.
Qed.

Lemma images_first_In (l : list MediaFile) (f : MediaFile) :
  In f (images_first l) <-> In f l.
Proof.
  unfold images_first. rewrite in_app_iff, !List.filter_In.
  destruct (type f); simpl; tauto.
Qed.

Lemma images_first_nonneg (l : list MediaFile) :
  Forall (fun x => 0 <= x) (List.map size l) ->
  Forall (fun x => 0 <= x) (List.map size (images_first l)).
Proof.
  rewrite !List.Forall_forall. intros H x Hx. apply in_map_iff in Hx.
  destruct Hx as (f & <- & Hf). apply H, in_map, images_first_In, Hf.
Qed.

Lemma completed_encodes (env : Env) (mode : Mode) (dir : string)
  (media : list MediaFile) (totals : Z * Z) (pcalls : list Event)
  (fs : gmap string N) (dims : list MediaFile) (s' : State) :
  process env mode dir media (0, 0) ∅ = (Ok totals, pcalls, fs) ->
  tools s' = (List.map dimension_call dims ++ pcalls)%list ->
  encodes s' = pcalls /\ Forall2 (call_for env mode dir) media pcalls /\
  Forall (succeeds env) pcalls /\
  totals.1 = fold_left js_add (List.map size media) 0 /\
  totals.2 = fold_left js_add (List.map (output_size env) pcalls) 0 /\
  fs = fold_left (write_call env) pcalls ∅.
Proof.
  intros Hp Ht. pose proof (process_inv env mode dir media (0, 0) ∅) as Hi.
  rewrite Hp in Hi. destruct Hi as (k & Hk & Hfs & -> & Hall & H1 & H2).
  rewrite firstn_all in Hk.
  rewrite encodes_tools, Ht, List.filter_app, dimension_calls_not_encodes.
  by rewrite (calls_are_encodes _ _ _ _ _ Hk).
Qed.

Lemma calls_on_app (p : string) (a b : list Event) :
  calls_on p (a ++ b) = (calls_on p a + calls_on p b)%nat.
Proof. unfold calls_on. by rewrite List.filter_app, List.length_app. Qed.

Lemma calls_on_dimension_calls (p : string) (l : list MediaFile) :
  calls_on p (List.map dimension_call l) = count_path p l.
Proof.
  unfold calls_on, count_path. induction l as [|f l IH]; [done|]. simpl.
  assert (tool_input (dimension_call f) = Some (path f)) as ->
    by (unfold dimension_call; by destruct (type f)).
  destruct (String.eqb (path f) p); simpl; by rewrite IH.
Qed.

Lemma calls_on_encode_calls (env : Env) (mode : Mode) (dir : string)
  (p : string) (l : list MediaFile) (calls : list Event) :
  Forall2 (call_for env mode dir) l calls -> calls_on p calls = count_path p l.
Proof.
  unfold calls_on, count_path.
  induction 1 as [|f e l calls (mw & _ & ->) _ IH]; [done|]. simpl.
  rewrite tool_input_call.
  destruct (String.eqb (path f) p); simpl; by rewrite IH.
Qed.

Lemma count_path_same_file (p : string) (l l' : list MediaFile) :
  Forall2 same_file l l' -> count_path p l' = count_path p l.
Proof.
  unfold count_path.
  induction 1 as [|f f' l l' (w & h & ->) _ IH]; [done|]. simpl.
  destruct (String.eqb (path f) p); simpl; by rewrite IH.
Qed.

Lemma count_path_images_first (p : string) (l : list MediaFile) :
  count_path p (images_first l) = count_path p l.
Proof.
  unfold count_path, images_first.
  rewrite List.filter_app, List.length_app.
  induction l as [|f l IH]; [done|]. simpl.
  destruct (type f), (String.eqb (path f) p) eqn:E; simpl; rewrite ?E; simpl;
    lia.
Qed.

Lemma count_path_absent (p : string) (l : list MediaFile) :
  ~ In p (List.map path l) -> count_path p l = 0%nat.
Proof.
  unfold count_path. induction l as [|f l IH]; [done|]. simpl. intros H.
  destruct (String.eqb (path f) p) eqn:E.
  - apply String.eqb_eq in E. tauto.
  - apply IH. tauto.
Qed.

Lemma count_path_NoDup (l : list MediaFile) (f : MediaFile) :
  List.NoDup (List.map path l) -> In f l -> count_path (path f) l = 1%nat.
Proof.
  induction l as [|g l IH]; [done|]. simpl. intros Hnd Hin.
  inversion Hnd as [|? ? Hg Hl]; subst. unfold count_path in *. simpl.
  destruct (String.eqb (path g) (path f)) eqn:E.
  - apply String.eqb_eq in E. simpl. f_equal.
    apply count_path_absent. by rewrite <- E.
  - apply String.eqb_neq in E. destruct Hin as [->|Hin]; [done|]. by apply IH.
Qed.




(** ** Runs of the programs that fail *)

Lemma calls_in_order (env : Env) (mode : Mode) (dir : string)
  (l l' : list MediaFile) (k : nat) (calls : list Event) :
  Forall2 same_file l l' ->
  Forall2 (call_for env mode dir) (take k l') calls ->
  Forall2 (fun f e => is_encode e = true /\ tool_input e = Some (path f))
    (take k l) calls.
Proof.
  intros Hs. revert k calls.
  induction Hs as [|f f' l l' (w & h & ->) _ IH]; intros k calls H.
  - rewrite take_nil in *. inversion H. constructor.
  - destruct k as [|k]; simpl in *.
    + inversion H. constructor.
    + inversion H as [|? e ? calls' (mw & _ & ->) Hr]; subst.
      constructor; [|by apply IH].
      by rewrite is_encode_call, tool_input_call.
Qed.

Lemma finish_well_ordered (env : Env) (mode : Mode) (dir : string)
  (percent : Z -> Z -> Percent) (dims media media' : list MediaFile) :
  Forall2 same_file media media' ->
  well_ordered env media
    (finish percent (List.map dimension_call dims)
       (process env mode dir media' (0, 0) ∅)).
Proof.
  intros Hs. pose proof (process_inv env mode dir media' (0, 0) ∅) as Hi.
  destruct (process env mode dir media' (0, 0) ∅) as [[o pcalls] fs].
  destruct Hi as (k & Hk & _ & Ho).
  exists dims, pcalls, k. unfold finish. simpl. split; [done|].
  split; [by eapply calls_in_order|].
  destruct o as [t|e|c].
  - destruct Ho as (-> & Hall & _). split; [|done].
    by apply Forall2_length in Hs.
  - by right.
  - by destruct Ho.
Qed.

Lemma stopped_well_ordered (env : Env) (media dims : list MediaFile)
  (o : Outcome unit) :
  (forall x, o ≠ Ok x) ->
  well_ordered env media (stopped o (List.map dimension_call dims)).
Proof.
  intros Ho. exists dims, [], 0%nat. simpl. rewrite app_nil_r, take_0.
  repeat split; [constructor|]. destruct o as [x| |]; [by destruct (Ho x)| |].
  - by left.
  - constructor.
Qed.

Lemma same_file_refl (l : list MediaFile) : Forall2 same_file l l.
Proof.
  induction l as [|f l IH]; constructor; [|done].
  exists (width f), (height f). by destruct f.
Qed.

Lemma Refactored_well_ordered (env : Env) (cli : bool) (folderPath : string)
  (tree : list Dirent) :
  well_ordered env (Refactored.findMedia env folderPath folderPath tree)
    (Refactored_run env cli folderPath tree).
Proof.
  unfold Refactored_run.
  set (allMedia := Refactored.findMedia env folderPath folderPath tree).
  destruct (Nat.eqb (List.length allMedia) 0);
    [by apply (stopped_well_ordered env allMedia [])|].
  destruct (if cli then Selected fast else selectMode env) as [|[|]].
  - by apply (stopped_well_ordered env allMedia []).
  - apply (finish_well_ordered env fast _ _ []), same_file_refl.
  - pose proof (load_all_inv env allMedia) as Hl.
    destruct (load_all env allMedia) as [[e|media] dc].
    + destruct Hl as [k ->]. by apply stopped_well_ordered.
    + destruct Hl as [-> Hl]. by apply finish_well_ordered.
Qed.

Lemma Monolith_well_ordered (env : Env) (folderPath : string)
  (tree : list Dirent) :
  well_ordered env
    (images_first (Monolith.findMedia env folderPath folderPath tree))
    (Monolith_run env folderPath tree).
Proof.
  unfold Monolith_run, images_first.
  set (allMedia := Monolith.findMedia env folderPath folderPath tree).
  set (images := List.filter (fun m => MediaType_eqb (type m) image) allMedia).
  set (videos := List.filter (fun m => MediaType_eqb (type m) video) allMedia).
  destruct (Nat.eqb (List.length allMedia) 0);
    [by apply (stopped_well_ordered env _ [])|].
  pose proof (load_all_inv env images) as Hi.
  pose proof (load_all_inv env videos) as Hv.
  destruct (load_all env images) as [[e|images'] ic].
  { destruct Hi as [k ->]. by apply stopped_well_ordered. }
  destruct Hi as [-> Hi].
  destruct (load_all env videos) as [[e|videos'] vc].
  { destruct Hv as [k ->]. rewrite <- List.map_app.
    by apply stopped_well_ordered. }
  destruct Hv as [-> Hv]. rewrite <- List.map_app.
  destruct (selectMode env) as [|mode].
  - by apply stopped_well_ordered.
  - apply finish_well_ordered. by apply Forall2_app.
Qed.

Lemma catch_run (main : M unit) (sink : Sink) (s : State) :
  catch main (fun message => print sink (Text message)) s =
  match main s with
  | (Thrown e, s') => (Exited 1, add_events [EPrint sink "" (Text e)] s')
  | r => r
  end.
Proof. unfold catch. by destruct (main s) as [[[]|e|c] s1]. Qed.

Lemma encodes_add_print (sink : Sink) (pre : string) (m : Msg) (s : State) :
  encodes (add_events [EPrint sink pre m] s) = encodes s.
Proof.
  unfold encodes, add_events. simpl. rewrite List.filter_app. simpl.
  apply app_nil_r.
Qed.

(** What [main().catch(...)] adds to a run of [main]: nothing, unless [main]
    throws; then the message is printed last and the exit status is 1. *)
Lemma sequential_no_retry (env : Env) (media : list MediaFile)
  (main : M unit) (sink : Sink) (R : Run) :
  observe (main initial) = R -> well_ordered env media R ->
  let r := catch main (fun message => print sink (Text message)) initial in
  attempted_in_order media (encodes r.2) /\
  (r.1 = Ok tt -> List.length (encodes r.2) = List.length media) /\
  (forall e msg,
     In e (encodes r.2) -> encode_result env e = Some (inl msg) ->
     r.1 = Exited 1 /\ last (encodes r.2) = Some e /\
     last (trace r.2) = Some (EPrint sink "" (Text msg))).
Proof.
  intros Hobs (dims & pcalls & k & Hcalls & Hk & Ho) r.
  apply observe_inv in Hobs as (Hout & Htools & _).
  assert (encodes r.2 = pcalls) as Hen.
  { subst r. rewrite catch_run.
    assert (encodes (main initial).2 = pcalls) as <-.
    { rewrite encodes_tools, Htools, Hcalls, List.filter_app,
        dimension_calls_not_encodes. simpl.
      clear -Hk. induction Hk as [|? ? ? ? [H _] _ IH]; [done|]. simpl.
      by rewrite H, IH. }
    destruct (main initial) as [[[]|e|c] s1]; try done.
    apply encodes_add_print. }
  rewrite Hen. split; [by exists k|]. split.
  - intros Hr. subst r. rewrite catch_run in Hr.
    destruct (main initial) as [[[]|e|c] s1]; try done. simpl in *.
    rewrite <- Hout in Ho. destruct Ho as [-> _].
    apply Forall2_length in Hk. by rewrite firstn_all in Hk.
  - intros e msg Hin Hfail.
    assert (~ succeeds env e) as Hns.
    { intros [sz Hsz]. congruence. }
    assert (forall l, Forall (succeeds env) l -> In e l -> False) as Hall.
    { intros l Hl Hel. rewrite List.Forall_forall in Hl. by apply Hns, Hl. }
    subst r. rewrite catch_run.
    destruct (main initial) as [[[]|e'|c] s1]; simpl in *; rewrite <- Hout in Ho.
    + destruct Ho as [_ Ho]. destruct (Hall _ Ho Hin).
    + destruct Ho as [->|(pre & call & -> & Hd & Hc)]; [done|].
      apply in_app_iff in Hin as [Hin|[<-|[]]]; [destruct (Hall _ Hd Hin)|].
      assert (e' = msg) as -> by congruence.
      by rewrite !last_snoc.
    + destruct (Hall _ Ho Hin).
Qed.

(** ** A folder without media: the walk on a listing *)

Lemma walk_all_cons {A} (walk : Listing -> string + list A) (e : Listing)
  (l : list Listing) :
  walk_all walk (e :: l) =
  match walk e with
  | inl message => inl message
  | inr found =>
      match walk_all walk l with
      | inl message => inl message
      | inr more => inr (found ++ more)%list
      end
  end.
Proof. done. Qed.

(** On a listing the two walks for media agree, as on a tree. *)
Lemma findMedia_listed_entry_agree (env : Env) (dir base : string)
  (e : Listing) :
  Monolith_findMedia_listed_entry env dir base e =
  Refactored_findMedia_listed_entry env dir base e.
Proof.
  revert dir. induction e as [n st|n msg|n sub IH] using Listing_nested_ind;
    intros dir.
  - cbn [Monolith_findMedia_listed_entry Refactored_findMedia_listed_entry
           listing_name].
    destruct st as [msg|sz]; [done|].
    destruct (includes IMAGE_EXTS _); [done|].
    by destruct (includes VIDEO_EXTS _).
  - done.
  - cbn [Monolith_findMedia_listed_entry Refactored_findMedia_listed_entry
           listing_name].
    induction IH as [|x sub Hx _ IHs]; [done|].
    by rewrite !walk_all_cons, Hx, IHs.
Qed.

Lemma findMedia_listed_agree (env : Env) (dir base : string)
  (entries : string + list Listing) :
  Monolith_findMedia_listed env dir base entries =
  Refactored_findMedia_listed env dir base entries.
Proof.
  destruct entries as [msg|l]; [done|]. simpl.
  induction l as [|e l IH]; [done|].
  by rewrite !walk_all_cons, findMedia_listed_entry_agree, IH.
Qed.

(** When the walk returns, it returns what the walk on the tree returns. *)
Lemma Refactored_listed_entry_tree (env : Env) (dir base : string)
  (e : Listing) (media : list MediaFile) :
  Refactored_findMedia_listed_entry env dir base e = inr media ->
  Refactored.findMedia_entry env dir base (as_tree_entry e) = media.
Proof.
  revert dir media.
  induction e as [n st|n msg|n sub IH] using Listing_nested_ind;
    intros dir media.
  - cbn [Refactored_findMedia_listed_entry as_tree_entry
           Refactored.findMedia_entry listing_name dirent_name].
    destruct st as [msg|sz]; [done|]. by intros [= <-].
  - done.
  - cbn [Refactored_findMedia_listed_entry as_tree_entry
           Refactored.findMedia_entry listing_name dirent_name].
    revert media. induction IH as [|x sub Hx _ IHs]; intros media.
    + by intros [= <-].
    + rewrite walk_all_cons.
      destruct (Refactored_findMedia_listed_entry env _ base x)
        as [msg|found] eqn:Ex; [done|].
      destruct (walk_all _ sub) as [msg|more] eqn:Es; [done|].
      intros [= <-]. simpl. by rewrite (Hx _ _ Ex), (IHs _ eq_refl).
Qed.

Lemma Refactored_listed_tree (env : Env) (dir base : string)
  (entries : string + list Listing) (media : list MediaFile) :
  Refactored_findMedia_listed env dir base entries = inr media ->
  Refactored.findMedia env dir base (as_tree entries) = media.
Proof.
  destruct entries as [msg|l]; [done|]. simpl. unfold Refactored.findMedia.
  revert media. induction l as [|e l IH]; intros media.
  - by intros [= <-].
  - rewrite walk_all_cons.
    destruct (Refactored_findMedia_listed_entry env dir base e)
      as [msg|found] eqn:Ee; [done|].
    destruct (walk_all _ l) as [msg|more] eqn:El; [done|].
    intros [= <-]. simpl.
    by rewrite (Refactored_listed_entry_tree _ _ _ _ _ Ee), (IH _ eq_refl).
Qed.

Lemma Legacy_listed_entry_tree (env : Env) (dir base : string)
  (e : Listing) (images : list Legacy.ImageFile) :
  Legacy_findImages_listed_entry env dir base e = inr images ->
  Legacy.findImages_entry env dir base (as_tree_entry e) = images.
Proof.
  revert dir images.
  induction e as [n st|n msg|n sub IH] using Listing_nested_ind;
    intros dir images.
  - cbn [Legacy_findImages_listed_entry as_tree_entry
           Legacy.findImages_entry listing_name dirent_name].
    destruct (includes IMAGE_EXTS _); [|by intros [= <-]].
    destruct st as [msg|sz]; [done|]. by intros [= <-].
  - done.
  - cbn [Legacy_findImages_listed_entry as_tree_entry
           Legacy.findImages_entry listing_name dirent_name].
    revert images. induction IH as [|x sub Hx _ IHs]; intros images.
    + by intros [= <-].
    + rewrite walk_all_cons.
      destruct (Legacy_findImages_listed_entry env _ base x)
        as [msg|found] eqn:Ex; [done|].
      destruct (walk_all _ sub) as [msg|more] eqn:Es; [done|].
      intros [= <-]. simpl. by rewrite (Hx _ _ Ex), (IHs _ eq_refl).
Qed.

Lemma Legacy_listed_tree (env : Env) (dir base : string)
  (entries : string + list Listing) (images : list Legacy.ImageFile) :
  Legacy_findImages_listed env dir base entries = inr images ->
  Legacy.findImages env dir base (as_tree entries) = images.
Proof.
  destruct entries as [msg|l]; [done|]. simpl. unfold Legacy.findImages.
  revert images. induction l as [|e l IH]; intros images.
  - by intros [= <-].
  - rewrite walk_all_cons.
    destruct (Legacy_findImages_listed_entry env dir base e)
      as [msg|found] eqn:Ee; [done|].
    destruct (walk_all _ l) as [msg|more] eqn:El; [done|].
    intros [= <-]. simpl.
    by rewrite (Legacy_listed_entry_tree _ _ _ _ _ Ee), (IH _ eq_refl).
Qed.

(** A tree is a listing on which the walk returns. *)
Lemma as_tree_listed_entry (e : Dirent) : as_tree_entry (listed_entry e) = e.
Proof.
  induction e as [n sz|n sub IH] using Dirent_nested_ind; [done|]. simpl.
  f_equal. induction IH as [|x sub Hx _ IHs]; [done|]. simpl.
  by rewrite Hx, IHs.
Qed.

Lemma as_tree_listed (tree : list Dirent) : as_tree (listed tree) = tree.
Proof.
  unfold listed, as_tree. induction tree as [|e tree IH]; [done|]. simpl.
  by rewrite as_tree_listed_entry, IH.
Qed.

Lemma Refactored_listed_entry_clean (env : Env) (dir base : string)
  (e : Dirent) :
  Refactored_findMedia_listed_entry env dir base (listed_entry e) =
  inr (Refactored.findMedia_entry env dir base e).
Proof.
  revert dir. induction e as [n sz|n sub IH] using Dirent_nested_ind;
    intros dir; [done|].
  cbn [listed_entry Refactored_findMedia_listed_entry
         Refactored.findMedia_entry listing_name dirent_name].
  induction IH as [|x sub Hx _ IHs]; [done|].
  cbn [List.map]. by rewrite walk_all_cons, Hx, IHs.
Qed.

Lemma Refactored_listed_clean (env : Env) (dir base : string)
  (tree : list Dirent) :
  Refactored_findMedia_listed env dir base (listed tree) =
  inr (Refactored.findMedia env dir base tree).
Proof.
  unfold listed, Refactored_findMedia_listed, Refactored.findMedia.
  induction tree as [|e tree IH]; [done|]. cbn [List.map].
  by rewrite walk_all_cons, Refactored_listed_entry_clean, IH.
Qed.

Lemma Legacy_listed_entry_clean (env : Env) (dir base : string)
  (e : Dirent) :
  Legacy_findImages_listed_entry env dir base (listed_entry e) =
  inr (Legacy.findImages_entry env dir base e).
Proof.
  revert dir. induction e as [n sz|n sub IH] using Dirent_nested_ind;
    intros dir.
  - cbn [listed_entry Legacy_findImages_listed_entry
           Legacy.findImages_entry listing_name dirent_name].
    by destruct (includes IMAGE_EXTS _).
  - cbn [listed_entry Legacy_findImages_listed_entry
           Legacy.findImages_entry listing_name dirent_name].
    induction IH as [|x sub Hx _ IHs]; [done|].
    cbn [List.map]. by rewrite walk_all_cons, Hx, IHs.
Qed.

Lemma Legacy_listed_clean (env : Env) (dir base : string)
  (tree : list Dirent) :
  Legacy_findImages_listed env dir base (listed tree) =
  inr (Legacy.findImages env dir base tree).
Proof.
  unfold listed, Legacy_findImages_listed, Legacy.findImages.
  induction tree as [|e tree IH]; [done|]. cbn [List.map].
  by rewrite walk_all_cons, Legacy_listed_entry_clean, IH.
Qed.

(** Without media files the walk returns nothing, if it returns. *)
Lemma Refactored_listed_entry_none (env : Env) (dir base : string)
  (e : Listing) (media : list MediaFile) :
  (forall n, In n (listed_names_entry e) ->
     ~ classified_image n /\ ~ classified_video n) ->
  Refactored_findMedia_listed_entry env dir base e = inr media ->
  media = [].
Proof.
  revert dir media.
  induction e as [n st|n msg|n sub IH] using Listing_nested_ind;
    intros dir media Hnone.
  - cbn [Refactored_findMedia_listed_entry listing_name].
    destruct st as [msg|sz]; [done|]. cbv zeta.
    destruct (Hnone n) as [Hi Hv]; [by left|].
    unfold classified_image, classified_video, lowercased_extension in *.
    destruct (includes IMAGE_EXTS (toLowerCase (Path.extname n))) eqn:Ei;
      [by destruct Hi; apply (proj1 (includes_In _ _))|].
    destruct (includes VIDEO_EXTS (toLowerCase (Path.extname n))) eqn:Ev;
      [by destruct Hv; apply (proj1 (includes_In _ _))|].
    by intros [= <-].
  - done.
  - cbn [Refactored_findMedia_listed_entry listing_name].
    simpl in Hnone. revert media.
    induction IH as [|x sub Hx _ IHs]; intros media.
    + by intros [= <-].
    + rewrite walk_all_cons.
      destruct (Refactored_findMedia_listed_entry env _ base x)
        as [msg|found] eqn:Ex; [done|].
      destruct (walk_all _ sub) as [msg|more] eqn:Es; [done|].
      intros [= <-].
      assert (found = []) as ->.
      { eapply Hx; [|exact Ex]. intros m Hm. apply Hnone. simpl.
        apply in_app_iff. by left. }
      assert (more = []) as ->; [|done].
      eapply IHs; [|reflexivity]. intros m Hm. apply Hnone. simpl.
      apply in_app_iff. by right.
Qed.

Lemma Refactored_listed_none (env : Env) (dir base : string)
  (entries : string + list Listing) (media : list MediaFile) :
  (forall n, In n (listed_names entries) ->
     ~ classified_image n /\ ~ classified_video n) ->
  Refactored_findMedia_listed env dir base entries = inr media ->
  media = [].
Proof.
  destruct entries as [msg|l]; [done|]. simpl. revert media.
  induction l as [|e l IH]; intros media Hnone.
  - by intros [= <-].
  - rewrite walk_all_cons.
    destruct (Refactored_findMedia_listed_entry env dir base e)
      as [msg|found] eqn:Ee; [done|].
    destruct (walk_all _ l) as [msg|more] eqn:El; [done|].
    intros [= <-].
    rewrite (Refactored_listed_entry_none env dir base e found);
      [|intros n Hn; apply Hnone; simpl; apply in_app_iff; by left|done].
    rewrite (IH more); [done| |done].
    intros n Hn. apply Hnone. simpl. apply in_app_iff. by right.
Qed.

Lemma Legacy_listed_entry_none (env : Env) (dir base : string)
  (e : Listing) (images : list Legacy.ImageFile) :
  (forall n, In n (listed_names_entry e) -> ~ classified_image n) ->
  Legacy_findImages_listed_entry env dir base e = inr images ->
  images = [].
Proof.
  revert dir images.
  induction e as [n st|n msg|n sub IH] using Listing_nested_ind;
    intros dir images Hnone.
  - cbn [Legacy_findImages_listed_entry listing_name].
    destruct (includes IMAGE_EXTS (toLowerCase (Path.extname n))) eqn:Ei;
      [|by intros [= <-]].
    destruct (Hnone n); [by left|by apply (proj1 (includes_In _ _))].
  - done.
  - cbn [Legacy_findImages_listed_entry listing_name].
    simpl in Hnone. revert images.
    induction IH as [|x sub Hx _ IHs]; intros images.
    + by intros [= <-].
    + rewrite walk_all_cons.
      destruct (Legacy_findImages_listed_entry env _ base x)
        as [msg|found] eqn:Ex; [done|].
      destruct (walk_all _ sub) as [msg|more] eqn:Es; [done|].
      intros [= <-].
      assert (found = []) as ->.
      { eapply Hx; [|exact Ex]. intros m Hm. apply Hnone. simpl.
        apply in_app_iff. by left. }
      assert (more = []) as ->; [|done].
      eapply IHs; [|reflexivity]. intros m Hm. apply Hnone. simpl.
      apply in_app_iff. by right.
Qed.

Lemma Legacy_listed_none (env : Env) (dir base : string)
  (entries : string + list Listing) (images : list Legacy.ImageFile) :
  (forall n, In n (listed_names entries) -> ~ classified_image n) ->
  Legacy_findImages_listed env dir base entries = inr images ->
  images = [].
Proof.
  destruct entries as [msg|l]; [done|]. simpl. revert images.
  induction l as [|e l IH]; intros images Hnone.
  - by intros [= <-].
  - rewrite walk_all_cons.
    destruct (Legacy_findImages_listed_entry env dir base e)
      as [msg|found] eqn:Ee; [done|].
    destruct (walk_all _ l) as [msg|more] eqn:El; [done|].
    intros [= <-].
    rewrite (Legacy_listed_entry_none env dir base e found);
      [|intros n Hn; apply Hnone; simpl; apply in_app_iff; by left|done].
    rewrite (IH more); [done| |done].
    intros n Hn. apply Hnone. simpl. apply in_app_iff. by right.
Qed.

Lemma no_media_found_exits (env : Env) (folderPath : string)
  (tree : list Dirent) :
  Refactored.findMedia env folderPath folderPath tree = [] ->
  Monolith.program env folderPath tree initial =
    (Exited 1,
     add_events [EPrint ClackError "" (Text "No images or videos found")]
       initial) /\
  (forall cli,
     Refactored.program env cli folderPath tree initial =
     (Exited 1,
      add_events
        [EPrint (log_sink cli ClackError ConsoleError)
           (if cli then "Error: " else "")
           (Text "No images or videos found")] initial)).
Proof.
  intros Hr. split.
  - unfold Monolith.program, Monolith.main.
    rewrite catch_run, findMedia_agree, Hr. simpl. by repeat mstep.
  - intros cli. unfold Refactored.program, Refactored.main.
    rewrite catch_run, Hr. simpl. by repeat mstep.
Qed.

Lemma no_images_found_exits (env : Env) (folderPath : string)
  (tree : list Dirent) :
  Legacy.findImages env folderPath folderPath tree = [] ->
  Legacy.program env folderPath tree initial =
    (Exited 1, add_events [EPrint ClackError "" (Text "No images found")]
                 initial).
Proof.
  intros Hl. unfold Legacy.program, Legacy.main. rewrite catch_run, Hl.
  simpl. by repeat mstep.
Qed.

(** On a listing on which no call throws, the programs run as on the
    tree. *)
Lemma programs_listed_clean (env : Env) (folderPath : string)
  (tree : list Dirent) :
  Monolith_program_listed env folderPath (listed tree) =
    Monolith.program env folderPath tree /\
  (forall cli,
     Refactored_program_listed env cli folderPath (listed tree) =
     Refactored.program env cli folderPath tree) /\
  Legacy_program_listed env folderPath (listed tree) =
    Legacy.program env folderPath tree.
Proof.
  unfold Monolith_program_listed, Refactored_program_listed,
    Legacy_program_listed.
  rewrite findMedia_listed_agree, Refactored_listed_clean,
    Legacy_listed_clean, as_tree_listed. done.
Qed.

(** C10 (as amended).  If no entry of the folder has a recognised image or
    video extension, the run prints one error line and exits with status 1;
    that line is its only event: no directory is created and no external
    tool is called.
    - When the walk returns ([readdir] and the [stat] calls it awaits do not
      throw), part_001 and part_000 print "No images or videos found"
      (part_000 in CLI mode on the console, after "Error: "), and index.ts,
      which only looks for images, prints "No images found".
    - When [readdir] or [stat] throws during the walk, the handler of
      [main().catch] prints the message of that error instead.  part_001
      and part_000 await [stat] for every entry that is not a directory,
      index.ts for the entries with an image extension only.
    On a tree, where no call throws, the runs are those of the first
    case. *)
Theorem C10_no_media_exits (env : Env) (folderPath : string)
  (entries : string + list Listing) :
  (forall n,
     In n (listed_names entries) ->
     ~ classified_image n /\ ~ classified_video n) ->
  Monolith_program_listed env folderPath entries initial =
    (Exited 1,
     add_events
       [EPrint ClackError ""
          (Text match Monolith_findMedia_listed env folderPath folderPath
                        entries with
                | inl message => message
                | inr _ => "No images or videos found"
                end)] initial) /\
  (forall cli,
     Refactored_program_listed env cli folderPath entries initial =
     (Exited 1,
      add_events
        [match Refactored_findMedia_listed env folderPath folderPath
                 entries with
         | inl message => EPrint ConsoleError "" (Text message)
         | inr _ =>
             EPrint (log_sink cli ClackError ConsoleError)
               (if cli then "Error: " else "")
               (Text "No images or videos found")
         end] initial)) /\
  Legacy_program_listed env folderPath entries initial =
    (Exited 1,
     add_events
       [EPrint ClackError ""
          (Text match Legacy_findImages_listed env folderPath folderPath
                        entries with
                | inl message => message
                | inr _ => "No images found"
                end)] initial) /\
  (forall tree,
     entries = listed tree ->
     Monolith.program env folderPath tree initial =
       (Exited 1,
        add_events [EPrint ClackError "" (Text "No images or videos found")]
          initial) /\
     (forall cli,
        Refactored.program env cli folderPath tree initial =
        (Exited 1,
         add_events
           [EPrint (log_sink cli ClackError ConsoleError)
              (if cli then "Error: " else "")
              (Text "No images or videos found")] initial)) /\
     Legacy.program env folderPath tree initial =
       (Exited 1, add_events [EPrint ClackError "" (Text "No images found")]
                    initial)).
Proof.
  intros H.
  assert (Hm : forall media,
            Refactored_findMedia_listed env folderPath folderPath entries =
              inr media ->
            Refactored.findMedia env folderPath folderPath (as_tree entries)
            = []).
  { intros media Hw. rewrite (Refactored_listed_tree _ _ _ _ _ Hw).
    by apply (Refactored_listed_none env folderPath folderPath entries). }
  assert (Hi : forall images,
            Legacy_findImages_listed env folderPath folderPath entries =
              inr images ->
            Legacy.findImages env folderPath folderPath (as_tree entries)
            = []).
  { intros images Hw. rewrite (Legacy_listed_tree _ _ _ _ _ Hw).
    apply (Legacy_listed_none env folderPath folderPath entries); [|done].
    intros n Hn. by apply H. }
  assert (H1 :
    Monolith_program_listed env folderPath entries initial =
    (Exited 1,
     add_events
       [EPrint ClackError ""
          (Text match Monolith_findMedia_listed env folderPath folderPath
                        entries with
                | inl message => message
                | inr _ => "No images or videos found"
                end)] initial)).
  { unfold Monolith_program_listed. rewrite findMedia_listed_agree.
    destruct (Refactored_findMedia_listed env folderPath folderPath entries)
      as [msg|media] eqn:Hw; [done|].
    apply (no_media_found_exits env folderPath (as_tree entries)).
    by apply (Hm media). }
  assert (H2 : forall cli,
    Refactored_program_listed env cli folderPath entries initial =
    (Exited 1,
     add_events
       [match Refactored_findMedia_listed env folderPath folderPath
                entries with
        | inl message => EPrint ConsoleError "" (Text message)
        | inr _ =>
            EPrint (log_sink cli ClackError ConsoleError)
              (if cli then "Error: " else "")
              (Text "No images or videos found")
        end] initial)).
  { intros cli. unfold Refactored_program_listed.
    destruct (Refactored_findMedia_listed env folderPath folderPath entries)
      as [msg|media] eqn:Hw; [done|].
    apply (no_media_found_exits env folderPath (as_tree entries)).
    by apply (Hm media). }
  assert (H3 :
    Legacy_program_listed env folderPath entries initial =
    (Exited 1,
     add_events
       [EPrint ClackError ""
          (Text match Legacy_findImages_listed env folderPath folderPath
                        entries with
                | inl message => message
                | inr _ => "No images found"
                end)] initial)).
  { unfold Legacy_program_listed.
    destruct (Legacy_findImages_listed env folderPath folderPath entries)
      as [msg|images] eqn:Hw; [done|].
    apply (no_images_found_exits env folderPath (as_tree entries)).
    by apply (Hi images). }
  split; [exact H1|]. split; [exact H2|]. split; [exact H3|].
  intros tree ->.
  destruct (programs_listed_clean env folderPath tree) as (E1 & E2 & E3).
  rewrite E1, findMedia_listed_agree, Refactored_listed_clean in H1.
  rewrite E3, Legacy_listed_clean in H3.
  split; [exact H1|]. split; [|exact H3].
  intros cli. specialize (H2 cli).
  by rewrite E2, Refactored_listed_clean in H2.
Qed.

(** On a folder that holds a text file and a file named [.png]. *)
Lemma C10_witness :
  Refactored.program example_env true "docs"
    [FileEntry "readme.md" 10; DirEntry "img" [FileEntry ".png" 5]] initial =
  (Exited 1,
   {| trace := [EPrint ConsoleError "Error: "
                  (Text "No images or videos found")];
      files := ∅; spinnerStarted := false |}).
Proof.
  destruct (C10_no_media_exits example_env "docs"
              (listed [FileEntry "readme.md" 10;
                       DirEntry "img" [FileEntry ".png" 5]]))
    as (_ & _ & _ & H).
  - intros n Hin. simpl in Hin.
    destruct Hin as [<-|[<-|[]]];
      split; intros Hc; apply includes_In in Hc; by vm_compute in Hc.
  - destruct (H _ eq_refl) as (_ & H2 & _). apply (H2 true).
Defined.

(** C10, as stated, fails in two ways.  index.ts prints "No images found",
    not "No images or videos found".  And on a folder without media that
    holds a dangling symbolic link, [stat] throws in the walk of part_000
    and part_001, which then print the message of that error; index.ts does
    not [stat] that entry. *)
Lemma C10_counterexample :
  (files_of [FileEntry "readme.md" 10] = [([], "readme.md", 10%N)] /\
   classify "readme.md" = None /\
   Legacy.program example_env "docs" [FileEntry "readme.md" 10] initial =
     (Exited 1,
      {| trace := [EPrint ClackError "" (Text "No images found")];
         files := ∅; spinnerStarted := false |}) /\
   Text "No images found" <> Text "No images or videos found") /\
  (listed_names dangling_link_listing = ["readme.md"; "link"] /\
   classify "readme.md" = None /\ classify "link" = None /\
   (forall cli,
      Refactored_program_listed example_env cli "docs" dangling_link_listing
        initial =
      (Exited 1,
       {| trace := [EPrint ConsoleError "" (Text dangling_link_message)];
          files := ∅; spinnerStarted := false |})) /\
   Monolith_program_listed example_env "docs" dangling_link_listing initial =
     (Exited 1,
      {| trace := [EPrint ClackError "" (Text dangling_link_message)];
         files := ∅; spinnerStarted := false |}) /\
   Legacy_program_listed example_env "docs" dangling_link_listing initial =
     (Exited 1,
      {| trace := [EPrint ClackError "" (Text "No images found")];
         files := ∅; spinnerStarted := false |}) /\
   Text dangling_link_message <> Text "No images or videos found").
Proof.
  split.
  - repeat split; try reflexivity. discriminate.
  - repeat split; try reflexivity; try discriminate.
Qed.

(** ** Output paths that coincide *)

(** Two images whose relative paths differ in the extension only are written
    to the same output path. *)
Lemma same_stem_collides (outputDir stem e1 e2 : string) (f1 f2 : MediaFile) :
  type f1 = type f2 -> ext_tail e1 = true -> ext_tail e2 = true ->
  relativePath f1 = stem ++ String "." e1 ->
  relativePath f2 = stem ++ String "." e2 ->
  output_path outputDir f1 = output_path outputDir f2.
Proof.
  intros Ht H1 H2 E1 E2. unfold output_path.
  by rewrite E1, E2, Ht, !replace_ext_last_dot.
Qed.

(** C9.  The map from input paths to output paths is not injective: the
    folder that holds [a.jpg] and [a.png] has two distinct media files, in
    the same directory, with the same output path.  Both programs complete on
    it with a single output file, which holds what was encoded from the file
    processed later. *)
Theorem C9_output_paths_collide :
  exists f1 f2 : MediaFile,
    wf_tree same_stem_tree = true /\
    Refactored.findMedia telling_env "pics" "pics" same_stem_tree = [f1; f2] /\
    Monolith.findMedia telling_env "pics" "pics" same_stem_tree = [f1; f2] /\
    path f1 <> path f2 /\
    Path.dirname (path f1) = Path.dirname (path f2) /\
    output_path (outputDir_of "pics") f1 = "pics-compressed/a.webp" /\
    output_path (outputDir_of "pics") f2 = "pics-compressed/a.webp" /\
    encoded telling_env (outputDir_of "pics") f1 None = inr 111%N /\
    encoded telling_env (outputDir_of "pics") f2 None = inr 222%N /\
    (forall cli,
       let r := Refactored.program telling_env cli "pics" same_stem_tree
                  initial in
       r.1 = Ok tt /\
       files r.2 = {[ "pics-compressed/a.webp" := 222%N ]}) /\
    (let r := Monolith.program telling_env "pics" same_stem_tree initial in
     r.1 = Ok tt /\ files r.2 = {[ "pics-compressed/a.webp" := 222%N ]}).
Proof.
  eexists _, _. split; [reflexivity|]. split; [vm_compute; reflexivity|].
  split; [vm_compute; reflexivity|]. simpl.
  split; [discriminate|]. repeat (split; [reflexivity|]).
  split.
  - intros [|]; split; try reflexivity; apply map_eq; intros k;
      vm_compute; reflexivity.
  - split; [reflexivity|]. apply map_eq. intros k. vm_compute. reflexivity.
Qed.

(** ** part_001 and part_000 on the same folder *)

Lemma loaded_same (env : Env) (f : MediaFile) :
  type (loaded env f) = type f /\ path (loaded env f) = path f /\
  relativePath (loaded env f) = relativePath f /\
  size (loaded env f) = size f /\ name (loaded env f) = name f.
Proof.
  unfold loaded, load_dimensions.
  destruct (type f) eqn:Ht; [|by rewrite <- Ht].
  destruct (sharp_metadata env (path f)); [done|]. by rewrite <- Ht.
Qed.

Lemma load_all_loaded (env : Env) (l l' : list MediaFile)
  (calls : list Event) :
  load_all env l = (inr l', calls) ->
  l' = List.map (loaded env) l /\ Forall (load_ok env) l.
Proof.
  revert l' calls. induction l as [|f l IH]; intros l' calls; simpl.
  - intros [= <- <-]. by split.
  - unfold loaded at 1, load_ok.
    destruct (load_dimensions env f) as [e|f'] eqn:E; [done|].
    destruct (load_all env l) as [[e|l0] c0]; [done|].
    intros [= <- <-]. destruct (IH l0 c0 eq_refl) as [-> Hall].
    split; [done|]. constructor; [by exists f'|done].
Qed.

Lemma load_all_complete (env : Env) (l : list MediaFile) :
  Forall (load_ok env) l ->
  load_all env l =
  (inr (List.map (loaded env) l), List.map dimension_call l).
Proof.
  induction 1 as [|f l [f' Hf] _ IH]; [done|]. simpl.
  unfold loaded at 1. by rewrite Hf, IH.
Qed.

Lemma images_first_map_loaded (env : Env) (l : list MediaFile) :
  images_first (List.map (loaded env) l) =
  List.map (loaded env) (images_first l).
Proof.
  unfold images_first. rewrite List.map_app. f_equal;
    induction l as [|f l IH]; simpl; try done;
    destruct (loaded_same env f) as (-> & _); destruct (type f); simpl;
    by rewrite ?IH.
Qed.

Lemma images_first_Forall {P : MediaFile -> Prop} (l : list MediaFile) :
  Forall P (images_first l) <-> Forall P l.
Proof.
  rewrite !List.Forall_forall. split; intros H f Hf; apply H;
    by apply images_first_In.
Qed.

Lemma process_fast_loaded (env : Env) (dir : string) (l : list MediaFile)
  (t : Z * Z) (fs : gmap string N) :
  process env fast dir (List.map (loaded env) l) t fs =
  process env fast dir l t fs.
Proof.
  revert t fs. induction l as [|f l IH]; intros t fs; [done|]. simpl.
  destruct (loaded_same env f) as (Ht & Hp & Hr & Hs & _).
  assert (encode_call dir (loaded env f) None = encode_call dir f None)
    as Hc by (unfold encode_call, output_path; by rewrite Ht, Hp, Hr).
  assert (output_path dir (loaded env f) = output_path dir f) as Ho
    by (unfold output_path; by rewrite Ht, Hr).
  unfold encoded. rewrite Hc, Ho, Hs.
  destruct (match encode_call dir f None with
            | ESharpToFile p out => sharp_toFile env p out
            | EFfmpeg args => ffmpeg env args
            | _ => inl ""
            end); [done|].
  by rewrite IH.
Qed.

Lemma goes_through_call (env : Env) (mode : Mode) (dir : string)
  (f : MediaFile) :
  goes_through env mode dir f ->
  exists mw sz,
    chosen_width env mode (file_info f) = Selected mw /\
    encoded env dir f mw = inr sz /\
    call_of env mode dir f = encode_call dir f mw.
Proof.
  intros (mw & sz & Hc & He). exists mw, sz. unfold call_of. by rewrite Hc.
Qed.

Lemma process_cons_ok (env : Env) (mode : Mode) (dir : string)
  (f : MediaFile) (l : list MediaFile) (t : Z * Z) (fs : gmap string N)
  (mw : option Z) (sz : N) :
  chosen_width env mode (file_info f) = Selected mw ->
  encoded env dir f mw = inr sz ->
  process env mode dir (f :: l) t fs =
  let '(o, calls, fs') :=
    process env mode dir l
      (js_add t.1 (size f), js_add t.2 (Z.of_N sz))
      (<[output_path dir f := sz]> fs) in
  (o, encode_call dir f mw :: calls, fs').
Proof. intros Hc He. cbn [process]. by rewrite Hc, He. Qed.

Lemma process_complete (env : Env) (mode : Mode) (dir : string)
  (l : list MediaFile) (t : Z * Z) (fs : gmap string N) :
  Forall (goes_through env mode dir) l ->
  let calls := List.map (call_of env mode dir) l in
  process env mode dir l t fs =
  (Ok (fold_left js_add (List.map size l) t.1,
       fold_left js_add (List.map (output_size env) calls) t.2),
   calls, fold_left (write_call env) calls fs).
Proof.
  intros H. revert t fs.
  induction H as [|f l Hf _ IH]; intros t fs; [by destruct t|].
  destruct (goes_through_call _ _ _ _ Hf) as (mw & sz & Hc & He & Hcall).
  rewrite (process_cons_ok _ _ _ _ _ _ _ _ _ Hc He), IH.
  cbn [List.map fold_left fst snd]. rewrite Hcall, write_call_call, He.
  assert (output_size env (encode_call dir f mw) = Z.of_N sz) as ->
    by (unfold output_size; by rewrite encode_result_call, He).
  done.
Qed.

Lemma process_ok_goes_through (env : Env) (mode : Mode) (dir : string)
  (l : list MediaFile) (t t' : Z * Z) (fs fs' : gmap string N)
  (calls : list Event) :
  process env mode dir l t fs = (Ok t', calls, fs') ->
  Forall (goes_through env mode dir) l.
Proof.
  revert t fs calls. induction l as [|f l IH]; intros t fs calls; [done|].
  simpl. destruct (chosen_width env mode (file_info f)) as [|mw] eqn:Hc;
    [done|].
  destruct (encoded env dir f mw) as [e|sz] eqn:He; [done|].
  destruct (process env mode dir l _ _) as [[o c] fs0] eqn:Hp.
  intros [= -> <- <-]. constructor; [by exists mw, sz|]. by eapply IH.
Qed.

Lemma write_call_commute (env : Env) (m : gmap string N) (e1 e2 : Event) :
  call_output e1 <> call_output e2 ->
  write_call env (write_call env m e1) e2 =
  write_call env (write_call env m e2) e1.
Proof.
  intros H. unfold write_call.
  destruct (encode_result env e1) as [[|s1]|],
    (encode_result env e2) as [[|s2]|]; try done.
  by apply insert_insert_ne.
Qed.

Lemma call_output_call_of (env : Env) (mode : Mode) (dir : string)
  (f : MediaFile) :
  call_output (call_of env mode dir f) = output_path dir f.
Proof.
  unfold call_of. destruct (chosen_width env mode (file_info f));
    apply call_output_call.
Qed.

Lemma write_calls_commute (env : Env) (mode : Mode) (dir : string)
  (v : MediaFile) (l : list MediaFile) (m : gmap string N) :
  Forall (fun f => output_path dir f <> output_path dir v) l ->
  fold_left (write_call env) (List.map (call_of env mode dir) l)
    (write_call env m (call_of env mode dir v)) =
  write_call env
    (fold_left (write_call env) (List.map (call_of env mode dir) l) m)
    (call_of env mode dir v).
Proof.
  intros H. revert m. induction H as [|f l Hf _ IH]; intros m; [done|].
  cbn [List.map fold_left]. rewrite <- IH. f_equal.
  apply write_call_commute. by rewrite !call_output_call_of.
Qed.

Lemma write_images_first (env : Env) (mode : Mode) (dir : string)
  (l : list MediaFile) (m : gmap string N) :
  (forall f v, In f l -> In v l -> type f = image -> type v = video ->
     output_path dir f <> output_path dir v) ->
  fold_left (write_call env) (List.map (call_of env mode dir) (images_first l))
    m =
  fold_left (write_call env) (List.map (call_of env mode dir) l) m.
Proof.
  revert m. induction l as [|x l IH]; intros m Hd; [done|].
  assert (forall m',
    fold_left (write_call env)
      (List.map (call_of env mode dir) (images_first l)) m' =
    fold_left (write_call env) (List.map (call_of env mode dir) l) m') as IH'.
  { intros m'. apply IH. intros f v Hf Hv. apply Hd; by right. }
  unfold images_first in *. cbn [List.filter List.map fold_left].
  destruct (type x) eqn:Hx; cbn [MediaType_eqb].
  - cbn [List.app List.map fold_left]. apply IH'.
  - rewrite <- IH'. rewrite !List.map_app, !fold_left_app.
    cbn [List.map fold_left]. f_equal. symmetry. apply write_calls_commute.
    apply Forall_forall. intros f Hf. apply list_elem_of_In in Hf.
    apply List.filter_In in Hf as [Hf Ht].
    apply Hd; [by right|by left| |done]. by destruct (type f).
Qed.

Lemma images_first_sum (g : MediaFile -> Z) (l : list MediaFile) :
  sum_Z (List.map g (images_first l)) = sum_Z (List.map g l).
Proof.
  unfold images_first. rewrite List.map_app, sum_Z_app.
  induction l as [|f l IH]; [done|]. simpl.
  destruct (type f); simpl; lia.
Qed.

Lemma last_char_app (a b : string) :
  b <> "" -> last_char (a ++ b) = last_char b.
Proof.
  intros Hb. induction a as [|c a IH]; [done|]. simpl. rewrite IH.
  destruct (a ++ b) eqn:E; [|done].
  destruct a, b; simpl in E; done.
Qed.

Lemma image_video_names_differ (s1 s2 : string) :
  s1 ++ ".webp" <> s2 ++ ".mp4".
Proof.
  intros E. apply (f_equal last_char) in E.
  by rewrite !last_char_app in E.
Qed.

Lemma found_output_named (env : Env) (folderPath dir : string)
  (tree : list Dirent) (f : MediaFile) :
  wf_tree tree = true ->
  In f (Refactored.findMedia env folderPath folderPath tree) ->
  output_named dir f.
Proof.
  intros Hwf Hin.
  destruct (found_file env folderPath tree f Hwf Hin)
    as (dirs & n & sz & _ & Hv & Hc & Hn & _ & _ & Hrel).
  destruct (output_relative dirs n (type f) Hv Hc) as (stem & Hs & Hvs & Hr).
  exists stem. unfold output_path. rewrite Hrel, Hr, basename_join.
  - by rewrite last_snoc.
  - by destruct dirs.
  - apply Forall_app in Hv as [Hd _]. apply Forall_app. split; [done|].
    by constructor.
Qed.

(** The outputs of an image and of a video never coincide. *)
Lemma image_video_outputs_differ (dir : string) (f v : MediaFile) :
  output_named dir f -> output_named dir v ->
  type f = image -> type v = video ->
  output_path dir f <> output_path dir v.
Proof.
  intros [s1 H1] [s2 H2] Hf Hv E. rewrite E, Hf in H1. rewrite Hv in H2.
  rewrite H1 in H2. by apply image_video_names_differ in H2.
Qed.

Lemma loaded_output_named (env : Env) (dir : string) (f : MediaFile) :
  output_named dir f -> output_named dir (loaded env f).
Proof.
  intros [stem H]. exists stem.
  destruct (loaded_same env f) as (Ht & _ & Hr & _).
  unfold output_path in *. by rewrite Ht, Hr.
Qed.

Lemma filter_load_ok (env : Env) (l : list MediaFile) :
  Forall (load_ok env)
    (List.filter (fun m => MediaType_eqb (type m) image) l) ->
  Forall (load_ok env) l.
Proof.
  rewrite !List.Forall_forall. intros H f Hf.
  destruct (type f) eqn:Ht.
  - apply H, List.filter_In. by rewrite Ht.
  - unfold load_ok, load_dimensions. rewrite Ht. by eexists.
Qed.

(** C8 (as amended).  On a well-formed folder, whenever the run of part_001
    completes and the totals stay within 2^53, the interactive run of
    part_000 with the same answers completes too, leaves the same output
    files with the same contents, and reports the same [totalOriginal] and
    [totalCompressed]. *)
Theorem C8_refactoring_preserves_results (env : Env) (folderPath : string)
  (tree : list Dirent) (s1 : State) :
  wf_tree tree = true ->
  Monolith.program env folderPath tree initial = (Ok tt, s1) ->
  sum_Z (List.map size (Monolith.findMedia env folderPath folderPath tree))
    <= 2 ^ 53 ->
  sum_Z (List.map (output_size env) (encodes s1)) <= 2 ^ 53 ->
  exists s2,
    Refactored.program env false folderPath tree initial = (Ok tt, s2) /\
    files s2 = files s1 /\
    exists o c p1 p2,
      summary_of (trace s1) = Some (o, c, p1) /\
      summary_of (trace s2) = Some (o, c, p2).
Proof.
  intros Hwf Hp Hb1 Hb2. rewrite findMedia_agree in Hb1.
  pose proof (findMedia_size_nonneg env folderPath folderPath tree) as Hnn.
  (* the run of part_001 *)
  pose proof Hp as Hm. apply catch_ok in Hm.
  pose proof (Monolith_main_run env folderPath tree) as Hrun.
  rewrite Hm in Hrun. apply observe_inv in Hrun as (Ho & Ht & Hf & Hs).
  simpl in Ho, Ht, Hf, Hs. unfold Monolith_run in *.
  rewrite findMedia_agree in *.
  set (all := Refactored.findMedia env folderPath folderPath tree) in *.
  set (dir := outputDir_of folderPath) in *.
  destruct (Nat.eqb (List.length all) 0) eqn:Hne; [done|].
  set (images0 := List.filter (fun m => MediaType_eqb (type m) image) all)
    in *.
  set (videos0 := List.filter (fun m => MediaType_eqb (type m) video) all)
    in *.
  destruct (load_all env images0) as [[e|images] ic] eqn:Hli; [done|].
  destruct (load_all env videos0) as [[e|videos] vc] eqn:Hlv; [done|].
  pose proof (load_all_inv env images0) as Hii. rewrite Hli in Hii.
  destruct Hii as [-> _].
  pose proof (load_all_inv env videos0) as Hvv. rewrite Hlv in Hvv.
  destruct Hvv as [-> _].
  destruct (load_all_loaded _ _ _ _ Hli) as [-> Hoki].
  destruct (load_all_loaded _ _ _ _ Hlv) as [-> _].
  apply filter_load_ok in Hoki.
  destruct (selectMode env) as [|mode] eqn:Hmode; [done|].
  rewrite <- !List.map_app in Ho, Ht, Hf, Hs. subst images0 videos0.
  fold (images_first all) in Ho, Ht, Hf, Hs.
  rewrite <- images_first_map_loaded in Ho, Ht, Hf, Hs.
  set (L := List.map (loaded env) all) in *.
  symmetry in Ho. destruct (finish_ok _ _ _ Ho) as (t1 & Hok & Hsum).
  rewrite Hsum in Hs. unfold finish in Ht, Hf. simpl in Ht, Hf.
  destruct (process env mode dir (images_first L) (0, 0) ∅)
    as [[o1 calls1] fs1] eqn:Hp1.
  simpl in Hok, Ht, Hf. subst o1 fs1.
  pose proof (process_ok_goes_through _ _ _ _ _ _ _ _ _ Hp1) as Hgo.
  rewrite (process_complete _ _ _ _ _ _ Hgo) in Hp1.
  injection Hp1 as Ht1 Hc1 Hf1.
  apply (proj1 (images_first_Forall L)) in Hgo.
  (* the encoding calls of part_001's run *)
  assert (encodes s1 = calls1) as He1.
  { rewrite encodes_tools, Ht, !List.filter_app.
    rewrite dimension_calls_not_encodes. simpl. subst calls1.
    clear. induction (images_first L) as [|f l IH]; [done|]. simpl.
    unfold call_of at 1.
    destruct (chosen_width env mode (file_info f));
      by rewrite is_encode_call, IH. }
  rewrite He1 in Hb2.
  (* the run of part_000 *)
  assert (process env mode dir
            (match mode with fast => all | custom => L end) (0, 0) ∅ =
          process env mode dir L (0, 0) ∅) as HpL.
  { destruct mode; [|done]. symmetry. apply process_fast_loaded. }
  pose proof (Refactored_main_run env false folderPath tree) as Hrun2.
  unfold Refactored_run in Hrun2. fold all dir in Hrun2.
  rewrite Hne, Hmode in Hrun2.
  assert (observe (Refactored.main env false folderPath tree initial) =
          finish (fun o c => OneMinusRatio c o)
            (match mode with
             | fast => []
             | custom => List.map dimension_call all
             end)
            (process env mode dir L (0, 0) ∅)) as Hobs.
  { rewrite Hrun2. destruct mode.
    - by rewrite <- HpL.
    - by rewrite (load_all_complete _ _ Hoki). }
  clear Hrun2 HpL.
  rewrite (process_complete _ _ _ _ _ _ Hgo) in Hobs.
  apply observe_inv in Hobs as (Ho2 & _ & Hf2 & Hs2).
  unfold finish in Ho2, Hf2, Hs2. simpl in Ho2, Hf2, Hs2.
  exists (Refactored.main env false folderPath tree initial).2.
  split.
  { unfold Refactored.program. rewrite catch_run.
    destruct (Refactored.main env false folderPath tree initial)
      as [[[]|?|?] ?]; done. }
  (* the same files *)
  assert (forall f, In f L -> output_named dir f) as Hnamed.
  { intros f Hin. apply in_map_iff in Hin as (f0 & <- & Hin).
    apply loaded_output_named. by eapply found_output_named. }
  split.
  { rewrite Hf2, <- Hf1. symmetry. apply write_images_first.
    intros f v Hin1 Hin2. apply image_video_outputs_differ; auto. }
  (* the same totals *)
  assert (List.map size L = List.map size all) as HsL.
  { subst L. rewrite List.map_map. apply List.map_ext. intros f.
    by destruct (loaded_same env f) as (_ & _ & _ & -> & _). }
  assert (sum_Z (List.map (output_size env)
                   (List.map (call_of env mode dir) L)) =
          sum_Z (List.map (output_size env) calls1)) as Hperm.
  { rewrite <- Hc1, !List.map_map. symmetry.
    apply (images_first_sum
             (fun f => output_size env (call_of env mode dir f))). }
  assert (Forall (fun x => 0 <= x) (List.map size L)) as HnnL
    by (by rewrite HsL).
  assert (fold_left js_add (List.map size (images_first L)) 0 =
          sum_Z (List.map size all)) as E1.
  { rewrite fold_js_add_exact; rewrite ?images_first_sizes, ?HsL;
      [lia| |lia|lia].
    by apply images_first_nonneg. }
  assert (fold_left js_add (List.map size L) 0 = sum_Z (List.map size all))
    as E2.
  { rewrite fold_js_add_exact; rewrite ?HsL; [lia|done|lia|lia]. }
  assert (fold_left js_add (List.map (output_size env) calls1) 0 =
          sum_Z (List.map (output_size env) calls1)) as E3.
  { rewrite fold_js_add_exact; [lia|apply output_size_nonneg|lia|lia]. }
  assert (fold_left js_add
            (List.map (output_size env) (List.map (call_of env mode dir) L))
            0 = sum_Z (List.map (output_size env) calls1)) as E4.
  { rewrite fold_js_add_exact; rewrite ?Hperm;
      [lia|apply output_size_nonneg|lia|lia]. }
  rewrite Hc1, E1, E3 in Ht1. rewrite E2, E4 in Hs2. subst t1.
  eexists _, _, _, _. split; [exact Hs|exact Hs2].
Qed.

(** On the example folder, in custom mode. *)
Lemma C8_witness :
  exists s2,
    Refactored.program example_env false "pics" example_tree initial =
      (Ok tt, s2) /\
    files s2 =
      files (Monolith.program example_env "pics" example_tree initial).2 /\
    exists o c p1 p2,
      summary_of
        (trace (Monolith.program example_env "pics" example_tree initial).2) =
        Some (o, c, p1) /\
      summary_of (trace s2) = Some (o, c, p2).
Proof.
  apply (C8_refactoring_preserves_results example_env "pics" example_tree
           (Monolith.program example_env "pics" example_tree initial).2).
  - vm_compute. reflexivity.
  - vm_compute. reflexivity.
  - vm_compute. discriminate.
  - vm_compute. discriminate.
Defined.

(** C8, as stated, fails when an encoder fails: part_001 has already written
    the image listed after the failing video, part_000 stops at the video
    and writes nothing. *)
Lemma C8_counterexample :
  let r1 := Monolith.program failing_env "pics" video_first_tree initial in
  let r2 :=
    Refactored.program failing_env false "pics" video_first_tree initial in
  r1.1 = Exited 1 /\ r2.1 = Exited 1 /\
  files r1.2 !! "pics-compressed/i.webp" = Some 10%N /\
  files r2.2 !! "pics-compressed/i.webp" = None /\
  files r2.2 = ∅.
Proof.
  vm_compute. repeat split; reflexivity.
Qed.

(** For a folder given by its name the output folder is its sibling
    [{folder}-compressed]. *)
Lemma outputDir_of_name (n : string) :
  valid_name n = true -> outputDir_of n = n ++ "-compressed".
Proof.
  intros Hv. unfold outputDir_of. rewrite (basename_valid n Hv).
  pose proof (valid_name_no_slash n Hv) as Hns.
  pose proof (valid_name_nonempty n Hv) as Hne.
  assert (Path.dirname n = ".") as ->.
  { unfold Path.dirname. rewrite (segments_no_slash n Hns). simpl.
    rewrite Hne. simpl. destruct n as [|c n]; [done|]. simpl.
    unfold no_slash in Hns. simpl in Hns.
    apply andb_prop in Hns as [Hc _]. apply negb_true_iff in Hc.
    by rewrite Hc. }
  set (m := n ++ "-compressed").
  assert (no_slash m = true) as Hm by (subst m; by rewrite no_slash_app, Hns).
  assert (proper m = true) as Hp.
  { assert (11 <= String.length m)%nat as Hl
      by (subst m; rewrite str_length_app; simpl; lia).
    unfold proper.
    destruct (String.eqb_spec m "") as [E|_];
      [rewrite E in Hl; simpl in Hl; lia|].
    destruct (String.eqb_spec m ".") as [E|_];
      [rewrite E in Hl; simpl in Hl; lia|].
    destruct (String.eqb_spec m "..") as [E|_];
      [rewrite E in Hl; simpl in Hl; lia|done]. }
  assert (String.eqb m "" = false) as Hm0.
  { unfold proper in Hp. repeat (apply andb_prop in Hp as [Hp ?]).
    by apply negb_true_iff in Hp. }
  clearbody m. unfold Path.join. simpl String.eqb at 1. cbv iota. rewrite Hm0.
  change ("." ++ "/" ++ m) with (String "." (String "/" m)).
  cbn [String.eqb Ascii.eqb Bool.eqb]. cbv iota.
  unfold Path.normalize. cbn [String.eqb Path.isAbsolute is_slash Ascii.eqb Bool.eqb negb].
  cbv iota.
  assert (Path.segments (String "." (String "/" m)) = ["."; m]) as Hs.
  { change (String "." (String "/" m)) with ("." ++ "/" ++ m).
    by rewrite segments_app_slash, (segments_no_slash m Hm). }
  unfold Path.normalizeString, Path.normalizeSegments, Path.trailingSeparator.
  rewrite Hs. unfold Path.nstack. simpl fold_left.
  rewrite (nstep_trivial true [] ".") by done. rewrite (nstep_proper _ _ _ Hp). simpl.
  destruct m as [|c m]; [done|]. by cbn.
Qed.

(** ** The totals of a completed run *)

Lemma write_calls_other (env : Env) (calls : list Event) (m : gmap string N)
  (p : string) :
  ~ In p (List.map call_output calls) ->
  fold_left (write_call env) calls m !! p = m !! p.
Proof.
  revert m. induction calls as [|c calls IH]; intros m Hp; [done|].
  simpl in *. rewrite IH by tauto. unfold write_call.
  destruct (encode_result env c) as [[e|sz]|]; try done.
  apply lookup_insert_ne. tauto.
Qed.

Lemma call_for_outputs (env : Env) (mode : Mode) (dir : string)
  (media : list MediaFile) (calls : list Event) :
  Forall2 (call_for env mode dir) media calls ->
  List.map call_output calls = List.map (output_path dir) media.
Proof.
  induction 1 as [|f c media calls (mw & _ & ->) _ IH]; [done|]. simpl.
  by rewrite call_output_call, IH.
Qed.

(** When the output paths are distinct, every output file holds at the end
    what its encoding call wrote. *)
Lemma written_sizes (env : Env) (mode : Mode) (dir : string)
  (media : list MediaFile) (calls : list Event) (m : gmap string N) :
  Forall2 (call_for env mode dir) media calls ->
  Forall (succeeds env) calls ->
  List.NoDup (List.map (output_path dir) media) ->
  List.map
    (fun f =>
       match fold_left (write_call env) calls m !! output_path dir f with
       | Some sz => Z.of_N sz
       | None => 0
       end) media =
  List.map (output_size env) calls.
Proof.
  intros H. revert m.
  induction H as [|f c media calls Hc Hrest IH]; intros m Hs Hnd; [done|].
  inversion Hs as [|? ? [sz Hsz] Hs']; subst.
  inversion Hnd as [|? ? Hnotin Hnd']; subst. simpl.
  rewrite (IH _ Hs' Hnd'). f_equal.
  rewrite write_calls_other.
  - destruct Hc as (mw & _ & ->). unfold write_call, output_size.
    rewrite Hsz, call_output_call. by rewrite lookup_insert_eq.
  - by rewrite (call_for_outputs _ _ _ _ _ Hrest).
Qed.

Lemma same_file_output_paths (dir : string) (l l' : list MediaFile) :
  Forall2 same_file l l' ->
  List.map (output_path dir) l' = List.map (output_path dir) l.
Proof.
  induction 1 as [|f f' l l' (w & h & ->) _ IH]; [done|]. simpl.
  by rewrite IH.
Qed.

Lemma images_first_Permutation (l : list MediaFile) :
  Permutation (images_first l) l.
Proof.
  unfold images_first. induction l as [|f l IH]; [done|]. simpl.
  destruct (type f); simpl.
  - by constructor.
  - rewrite <- Permutation_middle. by constructor.
Qed.

Lemma images_first_outputs_NoDup (dir : string) (l : list MediaFile) :
  List.NoDup (List.map (output_path dir) l) ->
  List.NoDup (List.map (output_path dir) (images_first l)).
Proof.
  apply Permutation_NoDup, Permutation_map, Permutation_sym,
    images_first_Permutation.
Qed.

(** After a completed run whose output paths are distinct, the sizes that the
    encoding calls wrote add up to the sizes of the output files. *)
Lemma completed_file_sizes (env : Env) (mode : Mode) (dir : string)
  (found media : list MediaFile) (totals : Z * Z) (pcalls : list Event)
  (s' : State) :
  Forall2 same_file found media ->
  process env mode dir media (0, 0) ∅ = (Ok totals, pcalls, files s') ->
  List.NoDup (List.map (output_path dir) found) ->
  sum_Z (List.map (output_size env) pcalls) =
  sum_Z (List.map (fun f => file_size s' (output_path dir f)) found).
Proof.
  intros Hsame Hp Hnd.
  pose proof (process_inv env mode dir media (0, 0) ∅) as Hi.
  rewrite Hp in Hi. destruct Hi as (k & Hk & Hfs & -> & Hall & _).
  rewrite firstn_all in Hk.
  rewrite <- (same_file_output_paths dir _ _ Hsame) in Hnd.
  rewrite <- (written_sizes env mode dir media pcalls ∅ Hk Hall Hnd).
  rewrite <- Hfs.
  change (fun f => match files s' !! output_path dir f with
                   | Some sz => Z.of_N sz
                   | None => 0
                   end)
    with (fun f => file_size s' (output_path dir f)).
  rewrite <- !(List.map_map (output_path dir) (file_size s')).
  by rewrite (same_file_output_paths dir _ _ Hsame).
Qed.

(** C5 (as amended).  When a run completes, the summary line carries the
    totals the loop accumulated.  Provided the input sizes and the sizes
    written each add up to at most 2^53, [totalOriginal] is the exact sum of
    the sizes of the media files and [totalCompressed] is the exact sum of
    the sizes that the encoding calls wrote, one per media file (what [stat]
    reports for the output right after the call); part_001's [savings] is
    their difference, and part_000 has no [savings] and derives its
    percentage from the two totals.  When the output paths of the media
    files are pairwise distinct, the sizes written are the sizes of the
    output files at the end of the run, so [totalCompressed] is their
    sum. *)
Theorem C5_totals_are_sums (env : Env) (folderPath : string)
  (tree : list Dirent) :
  let media := Refactored.findMedia env folderPath folderPath tree in
  let sizes := List.map size media in
  let dir := outputDir_of folderPath in
  (forall s',
     Monolith.program env folderPath tree initial = (Ok tt, s') ->
     let outs := List.map (output_size env) (encodes s') in
     List.length outs = List.length media /\
     (sum_Z sizes <= 2 ^ 53 -> sum_Z outs <= 2 ^ 53 ->
      summary_of (trace s') =
        Some (sum_Z sizes, sum_Z outs,
              SavingsOverOriginal (sum_Z sizes - sum_Z outs) (sum_Z sizes))) /\
     (List.NoDup (List.map (output_path dir) media) ->
      sum_Z outs =
      sum_Z (List.map (fun f => file_size s' (output_path dir f)) media))) /\
  (forall cli s',
     Refactored.program env cli folderPath tree initial = (Ok tt, s') ->
     let outs := List.map (output_size env) (encodes s') in
     List.length outs = List.length media /\
     (sum_Z sizes <= 2 ^ 53 -> sum_Z outs <= 2 ^ 53 ->
      summary_of (trace s') =
        Some (sum_Z sizes, sum_Z outs,
              OneMinusRatio (sum_Z outs) (sum_Z sizes))) /\
     (List.NoDup (List.map (output_path dir) media) ->
      sum_Z outs =
      sum_Z (List.map (fun f => file_size s' (output_path dir f)) media))).
Proof.
  intros media sizes dir.
  pose proof (findMedia_size_nonneg env folderPath folderPath tree) as Hnn.
  subst sizes media dir. cbv zeta. split.
  - intros s' Hp.
    destruct (Monolith_completed env folderPath tree s' Hp)
      as (mode & media & totals & pcalls & _ & Hsame & Hproc & Ht & Hs).
    rewrite findMedia_agree in *.
    destruct (completed_encodes _ _ _ _ _ _ _ _ _ Hproc Ht)
      as (He & Hcalls & _ & H1 & H2 & _).
    rewrite He in *. split; [|split].
    + rewrite length_map, <- (Forall2_length _ _ _ Hcalls),
        <- (Forall2_length _ _ _ Hsame).
      apply Permutation_length, images_first_Permutation.
    + intros Hb1 Hb2.
      rewrite (same_file_sizes _ _ Hsame) in H1.
      rewrite fold_js_add_exact in H1, H2;
        rewrite ?images_first_sizes;
        auto using images_first_nonneg, output_size_nonneg; try lia.
      rewrite images_first_sizes in H1. simpl in H1, H2.
      pose proof (sum_Z_nonneg _ Hnn).
      pose proof (sum_Z_nonneg _ (output_size_nonneg env pcalls)).
      rewrite Hs. destruct totals as [o c]. simpl in *. subst o c.
      unfold Monolith.savings, js_sub. rewrite round_exact by lia. done.
    + intros Hnd.
      rewrite (completed_file_sizes _ _ _ _ _ _ _ _ Hsame Hproc)
        by by apply images_first_outputs_NoDup.
      apply (images_first_sum
               (fun f => file_size s' (output_path (outputDir_of folderPath) f))).
  - intros cli s' Hp.
    destruct (Refactored_completed env cli folderPath tree s' Hp)
      as (mode & media & totals & pcalls & _ & Hsame & Hproc & Ht & Hs).
    assert (exists dims, tools s' = (List.map dimension_call dims ++ pcalls)%list)
      as [dims Ht'].
    { destruct mode; [by exists []|by eexists]. }
    destruct (completed_encodes _ _ _ _ _ _ _ _ _ Hproc Ht')
      as (He & Hcalls & _ & H1 & H2 & _).
    rewrite He in *. split; [|split].
    + by rewrite length_map, <- (Forall2_length _ _ _ Hcalls),
        <- (Forall2_length _ _ _ Hsame).
    + intros Hb1 Hb2.
      rewrite (same_file_sizes _ _ Hsame) in H1.
      rewrite fold_js_add_exact in H1, H2;
        auto using output_size_nonneg; try lia.
      simpl in H1, H2. rewrite Hs. destruct totals as [o c]. simpl in *.
      by subst o c.
    + intros Hnd. by apply (completed_file_sizes _ _ _ _ _ _ _ _ Hsame Hproc).
Qed.

(** On the folder that holds a video and an image, in fast mode. *)
Lemma C5_witness :
  let r := Monolith.program fast_env "pics" video_first_tree initial in
  summary_of (trace r.2) = Some (1050, 30, SavingsOverOriginal 1020 1050) /\
  file_size r.2 "pics-compressed/v.mp4" +
  file_size r.2 "pics-compressed/i.webp" = 30.
Proof.
  destruct (C5_totals_are_sums fast_env "pics" video_first_tree) as [H _].
  destruct (H (Monolith.program fast_env "pics" video_first_tree initial).2)
    as (_ & H1 & H2); [vm_compute; reflexivity|].
  split.
  - apply H1; vm_compute; discriminate.
  - assert (List.NoDup
              (List.map (output_path (outputDir_of "pics"))
                 (Refactored.findMedia fast_env "pics" "pics"
                    video_first_tree))) as Hnd.
    { vm_compute. repeat constructor; simpl; intuition discriminate. }
    pose proof (H2 Hnd) as H3. vm_compute in H3. vm_compute. exact H3.
Defined.

(** C5, as stated, fails in two ways.  Beyond 2^53: with files of 2^53
    bytes and of 1 byte the loop computes 2^53 + 1 in floating point, which
    is 2^53.  And when two files share their output path: with [a.jpg] and
    [a.png] the total counts the 111 and the 222 bytes written to [a.webp],
    which holds 222 bytes when the run ends. *)
Lemma C5_counterexample :
  (let r := Monolith.program fast_env "pics" huge_tree initial in
   let sizes :=
     List.map size (Monolith.findMedia fast_env "pics" "pics" huge_tree) in
   r.1 = Ok tt /\ sizes = [9007199254740992; 1] /\
   exists c p,
     summary_of (trace r.2) = Some (9007199254740992, c, p) /\
     9007199254740992 <> sum_Z sizes) /\
  (let r := Refactored.program telling_env true "pics" same_stem_tree
              initial in
   r.1 = Ok tt /\
   summary_of (trace r.2) = Some (150, 333, OneMinusRatio 333 150) /\
   file_size r.2 "pics-compressed/a.webp" = 222 /\
   333 <> 222).
Proof.
  split.
  - vm_compute. split; [reflexivity|]. split; [reflexivity|].
    eexists _, _. split; [reflexivity|]. discriminate.
  - vm_compute. repeat split; try reflexivity. discriminate.
Qed.

(** ** One attempt per file *)

Lemma encode_result_is_encode (env : Env) (e : Event) (x : string + N) :
  encode_result env e = Some x -> is_encode e = true.
Proof. by destruct e. Qed.

Lemma succeed_are_encodes (env : Env) (l : list Event) :
  Forall (succeeds env) l -> List.filter is_encode l = l.
Proof.
  induction 1 as [|e l [sz He] _ IH]; [done|]. simpl.
  by rewrite (encode_result_is_encode _ _ _ He), IH.
Qed.

(** [process] follows the plan. *)
Lemma process_plan (env : Env) (mode : Mode) (dir : string)
  (l : list MediaFile) (t : Z * Z) (fs : gmap string N) :
  let '(o, calls, fs') := process env mode dir l t fs in
  exists done rest,
    List.map (planned env mode dir) l = (List.map Selected done ++ rest)%list /\
    Forall (succeeds env) done /\
    match rest with
    | [] => (exists t', o = Ok t') /\ calls = done
    | Cancelled :: _ => o = Exited 0 /\ calls = done
    | Selected call :: _ =>
        exists msg,
          encode_result env call = Some (inl msg) /\ o = Thrown msg /\
          calls = (done ++ [call])%list
    end.
Proof.
  revert t fs. induction l as [|f l IH]; intros t fs; simpl.
  - exists [], []. repeat split; [constructor|by exists t].
  - unfold planned at 1.
    destruct (chosen_width env mode (file_info f)) as [|mw] eqn:Hw.
    + exists [], (Cancelled :: List.map (planned env mode dir) l).
      repeat split. constructor.
    + pose proof (encode_result_call env dir f mw) as Hr.
      destruct (encoded env dir f mw) as [e|sz] eqn:He.
      * exists [], (Selected (encode_call dir f mw)
                    :: List.map (planned env mode dir) l).
        repeat split; [constructor|]. by exists e.
      * specialize (IH (js_add t.1 (size f), js_add t.2 (Z.of_N sz))
                       (<[output_path dir f := sz]> fs)).
        destruct (process env mode dir l _ _) as [[o calls] fs'].
        destruct IH as (done & rest & Hplan & Hdone & Hrest).
        exists (encode_call dir f mw :: done), rest. simpl.
        rewrite Hplan. split; [done|].
        split; [constructor; [by exists sz|done]|].
        destruct rest as [|[|call] rest'].
        -- destruct Hrest as [Ho ->]. by split.
        -- destruct Hrest as [Ho ->]. by split.
        -- destruct Hrest as (msg & Hm & Ho & ->). by exists msg.
Qed.

(** A run of [main] that reaches the processing loop follows the plan. *)
Lemma finish_follows_plan (env : Env) (mode : Mode) (dir : string)
  (media dims : list MediaFile) (percent : Z -> Z -> Percent)
  (main : M unit) (sink : Sink) :
  observe (main initial) =
    finish percent (List.map dimension_call dims)
      (process env mode dir media (0, 0) ∅) ->
  follows_plan env (List.map (planned env mode dir) media) sink
    (catch main (fun message => print sink (Text message)) initial).
Proof.
  intros Hobs. apply observe_inv in Hobs as (Hout & Htools & _).
  pose proof (process_plan env mode dir media (0, 0) ∅) as Hp.
  destruct (process env mode dir media (0, 0) ∅) as [[o calls] fs'].
  destruct Hp as (done & rest & Hplan & Hdone & Hrest).
  unfold finish in *. simpl in Hout, Htools.
  assert (List.filter is_encode calls = calls ->
          encodes (main initial).2 = calls) as Hen.
  { intros Hc.
    by rewrite encodes_tools, Htools, List.filter_app,
      dimension_calls_not_encodes, Hc. }
  exists done, rest. split; [done|]. split; [done|].
  rewrite catch_run. pose proof (succeed_are_encodes env done Hdone) as Hd.
  destruct rest as [|[|call] rest'].
  - destruct Hrest as [[t' ->] ->].
    destruct (main initial) as [[[]|e|c] s1]; simpl in *; try done.
    split; [done|by apply Hen].
  - destruct Hrest as [-> ->].
    destruct (main initial) as [[[]|e|c] s1]; simpl in *; try done.
    split; [done|by apply Hen].
  - destruct Hrest as (msg & Hm & -> & ->). exists msg.
    destruct (main initial) as [[[]|e|c] s1]; simpl in *; try done.
    injection Hout as ->. split; [done|]. split; [done|].
    rewrite encodes_add_print, last_snoc. split; [|done].
    apply Hen. rewrite List.filter_app, Hd. simpl.
    by rewrite (encode_result_is_encode _ _ _ Hm).
Qed.

Lemma filter_load_ok_type (env : Env) (t : MediaType) (l : list MediaFile) :
  Forall (load_ok env) l ->
  Forall (load_ok env) (List.filter (fun m => MediaType_eqb (type m) t) l).
Proof.
  rewrite !List.Forall_forall. intros H f Hf.
  apply List.filter_In in Hf as [Hf _]. by apply H.
Qed.

Lemma nonempty_length_eqb {A} (l : list A) :
  l <> [] -> Nat.eqb (List.length l) 0 = false.
Proof. by destruct l. Qed.

Lemma Monolith_follows_plan (env : Env) (folderPath : string)
  (tree : list Dirent) (mode : Mode) :
  let media := Monolith.findMedia env folderPath folderPath tree in
  media <> [] -> Forall (load_ok env) media ->
  selectMode env = Selected mode ->
  follows_plan env
    (List.map (planned env mode (outputDir_of folderPath))
       (List.map (loaded env) (images_first media)))
    ClackError (Monolith.program env folderPath tree initial).
Proof.
  intros media Hne Hload Hmode. unfold Monolith.program.
  apply (finish_follows_plan env mode _ _ (images_first media)
           (fun o c => SavingsOverOriginal (Monolith.savings o c) o)).
  rewrite Monolith_main_run. unfold Monolith_run. fold media.
  rewrite (nonempty_length_eqb _ Hne).
  rewrite (load_all_complete env _ (filter_load_ok_type env image _ Hload)).
  rewrite (load_all_complete env _ (filter_load_ok_type env video _ Hload)).
  rewrite Hmode. unfold images_first. by rewrite !List.map_app.
Qed.

Lemma Refactored_follows_plan (env : Env) (cli : bool) (folderPath : string)
  (tree : list Dirent) (mode : Mode) :
  let media := Refactored.findMedia env folderPath folderPath tree in
  media <> [] ->
  (if cli then Selected fast else selectMode env) = Selected mode ->
  (mode = custom -> Forall (load_ok env) media) ->
  follows_plan env
    (List.map (planned env mode (outputDir_of folderPath))
       match mode with
       | fast => media
       | custom => List.map (loaded env) media
       end)
    ConsoleError (Refactored.program env cli folderPath tree initial).
Proof.
  intros media Hne Hmode Hload. unfold Refactored.program.
  destruct mode.
  - apply (finish_follows_plan env fast _ _ []
             (fun o c => OneMinusRatio c o)).
    rewrite Refactored_main_run. unfold Refactored_run. fold media.
    by rewrite (nonempty_length_eqb _ Hne), Hmode.
  - apply (finish_follows_plan env custom _ _ media
             (fun o c => OneMinusRatio c o)).
    rewrite Refactored_main_run. unfold Refactored_run. fold media.
    rewrite (nonempty_length_eqb _ Hne), Hmode.
    by rewrite (load_all_complete env _ (Hload eq_refl)).
Qed.

Lemma loop_plan_run {A} (env : Env) (body : nat -> A -> Z * Z -> M (Z * Z))
  (plan : A -> Answer Event) :
  (forall i x t s, step_follows env (plan x) (body i x t s) s) ->
  forall l i t s,
    loop_follows env (List.map plan l) (for_each body i l t s) s.
Proof.
  intros Hbody. induction l as [|x l IH]; intros i t s.
  - exists [], [], []. simpl. rewrite app_nil_r.
    repeat split; [constructor|by exists t].
  - rewrite for_each_cons. destruct (Hbody i x t s) as (evs & Htr & H).
    simpl List.map. destruct (plan x) as [|call] eqn:Hplan.
    + destruct H as [Ho He].
      exists evs, [], (Cancelled :: List.map plan l).
      destruct (body i x t s) as [[a|e|c] s']; simpl in *; done.
    + destruct H as [He H].
      destruct (encode_result env call) as [[msg|sz]|] eqn:Hr; [| |done].
      * exists evs, [], (Selected call :: List.map plan l).
        destruct (body i x t s) as [[a|e|c] s']; simpl in *; try done.
        injection H as ->. repeat split; try done; try constructor.
        by exists msg.
      * destruct H as [t' Ho].
        destruct (body i x t s) as [[a|e|c] s']; simpl in *; try done.
        destruct (IH (S i) a s') as (evs' & done & rest & Htr' & Hp & Hd & Hrest).
        exists (evs ++ evs')%list, (call :: done), rest.
        rewrite Htr', Htr, <- app_assoc. split; [done|]. simpl.
        rewrite Hp. split; [done|].
        split; [constructor; [by exists sz|done]|].
        rewrite List.filter_app, He. simpl.
        destruct rest as [|[|call'] rest'].
        -- destruct Hrest as [Ho' ->]. by split.
        -- destruct Hrest as [Ho' ->]. by split.
        -- destruct Hrest as (msg & Hm & Ho' & ->). by exists msg.
Qed.

Lemma Legacy_fast_step_follows (env : Env) (dir : string) (n i : nat)
  (img : Legacy.ImageFile) (totals : Z * Z) (s : State) :
  step_follows env (Legacy_planned env fast dir img)
    (Legacy.fast_step env dir n i img totals s) s.
Proof.
  destruct totals as [o c], s as [tr fs sp].
  unfold step_follows, Legacy_planned, Legacy_encode_call,
    Legacy_output_path, encode_result.
  change (0 <? 0) with false. cbv iota. run_monad. split_oracles.
  all: cbv beta iota zeta delta [trace files spinnerStarted fst snd];
    rewrite ?lookup_insert_eq;
    eexists; (split; [rewrite <- ?app_assoc; reflexivity|]); simpl;
    split; [done|]; by eauto.
Qed.

Lemma Legacy_custom_step_follows (env : Env) (dir : string) (i : nat)
  (img : Legacy.ImageFile) (totals : Z * Z) (s : State) :
  step_follows env (Legacy_planned env custom dir img)
    (Legacy.custom_step env dir i img totals s) s.
Proof.
  destruct totals as [o c], s as [tr fs sp].
  unfold step_follows, Legacy_planned, Legacy_encode_call,
    Legacy_output_path, encode_result.
  run_monad.
  destruct (selectMaxWidth env (Legacy.file_info img)) as [|choice].
  - eexists. simpl. split; [rewrite <- ?app_assoc; reflexivity|]. done.
  - cbv beta iota zeta. split_oracles.
    all: cbv beta iota zeta delta [trace files spinnerStarted fst snd];
      rewrite ?lookup_insert_eq;
      eexists; (split; [rewrite <- ?app_assoc; reflexivity|]); simpl;
      split; [done|]; by eauto.
Qed.

Lemma Legacy_load_run (env : Env) (images : list Legacy.ImageFile)
  (s : State) :
  Forall (Legacy_load_ok env) images ->
  map_each (fun img =>
    let* md := metadata env (Legacy.path img) in
    ret (Legacy.with_dimensions img md.1 md.2)) images s =
  (Ok (List.map (Legacy_loaded env) images),
   add_events (List.map (fun img => ESharpMetadata (Legacy.path img)) images)
     s).
Proof.
  intros H. revert s. induction H as [|img images [md Hmd] _ IH]; intros s.
  - unfold add_events. simpl. rewrite app_nil_r. by destruct s.
  - rewrite map_each_cons, bind_run, metadata_run, Hmd. cbv beta iota.
    rewrite ret_run. cbv beta iota. rewrite IH, add_events_add. cbn [List.map].
    unfold Legacy_loaded. by rewrite Hmd.
Qed.

Lemma metadata_calls_not_encodes (images : list Legacy.ImageFile) :
  List.filter is_encode
    (List.map (fun img => ESharpMetadata (Legacy.path img)) images) = [].
Proof. induction images; simpl; auto. Qed.

Lemma Legacy_follows_plan (env : Env) (folderPath : string)
  (tree : list Dirent) (mode : Mode) :
  let images := Legacy.findImages env folderPath folderPath tree in
  images <> [] -> Forall (Legacy_load_ok env) images ->
  selectMode env = Selected mode ->
  follows_plan env
    (List.map (Legacy_planned env mode (outputDir_of folderPath))
       (List.map (Legacy_loaded env) images))
    ClackError (Legacy.program env folderPath tree initial).
Proof.
  intros images Hne Hload Hmode.
  unfold Legacy.program, Legacy.main, outputDir_of. fold images.
  rewrite catch_run, (nonempty_length_eqb _ Hne).
  set (dir := Path.join _ _). cbv beta iota zeta.
  rewrite bind_run, ret_run. cbv beta iota.
  rewrite bind_run, (Legacy_load_run env images _ Hload). cbv beta iota.
  set (loaded := List.map (Legacy_loaded env) images).
  do 2 mstep. rewrite Hmode. cbv beta iota. mstep.
  rewrite bind_run.
  assert (forall s0 : State,
    exists evs s1 o,
      (match mode with
       | fast =>
           print SpinnerStart (Text "Processing...") ;;;
           let* totals :=
             for_each (Legacy.fast_step env dir (List.length loaded)) 0%nat
               loaded (0, 0) in
           print SpinnerStop (Text "Done!") ;;; ret totals
       | custom => for_each (Legacy.custom_step env dir) 0%nat loaded (0, 0)
       end) s0 = (o, s1) /\
      trace s1 = (trace s0 ++ evs)%list /\
      exists done rest,
        List.map (Legacy_planned env mode dir) loaded =
          (List.map Selected done ++ rest)%list /\
        Forall (succeeds env) done /\
        match rest with
        | [] => (exists totals, o = Ok totals) /\
                List.filter is_encode evs = done
        | Cancelled :: _ => o = Exited 0 /\ List.filter is_encode evs = done
        | Selected call :: _ =>
            exists msg,
              encode_result env call = Some (inl msg) /\ o = Thrown msg /\
              List.filter is_encode evs = (done ++ [call])%list
        end) as Hloop.
  { intros s0. destruct mode.
    - mstep. rewrite bind_run.
      destruct (loop_plan_run env
                  (Legacy.fast_step env dir (List.length loaded))
                  (Legacy_planned env fast dir)
                  (Legacy_fast_step_follows env dir (List.length loaded))
                  loaded 0%nat (0, 0)
                  (add_events [EPrint SpinnerStart "" (Text "Processing...")]
                     s0))
        as (evs & done & rest & Htr & Hp & Hd & Hrest).
      destruct (for_each _ _ _ _ _) as [[t|e|c] s1]; simpl in Htr, Hrest.
      + do 2 mstep.
        exists ([EPrint SpinnerStart "" (Text "Processing...")] ++ evs
                ++ [EPrint SpinnerStop "" (Text "Done!")])%list.
        eexists _, _. split; [reflexivity|]. simpl. rewrite Htr.
        split; [by rewrite <- !app_assoc|].
        exists done, rest. split; [done|]. split; [done|].
        rewrite List.filter_app. simpl. rewrite app_nil_r.
        destruct rest as [|[|call] rest']; try done.
      + exists ([EPrint SpinnerStart "" (Text "Processing...")] ++ evs)%list.
        eexists _, _. split; [reflexivity|]. rewrite Htr.
        split; [by rewrite <- !app_assoc|].
        exists done, rest. split; [done|]. split; [done|]. done.
      + exists ([EPrint SpinnerStart "" (Text "Processing...")] ++ evs)%list.
        eexists _, _. split; [reflexivity|]. rewrite Htr.
        split; [by rewrite <- !app_assoc|].
        exists done, rest. split; [done|]. split; [done|]. done.
    - destruct (loop_plan_run env (Legacy.custom_step env dir)
                  (Legacy_planned env custom dir)
                  (Legacy_custom_step_follows env dir) loaded 0%nat (0, 0) s0)
        as (evs & done & rest & Htr & Hp & Hd & Hrest).
      exists evs. eexists _, _. split; [apply surjective_pairing|].
      split; [done|]. by exists done, rest. }
  match goal with
  | |- context [(match mode with fast => _ | custom => _ end) ?s0] =>
      destruct (Hloop s0) as (evs & s1 & o & -> & Htr & done & rest & Hp & Hd
                              & Hrest);
      assert (encodes s0 = []) as Hpre
  end.
  { unfold encodes. simpl. rewrite !List.filter_app. simpl.
    by rewrite metadata_calls_not_encodes. }
  assert (encodes s1 = List.filter is_encode evs) as Hen.
  { unfold encodes in *. by rewrite Htr, List.filter_app, Hpre. }
  exists done, rest. split; [done|]. split; [done|].
  destruct rest as [|[|call] rest'].
  - destruct Hrest as [[[to tc] ->] He]. cbv beta iota zeta.
    repeat mstep. unfold encodes at 1. simpl. rewrite ?List.filter_app.
    simpl. rewrite ?app_nil_r. try (split; [done|]).
    exact (eq_trans Hen He).
  - destruct Hrest as [-> He]. cbv beta iota. split; [done|].
    exact (eq_trans Hen He).
  - destruct Hrest as (msg & Hm & -> & He). cbv beta iota. exists msg.
    split; [done|]. split; [done|].
    cbn [fst snd]. rewrite encodes_add_print.
    split; [exact (eq_trans Hen He)|]. simpl. by rewrite last_snoc.
Qed.



(** ** Where the outputs go *)

(** The output of a found file sits below the output folder at the place the
    file has below the input folder, with the extension replaced. *)
Lemma output_mirrors_input (env : Env) (base dir : string)
  (tree : list Dirent) (f : MediaFile) :
  wf_tree tree = true ->
  In f (Refactored.findMedia env base base tree) ->
  exists dirs stem,
    relativePath f =
      Path.unsegments (dirs ++ [stem ++ Path.extname (name f)]) /\
    Path.relative (cwd env) dir (output_path dir f) =
      Path.unsegments (dirs ++ [stem ++ Refactored.output_ext (type f)]).
Proof.
  intros Hwf Hin.
  destruct (found_file env base tree f Hwf Hin)
    as (dirs & n & sz & _ & Hv & Hc & Hn & _ & _ & Hr).
  destruct (output_relative dirs n (type f) Hv Hc) as (stem & E & Hs & Hx).
  exists dirs, stem. rewrite Hn, <- E. split; [done|].
  unfold output_path. rewrite Hr, Hx.
  assert (Forall (fun x => valid_name x = true)
            (dirs ++ [stem ++ Refactored.output_ext (type f)])) as Hv'.
  { apply Forall_app in Hv as [Hd _]. apply Forall_app. split; [done|].
    by apply List.Forall_cons. }
  apply relative_below; [by destruct dirs|].
  apply resolveSegments_join; [by destruct dirs|done].
Qed.

(** C3.  For the folder path ["."] (the folder the tool is started in) the
    output folder is [".-compressed"], which resolves to a folder inside the
    input folder, not next to it; both programs create it and write the
    outputs there. *)
Theorem C3_output_folder_of_dot :
  outputDir_of "." = ".-compressed" /\
  Path.resolve "/home/u" "." = "/home/u" /\
  Path.resolve "/home/u" (outputDir_of ".") = "/home/u/.-compressed" /\
  Path.dirname (Path.resolve "/home/u" (outputDir_of ".")) =
    Path.resolve "/home/u" "." /\
  (let r := Refactored.program fast_env true "." example_tree initial in
   r.1 = Ok tt /\ In (EMkdir ".-compressed") (trace r.2) /\
   files r.2 !! ".-compressed/a.webp" = Some 10%N /\
   files r.2 !! ".-compressed/sub.d/v.mp4" = Some 20%N) /\
  (let r := Monolith.program fast_env "." example_tree initial in
   r.1 = Ok tt /\ In (EMkdir ".-compressed") (trace r.2) /\
   files r.2 !! ".-compressed/a.webp" = Some 10%N /\
   files r.2 !! ".-compressed/sub.d/v.mp4" = Some 20%N).
Proof.
  vm_compute. repeat split; try reflexivity; tauto.
Qed.

(** * More properties of the three programs *)

(** ** Rules for invariants *)

Lemma hoare_ret {A} (I : State -> Prop) (a : A) (Q : A -> Prop) :
  Q a -> hoare I (ret a) Q.
Proof. by intros Ha s Hs. Qed.

Lemma hoare_throw {A} (I : State -> Prop) (e : string) (Q : A -> Prop) :
  hoare I (throw e) Q.
Proof. by intros s Hs. Qed.

Lemma hoare_exit {A} (I : State -> Prop) (c : Z) (Q : A -> Prop) :
  hoare I (process_exit c) Q.
Proof. by intros s Hs. Qed.

Lemma hoare_bind {A B} (I : State -> Prop) (m : M A) (k : A -> M B)
  (Q : A -> Prop) (R : B -> Prop) :
  hoare I m Q -> (forall a, Q a -> hoare I (k a) R) -> hoare I (bind m k) R.
Proof.
  intros Hm Hk s Hs. destruct (Hm s Hs) as [H1 H2]. unfold bind.
  destruct (m s) as [[a|e|c] s1]; simpl in *; [|done..].
  by apply Hk.
Qed.

Lemma hoare_seq {A B} (I : State -> Prop) (m : M A) (k : A -> M B)
  (R : B -> Prop) :
  hoare I m anything -> (forall a, hoare I (k a) R) -> hoare I (bind m k) R.
Proof. intros Hm Hk. eapply hoare_bind; [exact Hm|]. intros a _. apply Hk. Qed.

Lemma hoare_weaken {A} (I : State -> Prop) (m : M A) (Q R : A -> Prop) :
  hoare I m Q -> (forall a, Q a -> R a) -> hoare I m R.
Proof.
  intros Hm HQ s Hs. destruct (Hm s Hs) as [H1 H2]. split; [done|].
  destruct ((m s).1); auto.
Qed.

Lemma hoare_any {A} (I : State -> Prop) (m : M A) (Q : A -> Prop) :
  hoare I m Q -> hoare I m anything.
Proof. intros H. by eapply hoare_weaken. Qed.

Lemma hoare_for_each {A V} (I : State -> Prop) (body : nat -> A -> V -> M V)
  (l : list A) (i : nat) (acc : V) :
  (forall i x acc, In x l -> hoare I (body i x acc) anything) ->
  hoare I (for_each body i l acc) anything.
Proof.
  revert i acc. induction l as [|x l IH]; intros i acc Hb; simpl.
  - by apply hoare_ret.
  - apply hoare_seq; [apply Hb; by left|]. intros acc'. apply IH.
    intros j y a Hy. apply Hb. by right.
Qed.

Lemma hoare_map_each {A B} (I : State -> Prop) (body : A -> M B)
  (R : A -> B -> Prop) (l : list A) :
  (forall x, In x l -> hoare I (body x) (R x)) ->
  hoare I (map_each body l) (fun l' => Forall2 R l l').
Proof.
  induction l as [|x l IH]; intros Hb; simpl.
  - apply hoare_ret. constructor.
  - eapply hoare_bind; [apply Hb; by left|]. intros y Hy.
    eapply hoare_bind; [apply IH; intros z Hz; apply Hb; by right|].
    intros ys Hys. apply hoare_ret. by constructor.
Qed.

Lemma hoare_catch (I : State -> Prop) (main : M unit)
  (report : string -> M unit) :
  hoare I main anything -> (forall e, hoare I (report e) anything) ->
  hoare I (catch main report) anything.
Proof.
  intros Hm Hr s Hs. destruct (Hm s Hs) as [H1 _]. unfold catch.
  destruct (main s) as [[[]|e|c] s1]; simpl in *; try done.
  assert (hoare I (report e;;; process_exit 1) (@anything unit)) as H.
  { apply hoare_seq; [apply Hr|]. intros _. apply hoare_exit. }
  destruct (H s1 H1) as [H2 _]. split; [done|].
  by destruct ((report e;;; process_exit 1) s1).1.
Qed.

(** What a run started from the initial state leaves behind. *)
Lemma hoare_initial {A} (I : State -> Prop) (m : M A) (Q : A -> Prop) :
  hoare I m Q -> I initial -> I (m initial).2.
Proof. intros H Hi. by destruct (H initial Hi). Qed.

(** *** The primitives and the footprint *)

Section Footprint.
Variables (P : Event -> Prop) (W : string -> Prop).

Lemma footprint_initial : footprint P W initial.
Proof. split; [constructor|]. intros p sz H. simpl in H. by rewrite lookup_empty in H. Qed.

Lemma footprint_emit (e : Event) :
  P e -> hoare (footprint P W) (emit e) anything.
Proof.
  intros He s [Ht Hf]. split; [|done]. split; [|done]. simpl.
  apply Forall_app. split; [done|]. by constructor.
Qed.

Lemma footprint_print (sink : Sink) (m : Msg) :
  P (EPrint sink "" m) -> hoare (footprint P W) (print sink m) anything.
Proof. apply footprint_emit. Qed.

Lemma footprint_mkdir (dir : string) :
  P (EMkdir dir) -> hoare (footprint P W) (mkdir dir) anything.
Proof. apply footprint_emit. Qed.

Lemma footprint_write_file (p : string) (sz : N) :
  W p -> hoare (footprint P W) (write_file p sz) anything.
Proof.
  intros Hp s [Ht Hf]. split; [|done]. split; [done|]. simpl.
  intros q sq Hq. destruct (decide (p = q)) as [<-|Hne]; [done|].
  rewrite lookup_insert_ne in Hq by done. by eapply Hf.
Qed.

Lemma footprint_stat_size (p : string) :
  hoare (footprint P W) (stat_size p) anything.
Proof. intros s Hs. unfold stat_size. by destruct (files s !! p). Qed.

Lemma footprint_toFile (env : Env) (p : Pipeline) (out : string) :
  P (ESharpToFile p out) -> W out ->
  hoare (footprint P W) (toFile env p out) anything.
Proof.
  intros He Hw. unfold toFile. apply hoare_seq; [by apply footprint_emit|].
  intros _. destruct (sharp_toFile env p out).
  - apply hoare_throw.
  - by apply footprint_write_file.
Qed.

Lemma footprint_run_ffmpeg (env : Env) (args : list string) :
  P (EFfmpeg args) -> W (List.last args "") ->
  hoare (footprint P W) (run_ffmpeg env args) anything.
Proof.
  intros He Hw. unfold run_ffmpeg. apply hoare_seq; [by apply footprint_emit|].
  intros _. destruct (ffmpeg env args).
  - apply hoare_throw.
  - by apply footprint_write_file.
Qed.

Lemma footprint_metadata (env : Env) (p : string) :
  P (ESharpMetadata p) -> hoare (footprint P W) (metadata env p) anything.
Proof.
  intros He. unfold metadata. apply hoare_seq; [by apply footprint_emit|].
  intros _. destruct (sharp_metadata env p);
    [apply hoare_throw|by apply hoare_ret].
Qed.

Lemma footprint_getVideoDimensions (env : Env) (p : string) :
  P (EFfprobe p) ->
  hoare (footprint P W) (getVideoDimensions env p) anything.
Proof.
  intros He. unfold getVideoDimensions.
  apply hoare_seq; [by apply footprint_emit|]. intros _. by apply hoare_ret.
Qed.

Lemma footprint_ask (question : string) {A} (answer : A) :
  P (EAsk question) ->
  hoare (footprint P W) (emit (EAsk question) ;;; ret answer) anything.
Proof.
  intros He. apply hoare_seq; [by apply footprint_emit|]. intros _.
  by apply hoare_ret.
Qed.

Lemma footprint_spinner_get :
  hoare (footprint P W) Refactored.get_spinnerStarted anything.
Proof. by intros s Hs. Qed.

Lemma footprint_spinner_set (b : bool) :
  hoare (footprint P W) (Refactored.set_spinnerStarted b) anything.
Proof. by intros s Hs. Qed.
End Footprint.

(** ** What a run reads, writes and creates *)

Ltac hoare_prim :=
  first
    [ apply hoare_ret; exact I
    | apply hoare_throw
    | apply hoare_exit
    | apply footprint_stat_size
    | apply footprint_spinner_get
    | apply footprint_spinner_set
    | apply footprint_print; first [exact I | reflexivity]
    | apply footprint_mkdir
    | apply footprint_toFile
    | apply footprint_run_ffmpeg
    | apply footprint_metadata
    | apply footprint_getVideoDimensions
    | apply footprint_emit; try first [exact I | reflexivity] ].

Ltac hoare_steps :=
  repeat first
    [ hoare_prim
    | apply hoare_seq; [|intros ?]
    | match goal with
      | |- hoare _ (if ?b then _ else _) _ => destruct b
      end ].

Section Footprints.
Variables (env : Env) (inputs outputs dirs : list string) (dir : string).

Local Abbreviation Inv :=
  (footprint (touches_only inputs outputs dirs) (fun p => In p outputs)).

(** A file whose path is an input and whose output path is an output. *)
Local Abbreviation known :=
  (fun f : MediaFile =>
     In (path f) inputs /\ In (output_path dir f) outputs /\
     In (Path.dirname (output_path dir f)) dirs).

Lemma Refactored_processFile_footprint (f : MediaFile) (mw : option Z) :
  known f -> hoare Inv (Refactored.processFile env f dir mw) anything.
Proof.
  intros (Hi & Ho & Hd). unfold Refactored.processFile.
  fold (output_path dir f).
  unfold Refactored.compressImage, Refactored.compressVideo.
  destruct (type f); hoare_steps; simpl; rewrite ?ffmpeg_args_last; auto.
  - split; [|done]. exists (path f). split; [|done].
    by destruct (positive_width mw).
  - split; [|done]. exists (path f). split; [|done].
    apply (ffmpeg_args_input (path f) (output_path dir f) mw).
Qed.

Lemma logger_footprint (cli : bool) (m : Msg) :
  hoare Inv (Refactored.info (Refactored.createLogger cli) m) anything /\
  hoare Inv (Refactored.error (Refactored.createLogger cli) m) anything /\
  hoare Inv (Refactored.success (Refactored.createLogger cli) m) anything /\
  hoare Inv (Refactored.progress (Refactored.createLogger cli) m) anything /\
  hoare Inv (Refactored.done (Refactored.createLogger cli)) anything.
Proof.
  destruct cli; simpl; (split; [|split; [|split; [|split]]]); hoare_steps.
Qed.

Lemma Refactored_step_footprint (cli : bool) (mode : Mode) (n i : nat)
  (f : MediaFile) (totals : Z * Z) :
  known f ->
  hoare Inv
    (Refactored.step env (Refactored.createLogger cli) mode dir n i f totals)
    anything.
Proof.
  intros Hf. unfold Refactored.step. destruct totals as [o c].
  apply hoare_seq.
  { destruct mode; [hoare_steps|].
    apply hoare_seq; [|intros ?; hoare_steps].
    unfold Refactored.getMaxWidthInteractive.
    apply hoare_seq; [hoare_steps|]. intros _.
    apply hoare_seq; [apply footprint_ask; exact I|].
    intros [|choice]; hoare_steps. }
  intros mw. apply hoare_seq; [apply logger_footprint|]. intros _.
  apply hoare_seq; [by apply Refactored_processFile_footprint|]. intros sz.
  apply hoare_seq; [|intros _; hoare_steps].
  destruct mode; [hoare_steps|apply logger_footprint].
Qed.

Lemma loadDimensions_footprint (l : list MediaFile) :
  Forall known l ->
  hoare Inv (Refactored.loadDimensions env l) (Forall known).
Proof.
  intros Hl. unfold Refactored.loadDimensions.
  eapply hoare_weaken.
  - apply (hoare_map_each _ _ (fun f f' => known f')).
    intros f Hf. rewrite List.Forall_forall in Hl.
    destruct (Hl f Hf) as (Hi & Ho & Hd).
    destruct (type f) eqn:Ht.
    + eapply hoare_bind.
      { apply footprint_metadata. split; [by exists (path f)|done]. }
      intros md _. by apply hoare_ret.
    + eapply hoare_bind.
      { apply footprint_getVideoDimensions.
        split; [by exists (path f)|done]. }
      intros md _. by apply hoare_ret.
  - intros l' H. clear -H. induction H; by constructor.
Qed.

Lemma Refactored_main_footprint (cli : bool) (folderPath : string)
  (tree : list Dirent) :
  dir = outputDir_of folderPath -> In dir dirs ->
  Forall known (Refactored.findMedia env folderPath folderPath tree) ->
  hoare Inv (Refactored.program env cli folderPath tree) anything.
Proof.
  intros Edir Hdir Hmedia. unfold Refactored.program.
  apply hoare_catch; [|intros e; hoare_steps].
  unfold Refactored.main. fold (outputDir_of folderPath). rewrite <- Edir.
  set (allMedia := Refactored.findMedia env folderPath folderPath tree) in *.
  apply hoare_seq.
  { destruct (Nat.eqb _ _); [|hoare_steps].
    apply hoare_seq; [apply logger_footprint|]. intros _. hoare_steps. }
  intros _. apply hoare_seq; [apply logger_footprint|]. intros _.
  apply hoare_seq.
  { destruct cli; [hoare_steps|]. unfold Refactored.getModeInteractive.
    apply hoare_seq; [apply footprint_ask; exact I|].
    intros [|mode]; hoare_steps. }
  intros mode.
  apply (hoare_bind _ _ _ (Forall known)).
  { destruct mode; [by apply hoare_ret|by apply loadDimensions_footprint]. }
  intros media Hk. apply hoare_seq; [by apply footprint_mkdir|]. intros _.
  apply hoare_seq.
  { apply hoare_for_each. intros i f acc Hf.
    apply Refactored_step_footprint. rewrite List.Forall_forall in Hk.
    by apply Hk. }
  intros [o c].
  apply hoare_seq; [apply (logger_footprint cli (Text ""))|]. intros _.
  apply hoare_seq; [apply logger_footprint|]. intros _.
  apply hoare_seq; [apply logger_footprint|]. intros _.
  destruct (negb cli); hoare_steps.
Qed.

Lemma Monolith_fast_step_footprint (n i : nat) (f : MediaFile)
  (totals : Z * Z) :
  known f -> hoare Inv (Monolith.fast_step env dir n i f totals) anything.
Proof.
  intros (Hi & Ho & Hd). unfold Monolith.fast_step, output_path in *.
  destruct totals as [o c]. unfold Monolith.compressVideo.
  destruct (type f); simpl in Ho, Hd; hoare_steps; simpl;
    rewrite ?ffmpeg_args_last; auto.
  all: split; [|done]; exists (path f); by split.
Qed.

Lemma Monolith_custom_step_footprint (i : nat) (f : MediaFile)
  (totals : Z * Z) :
  known f -> hoare Inv (Monolith.custom_step env dir i f totals) anything.
Proof.
  intros (Hi & Ho & Hd). unfold Monolith.custom_step, output_path in *.
  destruct totals as [o c]. unfold Monolith.compressVideo.
  apply hoare_seq; [hoare_steps|]. intros _.
  apply hoare_seq; [apply footprint_ask; exact I|].
  intros [|choice]; [hoare_steps|].
  destruct (type f); simpl in Ho, Hd; hoare_steps; simpl;
    rewrite ?ffmpeg_args_last; auto.
  - split; [|done]. exists (path f). split; [|done].
    by destruct (0 <? option_value choice).
  - split; [|done]. exists (path f). split; [|done].
    apply (ffmpeg_args_input (path f)).
Qed.

Lemma Monolith_main_footprint (folderPath : string) (tree : list Dirent) :
  dir = outputDir_of folderPath -> In dir dirs ->
  Forall known (Monolith.findMedia env folderPath folderPath tree) ->
  hoare Inv (Monolith.program env folderPath tree) anything.
Proof.
  intros Edir Hdir Hmedia. unfold Monolith.program.
  apply hoare_catch; [|intros e; hoare_steps].
  unfold Monolith.main. fold (outputDir_of folderPath). rewrite <- Edir.
  set (allMedia := Monolith.findMedia env folderPath folderPath tree) in *.
  apply hoare_seq; [hoare_steps|]. intros _.
  assert (forall t, Forall known
            (List.filter (fun m => MediaType_eqb (type m) t) allMedia))
    as Hfilter.
  { intros t. rewrite List.Forall_forall in *. intros f Hf.
    apply List.filter_In in Hf as [Hf _]. by apply Hmedia. }
  apply (hoare_bind _ _ _ (Forall known)).
  { eapply hoare_weaken.
    - apply (hoare_map_each _ _ (fun f f' => known f')). intros f Hf.
      pose proof (Hfilter image) as Hk. rewrite List.Forall_forall in Hk.
      destruct (Hk f Hf) as (Hi & Ho & Hd). eapply hoare_bind.
      { apply footprint_metadata. split; [by exists (path f)|done]. }
      intros md _. by apply hoare_ret.
    - intros l' H. clear -H. induction H; by constructor. }
  intros images Himages.
  apply (hoare_bind _ _ _ (Forall known)).
  { eapply hoare_weaken.
    - apply (hoare_map_each _ _ (fun f f' => known f')). intros f Hf.
      pose proof (Hfilter video) as Hk. rewrite List.Forall_forall in Hk.
      destruct (Hk f Hf) as (Hi & Ho & Hd). eapply hoare_bind.
      { apply footprint_getVideoDimensions.
        split; [by exists (path f)|done]. }
      intros md _. by apply hoare_ret.
    - intros l' H. clear -H. induction H; by constructor. }
  intros videos Hvideos.
  assert (Forall known (images ++ videos)) as Hall
    by (by apply Forall_app).
  rewrite List.Forall_forall in Hall.
  apply hoare_seq; [hoare_steps|]. intros _.
  apply hoare_seq; [apply footprint_ask; exact I|].
  intros [|mode]; [hoare_steps|].
  apply hoare_seq; [by apply footprint_mkdir|]. intros _.
  apply hoare_seq; [|intros [o c]; hoare_steps].
  destruct mode.
  - apply hoare_seq; [hoare_steps|]. intros _.
    apply hoare_seq; [|intros ?; hoare_steps].
    apply hoare_for_each. intros i f acc Hf.
    apply Monolith_fast_step_footprint. by apply Hall.
  - apply hoare_for_each. intros i f acc Hf.
    apply Monolith_custom_step_footprint. by apply Hall.
Qed.
End Footprints.

Section LegacyFootprint.
Variables (env : Env) (inputs outputs dirs : list string) (dir : string).

Local Abbreviation Inv :=
  (footprint (touches_only inputs outputs dirs) (fun p => In p outputs)).

Local Abbreviation known :=
  (fun img : Legacy.ImageFile =>
     In (Legacy.path img) inputs /\ In (Legacy_output_path dir img) outputs /\
     In (Path.dirname (Legacy_output_path dir img)) dirs).

Lemma Legacy_fast_step_footprint (n i : nat) (img : Legacy.ImageFile)
  (totals : Z * Z) :
  known img -> hoare Inv (Legacy.fast_step env dir n i img totals) anything.
Proof.
  intros (Hi & Ho & Hd). unfold Legacy.fast_step, Legacy_output_path in *.
  destruct totals as [o c]. hoare_steps; simpl; auto.
  split; [|done]. exists (Legacy.path img). by split.
Qed.

Lemma Legacy_custom_step_footprint (i : nat) (img : Legacy.ImageFile)
  (totals : Z * Z) :
  known img -> hoare Inv (Legacy.custom_step env dir i img totals) anything.
Proof.
  intros (Hi & Ho & Hd). unfold Legacy.custom_step, Legacy_output_path in *.
  destruct totals as [o c].
  apply hoare_seq; [hoare_steps|]. intros _.
  apply hoare_seq; [apply footprint_ask; exact I|].
  intros [|choice]; hoare_steps; simpl; auto.
  split; [|done]. exists (Legacy.path img). split; [|done].
  by destruct (0 <? option_value choice).
Qed.

Lemma Legacy_main_footprint (folderPath : string) (tree : list Dirent) :
  dir = outputDir_of folderPath -> In dir dirs ->
  Forall known (Legacy.findImages env folderPath folderPath tree) ->
  hoare Inv (Legacy.program env folderPath tree) anything.
Proof.
  intros Edir Hdir Hmedia. unfold Legacy.program.
  apply hoare_catch; [|intros e; hoare_steps].
  unfold Legacy.main. fold (outputDir_of folderPath). rewrite <- Edir.
  set (allImages := Legacy.findImages env folderPath folderPath tree) in *.
  apply hoare_seq; [hoare_steps|]. intros _.
  apply (hoare_bind _ _ _ (Forall known)).
  { eapply hoare_weaken.
    - apply (hoare_map_each _ _ (fun f f' => known f')). intros f Hf.
      rewrite List.Forall_forall in Hmedia.
      destruct (Hmedia f Hf) as (Hi & Ho & Hd). eapply hoare_bind.
      { apply footprint_metadata.
        split; [by exists (Legacy.path f)|done]. }
      intros md _. by apply hoare_ret.
    - intros l' H. clear -H. induction H; by constructor. }
  intros images Hall. rewrite List.Forall_forall in Hall.
  apply hoare_seq; [hoare_steps|]. intros _.
  apply hoare_seq; [apply footprint_ask; exact I|].
  intros [|mode]; [hoare_steps|].
  apply hoare_seq; [by apply footprint_mkdir|]. intros _.
  apply hoare_seq; [|intros [o c]; hoare_steps].
  destruct mode.
  - apply hoare_seq; [hoare_steps|]. intros _.
    apply hoare_seq; [|intros ?; hoare_steps].
    apply hoare_for_each. intros i f acc Hf.
    apply Legacy_fast_step_footprint. by apply Hall.
  - apply hoare_for_each. intros i f acc Hf.
    apply Legacy_custom_step_footprint. by apply Hall.
Qed.
End LegacyFootprint.

(** X1.  Whatever the tools and the user answer, a run reads only the media
    files that the walk found, writes only output paths of these files, and
    creates only the output folder and parent directories of output
    paths. *)
Theorem runs_touch_only_media (env : Env) (folderPath : string)
  (tree : list Dirent) :
  let dir := outputDir_of folderPath in
  let media := Refactored.findMedia env folderPath folderPath tree in
  let images := Legacy.findImages env folderPath folderPath tree in
  (forall cli,
     media_footprint dir (List.map path media)
       (List.map (output_path dir) media)
       (Refactored.program env cli folderPath tree initial).2) /\
  media_footprint dir (List.map path media)
    (List.map (output_path dir) media)
    (Monolith.program env folderPath tree initial).2 /\
  media_footprint dir (List.map Legacy.path images)
    (List.map (Legacy_output_path dir) images)
    (Legacy.program env folderPath tree initial).2.
Proof.
  intros dir media images. unfold media_footprint.
  assert (Forall (fun f =>
            In (path f) (List.map path media) /\
            In (output_path dir f) (List.map (output_path dir) media) /\
            In (Path.dirname (output_path dir f))
              (dir :: List.map Path.dirname
                        (List.map (output_path dir) media))) media) as Hk.
  { apply List.Forall_forall. intros f Hf. split; [by apply in_map|].
    split; [by apply in_map|]. right. by apply in_map, in_map. }
  split; [|split].
  - intros cli. eapply hoare_initial; [|apply footprint_initial].
    apply (Refactored_main_footprint env _ _ _ dir); [done|by left|exact Hk].
  - eapply hoare_initial; [|apply footprint_initial].
    apply (Monolith_main_footprint env _ _ _ dir); [done|by left|].
    by rewrite findMedia_agree.
  - eapply hoare_initial; [|apply footprint_initial].
    apply (Legacy_main_footprint env _ _ _ dir); [done|by left|].
    apply List.Forall_forall. intros f Hf. split; [by apply in_map|].
    split; [by apply in_map|]. right.
    by apply in_map, (in_map (Legacy_output_path dir)).
Qed.

(** ** CLI mode *)

Lemma cli_logger_footprint (m : Msg) :
  let Inv := footprint (fun e => cli_event e = true) (fun _ => True) in
  hoare Inv (Refactored.info (Refactored.createLogger true) m) anything /\
  hoare Inv (Refactored.error (Refactored.createLogger true) m) anything /\
  hoare Inv (Refactored.success (Refactored.createLogger true) m) anything /\
  hoare Inv (Refactored.progress (Refactored.createLogger true) m) anything /\
  hoare Inv (Refactored.done (Refactored.createLogger true)) anything.
Proof. simpl. (split; [|split; [|split; [|split]]]); hoare_steps. Qed.

Lemma cli_main_footprint (env : Env) (folderPath : string)
  (tree : list Dirent) :
  hoare (footprint (fun e => cli_event e = true) (fun _ => True))
    (Refactored.program env true folderPath tree) anything.
Proof.
  unfold Refactored.program. apply hoare_catch; [|intros e; hoare_steps].
  unfold Refactored.main. cbv beta iota zeta.
  apply hoare_seq.
  { destruct (Nat.eqb _ _); [|hoare_steps].
    apply hoare_seq; [apply cli_logger_footprint|]. intros _. hoare_steps. }
  intros _. apply hoare_seq; [apply cli_logger_footprint|]. intros _.
  apply (hoare_bind _ _ _ (fun mode => mode = fast)).
  { by apply hoare_ret. }
  intros mode ->.
  apply hoare_seq; [hoare_steps|]. intros media.
  apply hoare_seq; [by apply footprint_mkdir|]. intros _.
  apply hoare_seq.
  { apply hoare_for_each. intros i f [o c] _. unfold Refactored.step.
    apply hoare_seq; [hoare_steps|]. intros mw.
    apply hoare_seq; [apply cli_logger_footprint|]. intros _.
    apply hoare_seq; [|intros ?; hoare_steps].
    unfold Refactored.processFile, Refactored.compressImage,
      Refactored.compressVideo.
    destruct (type f); hoare_steps; done. }
  intros [o c].
  apply hoare_seq; [apply (cli_logger_footprint (Text ""))|]. intros _.
  apply hoare_seq; [apply cli_logger_footprint|]. intros _.
  apply hoare_seq; [apply cli_logger_footprint|]. intros _.
  hoare_steps.
Qed.

(** X2.  Started with a folder argument, part_000 never prompts, never
    reads dimensions, and prints only with [console.log], [console.error]
    and [process.stdout.write], whatever happens during the run. *)
Theorem cli_mode_is_noninteractive (env : Env) (folderPath : string)
  (tree : list Dirent) :
  forallb cli_event
    (trace (Refactored.program env true folderPath tree initial).2) = true.
Proof.
  apply forallb_forall, List.Forall_forall.
  eapply (hoare_initial _ _ _ (cli_main_footprint env folderPath tree)).
  apply footprint_initial.
Qed.

(** ** The spinner protocol *)

Lemma triple_ret {A} (P R E : State -> Prop) (a : A) :
  (forall s, P s -> R s) -> triple P (ret a) R E.
Proof. intros H s Hs. by apply H. Qed.

Lemma triple_throw {A} (P R E : State -> Prop) (e : string) :
  (forall s, P s -> E s) -> triple P (@throw A e) R E.
Proof. intros H s Hs. by apply H. Qed.

Lemma triple_exit {A} (P R E : State -> Prop) (c : Z) :
  (forall s, P s -> E s) -> triple P (@process_exit A c) R E.
Proof. intros H s Hs. by apply H. Qed.

Lemma triple_bind {A B} (P R1 R E : State -> Prop) (m : M A) (k : A -> M B) :
  triple P m R1 E -> (forall a, triple R1 (k a) R E) ->
  triple P (bind m k) R E.
Proof.
  intros Hm Hk s Hs. specialize (Hm s Hs). unfold bind.
  destruct (m s) as [[a|e|c] s1]; simpl in *; [|done..].
  by apply Hk.
Qed.

Lemma triple_post {A} (P R R' E : State -> Prop) (m : M A) :
  triple P m R E -> (forall s, R s -> R' s) -> triple P m R' E.
Proof.
  intros Hm H s Hs. specialize (Hm s Hs).
  destruct ((m s).1); auto.
Qed.

Lemma triple_for_each {A V} (I E : State -> Prop)
  (body : nat -> A -> V -> M V) (l : list A) (i : nat) (acc : V) :
  (forall i x acc, triple I (body i x acc) I E) ->
  triple I (for_each body i l acc) I E.
Proof.
  intros Hb. revert i acc. induction l as [|x l IH]; intros i acc; simpl.
  - by apply triple_ret.
  - eapply triple_bind; [apply Hb|]. intros acc'. apply IH.
Qed.

Lemma triple_map_each {A B} (I E : State -> Prop) (body : A -> M B)
  (l : list A) :
  (forall x, triple I (body x) I E) -> triple I (map_each body l) I E.
Proof.
  intros Hb. induction l as [|x l IH]; simpl.
  - by apply triple_ret.
  - eapply triple_bind; [apply Hb|]. intros y.
    eapply triple_bind; [apply IH|]. intros ys. by apply triple_ret.
Qed.

Lemma triple_catch (P R E : State -> Prop) (main : M unit)
  (report : string -> M unit) :
  triple P main R E -> (forall e, triple E (report e) E E) ->
  triple P (catch main report) R E.
Proof.
  intros Hm Hr s Hs. specialize (Hm s Hs). unfold catch.
  destruct (main s) as [[[]|e|c] s1]; simpl in *; try done.
  specialize (Hr e s1 Hm). unfold bind.
  destruct (report e s1) as [[[]|e'|c'] s2]; simpl in *; done.
Qed.

Lemma spinner_state_snoc (l : list Event) (e : Event) :
  spinner_state (l ++ [e]) = spinner_step (spinner_state l) e.
Proof. unfold spinner_state. by rewrite fold_left_app. Qed.

Lemma spinner_step_other (st : option Spinner) (e : Event) :
  negb (is_spinner_event e) = true -> spinner_step st e = st.
Proof. by destruct e as [| | | | | |[] ? ?]. Qed.

Lemma spinner_synced_fine (s : State) : spinner_synced s -> spinner_fine s.
Proof. unfold spinner_synced, spinner_fine. by intros ->. Qed.

Lemma spinner_at_fine (st : Spinner) (s : State) :
  spinner_at st s -> spinner_fine s.
Proof. unfold spinner_at, spinner_fine. by intros ->. Qed.

Lemma spinner_kept_synced : kept_by not_spinner_event spinner_synced.
Proof.
  split; [|done]. intros s e He. unfold spinner_synced. simpl.
  by rewrite spinner_state_snoc, spinner_step_other.
Qed.

Lemma spinner_kept_at (st : Spinner) : kept_by not_spinner_event (spinner_at st).
Proof.
  split; [|done]. intros s e He. unfold spinner_at. simpl.
  by rewrite spinner_state_snoc, spinner_step_other.
Qed.

Lemma spinner_kept_fine : kept_by not_spinner_event spinner_fine.
Proof.
  split; [|done]. intros s e He. unfold spinner_fine. simpl.
  by rewrite spinner_state_snoc, spinner_step_other.
Qed.

Section Kept.
Variables (q : Event -> bool) (I E : State -> Prop).
Hypothesis I_kept : kept_by q I.
Hypothesis I_E : forall s, I s -> E s.

Lemma kept_emit (e : Event) :
  q e = true -> triple I (emit e) I E.
Proof. intros He s Hs. by apply I_kept. Qed.

Lemma kept_print (sink : Sink) (m : Msg) :
  q (EPrint sink "" m) = true -> triple I (print sink m) I E.
Proof. apply kept_emit. Qed.

Lemma kept_mkdir (dir : string) :
  q (EMkdir dir) = true -> triple I (mkdir dir) I E.
Proof. apply kept_emit. Qed.

Lemma kept_ret {A} (a : A) : triple I (ret a) I E.
Proof. by apply triple_ret. Qed.

Lemma kept_throw {A} (e : string) : triple I (@throw A e) I E.
Proof. by apply triple_throw. Qed.

Lemma kept_exit {A} (c : Z) : triple I (@process_exit A c) I E.
Proof. by apply triple_exit. Qed.

Lemma kept_write_file (p : string) (sz : N) : triple I (write_file p sz) I E.
Proof. intros s Hs. by apply I_kept. Qed.

Lemma kept_stat_size (p : string) : triple I (stat_size p) I E.
Proof.
  intros s Hs. unfold stat_size. destruct (files s !! p); simpl; auto.
Qed.

Lemma kept_toFile (env : Env) (p : Pipeline) (out : string) :
  q (ESharpToFile p out) = true -> triple I (toFile env p out) I E.
Proof.
  intros Hq. unfold toFile. eapply triple_bind; [by apply kept_emit|].
  intros _.
  destruct (sharp_toFile env p out);
    [apply kept_throw|apply kept_write_file].
Qed.

Lemma kept_run_ffmpeg (env : Env) (args : list string) :
  q (EFfmpeg args) = true -> triple I (run_ffmpeg env args) I E.
Proof.
  intros Hq. unfold run_ffmpeg. eapply triple_bind; [by apply kept_emit|].
  intros _.
  destruct (ffmpeg env args); [apply kept_throw|apply kept_write_file].
Qed.

Lemma kept_metadata (env : Env) (p : string) :
  q (ESharpMetadata p) = true -> triple I (metadata env p) I E.
Proof.
  intros Hq. unfold metadata. eapply triple_bind; [by apply kept_emit|].
  intros _.
  destruct (sharp_metadata env p); [apply kept_throw|apply kept_ret].
Qed.

Lemma kept_getVideoDimensions (env : Env) (p : string) :
  q (EFfprobe p) = true -> triple I (getVideoDimensions env p) I E.
Proof.
  intros Hq. unfold getVideoDimensions.
  eapply triple_bind; [by apply kept_emit|]. intros _. apply kept_ret.
Qed.

Lemma kept_ask (question : string) {A} (answer : A) :
  q (EAsk question) = true ->
  triple I (emit (EAsk question) ;;; ret answer) I E.
Proof.
  intros Hq. eapply triple_bind; [by apply kept_emit|]. intros _.
  apply kept_ret.
Qed.
End Kept.

Create HintDb kept.
#[local] Hint Resolve spinner_kept_synced spinner_kept_at spinner_kept_fine
  spinner_synced_fine spinner_at_fine : kept.

Ltac kept_side := eauto with kept.

Ltac kept_prim_by q :=
  first
    [ apply kept_ret; solve [kept_side]
    | apply kept_throw; solve [kept_side]
    | apply kept_exit; solve [kept_side]
    | apply triple_exit; solve [kept_side]
    | apply triple_throw; solve [kept_side]
    | apply kept_stat_size; solve [kept_side]
    | apply (kept_mkdir q); [solve [kept_side]..|reflexivity]
    | apply (kept_toFile q); [solve [kept_side]..|reflexivity]
    | apply (kept_run_ffmpeg q); [solve [kept_side]..|reflexivity]
    | apply (kept_metadata q); [solve [kept_side]..|reflexivity]
    | apply (kept_getVideoDimensions q); [solve [kept_side]..|reflexivity]
    | apply (kept_print q); [solve [kept_side]..|reflexivity]
    | apply (kept_emit q); [solve [kept_side]..|reflexivity]
    | apply (kept_ask q); [solve [kept_side]..|reflexivity] ].

Ltac kept_steps_by q :=
  repeat first
    [ kept_prim_by q
    | eapply triple_bind; [|intros ?]
    | match goal with
      | |- triple _ (if ?b then _ else _) _ _ => destruct b
      | |- triple _ (match ?x with Cancelled => _ | Selected _ => _ end) _ _ =>
          destruct x
      end ].

Ltac kept_prim := kept_prim_by not_spinner_event.
Ltac kept_steps := kept_steps_by not_spinner_event.

(** A step of the spinner itself. *)
Lemma spinner_print (a b : Spinner) (sink : Sink) (m : Msg)
  (E : State -> Prop) :
  spinner_step (Some a) (EPrint sink "" m) = Some b ->
  triple (spinner_at a) (print sink m) (spinner_at b) E.
Proof.
  intros H s Hs. unfold spinner_at in *. simpl.
  by rewrite spinner_state_snoc, Hs.
Qed.

Lemma spinner_at_rest_kept : kept_by not_spinner_event spinner_at_rest.
Proof.
  split; [|done]. intros s e He. unfold spinner_at_rest. simpl.
  by rewrite spinner_state_snoc, spinner_step_other.
Qed.

Lemma spinner_at_rest_fine (s : State) : spinner_at_rest s -> spinner_fine s.
Proof. unfold spinner_at_rest, spinner_fine. by intros [-> | ->]. Qed.

(** The interactive logger of part_000 keeps the spinner and its flag in
    step. *)
Lemma interactive_progress (m : Msg) :
  triple spinner_synced
    (Refactored.progress (Refactored.createLogger false) m)
    spinner_synced spinner_fine.
Proof.
  intros [tr fs started] Hs. unfold spinner_synced in *. simpl in *.
  destruct started; simpl; by rewrite spinner_state_snoc, Hs.
Qed.

Lemma interactive_done :
  triple spinner_synced (Refactored.done (Refactored.createLogger false))
    spinner_at_rest spinner_fine.
Proof.
  intros [tr fs started] Hs. unfold spinner_synced, spinner_at_rest in *.
  simpl in *. destruct started; simpl.
  - right. by rewrite spinner_state_snoc, Hs.
  - by left.
Qed.

Lemma interactive_logger_kept (I E : State -> Prop) (m : Msg) :
  kept_by not_spinner_event I -> (forall s, I s -> E s) ->
  triple I (Refactored.info (Refactored.createLogger false) m) I E /\
  triple I (Refactored.error (Refactored.createLogger false) m) I E /\
  triple I (Refactored.success (Refactored.createLogger false) m) I E.
Proof. intros HI HE. simpl. repeat split; (eapply kept_print; [exact HI|reflexivity]). Qed.

Lemma cli_logger_kept (I E : State -> Prop) (m : Msg) :
  kept_by not_spinner_event I -> (forall s, I s -> E s) ->
  triple I (Refactored.info (Refactored.createLogger true) m) I E /\
  triple I (Refactored.error (Refactored.createLogger true) m) I E /\
  triple I (Refactored.success (Refactored.createLogger true) m) I E /\
  triple I (Refactored.progress (Refactored.createLogger true) m) I E /\
  triple I (Refactored.done (Refactored.createLogger true)) I E.
Proof.
  intros HI HE. simpl.
  repeat split;
    first [eapply kept_print; [exact HI|reflexivity]
          |eapply kept_emit; [exact HI|reflexivity]].
Qed.

Lemma processFile_kept (env : Env) (I E : State -> Prop) (f : MediaFile)
  (dir : string) (mw : option Z) :
  kept_by not_spinner_event I -> (forall s, I s -> E s) ->
  triple I (Refactored.processFile env f dir mw) I E.
Proof.
  intros HI HE. unfold Refactored.processFile, Refactored.compressImage,
    Refactored.compressVideo.
  destruct (type f); kept_steps.
Qed.

Lemma loadDimensions_kept (env : Env) (I E : State -> Prop)
  (l : list MediaFile) :
  kept_by not_spinner_event I -> (forall s, I s -> E s) ->
  triple I (Refactored.loadDimensions env l) I E.
Proof.
  intros HI HE. unfold Refactored.loadDimensions. apply triple_map_each.
  intros f. destruct (type f); kept_steps.
Qed.

Lemma getMaxWidthInteractive_kept (env : Env) (I E : State -> Prop)
  (f : MediaFile) :
  kept_by not_spinner_event I -> (forall s, I s -> E s) ->
  triple I (Refactored.getMaxWidthInteractive env f) I E.
Proof.
  intros HI HE. unfold Refactored.getMaxWidthInteractive.
  eapply triple_bind; [kept_prim|]. intros _.
  eapply triple_bind; [kept_prim|]. intros [|choice]; kept_steps.
Qed.

Lemma Refactored_main_spinner (env : Env) (cli : bool) (folderPath : string)
  (tree : list Dirent) :
  triple (fun s => spinner_at Idle s /\ spinner_synced s)
    (Refactored.main env cli folderPath tree) spinner_at_rest spinner_fine.
Proof.
  destruct cli.
  - (* the console logger never touches the spinner *)
    eapply triple_post with (R := spinner_at Idle); [|by left].
    intros s [Hs _]. revert s Hs. change (triple (spinner_at Idle)
      (Refactored.main env true folderPath tree) (spinner_at Idle)
      spinner_fine).
    pose proof (spinner_kept_at Idle) as HI.
    pose proof (spinner_at_fine Idle) as HE.
    unfold Refactored.main. cbv beta iota zeta.
    eapply triple_bind.
    { destruct (Nat.eqb _ _); [|kept_steps].
      eapply triple_bind; [by apply cli_logger_kept|]. intros _. kept_steps. }
    intros _. eapply triple_bind; [by apply cli_logger_kept|]. intros _.
    eapply triple_bind; [kept_steps|]. intros mode.
    eapply triple_bind.
    { destruct mode; [kept_steps|by apply loadDimensions_kept]. }
    intros media. eapply triple_bind; [kept_steps|]. intros _.
    eapply triple_bind.
    { apply triple_for_each. intros i f [o c]. unfold Refactored.step.
      eapply triple_bind.
      { destruct mode; [kept_steps|].
        eapply triple_bind; [by apply getMaxWidthInteractive_kept|].
        intros w. kept_steps. }
      intros mw. eapply triple_bind; [by apply cli_logger_kept|]. intros _.
      eapply triple_bind; [by apply processFile_kept|]. intros sz.
      eapply triple_bind; [|intros _; kept_steps].
      destruct mode; [kept_steps|by apply cli_logger_kept]. }
    intros [o c].
    eapply triple_bind; [by apply (cli_logger_kept _ _ (Text ""))|].
    intros _. eapply triple_bind; [by apply cli_logger_kept|]. intros _.
    eapply triple_bind; [by apply cli_logger_kept|]. intros _. kept_steps.
  - (* the interactive logger keeps the spinner and its flag in step *)
    intros s [_ Hs]. revert s Hs. change (triple spinner_synced
      (Refactored.main env false folderPath tree) spinner_at_rest
      spinner_fine).
    pose proof spinner_kept_synced as HI.
    pose proof spinner_synced_fine as HE.
    pose proof spinner_at_rest_kept as HR.
    pose proof spinner_at_rest_fine as HRE.
    unfold Refactored.main. cbv beta iota zeta.
    eapply triple_bind.
    { destruct (Nat.eqb _ _); [|kept_steps].
      eapply triple_bind; [by apply interactive_logger_kept|]. intros _.
      kept_steps. }
    intros _. eapply triple_bind; [by apply interactive_logger_kept|].
    intros _. eapply triple_bind.
    { unfold Refactored.getModeInteractive.
      eapply triple_bind; [kept_prim|]. intros [|mode]; kept_steps. }
    intros mode. eapply triple_bind.
    { destruct mode; [kept_steps|by apply loadDimensions_kept]. }
    intros media. eapply triple_bind; [kept_steps|]. intros _.
    eapply triple_bind.
    { apply triple_for_each. intros i f [o c]. unfold Refactored.step.
      eapply triple_bind.
      { destruct mode; [kept_steps|].
        eapply triple_bind; [by apply getMaxWidthInteractive_kept|].
        intros w. kept_steps. }
      intros mw. eapply triple_bind; [apply interactive_progress|].
      intros _. eapply triple_bind; [by apply processFile_kept|]. intros sz.
      eapply triple_bind; [|intros _; kept_steps].
      destruct mode; [kept_steps|by apply interactive_logger_kept]. }
    intros [o c]. eapply triple_bind; [apply interactive_done|]. intros _.
    eapply triple_bind; [by apply interactive_logger_kept|]. intros _.
    eapply triple_bind; [by apply interactive_logger_kept|]. intros _.
    simpl. kept_prim.
Qed.

Lemma Monolith_main_spinner (env : Env) (folderPath : string)
  (tree : list Dirent) :
  triple (spinner_at Idle) (Monolith.main env folderPath tree)
    spinner_at_rest spinner_fine.
Proof.
  pose proof (spinner_kept_at Idle) as HI.
  pose proof (spinner_at_fine Idle) as HE.
  pose proof (spinner_kept_at Spinning) as HI'.
  pose proof (spinner_at_fine Spinning) as HE'.
  pose proof spinner_at_rest_kept as HR.
  pose proof spinner_at_rest_fine as HRE.
  unfold Monolith.main. cbv beta iota zeta.
  eapply triple_bind; [kept_steps|]. intros _.
  eapply triple_bind.
  { apply triple_map_each. intros f. kept_steps. }
  intros images. eapply triple_bind.
  { apply triple_map_each. intros f. kept_steps. }
  intros videos. eapply triple_bind; [kept_steps|]. intros _.
  eapply triple_bind; [kept_prim|]. intros [|mode]; [kept_steps|].
  eapply triple_bind; [kept_steps|]. intros _.
  eapply triple_bind with (R1 := spinner_at_rest);
    [|intros [o c]; kept_steps].
  destruct mode.
  - eapply triple_bind; [by apply (spinner_print Idle Spinning)|]. intros _.
    eapply triple_bind.
    { apply triple_for_each. intros i f [o c]. unfold Monolith.fast_step.
      eapply triple_bind; [by apply (spinner_print Spinning Spinning)|].
      intros _. unfold Monolith.compressVideo. destruct (type f); kept_steps. }
    intros totals.
    eapply triple_bind with (R1 := spinner_at Stopped).
    { by apply (spinner_print Spinning Stopped). }
    intros _. apply triple_ret. intros s Hs. by right.
  - eapply triple_post with (R := spinner_at Idle); [|by left].
    apply triple_for_each. intros i f [o c]. unfold Monolith.custom_step.
    eapply triple_bind; [kept_steps|]. intros _.
    eapply triple_bind; [kept_prim|]. intros [|choice]; [kept_steps|].
    unfold Monolith.compressVideo. destruct (type f); kept_steps.
Qed.

Lemma Legacy_main_spinner (env : Env) (folderPath : string)
  (tree : list Dirent) :
  triple (spinner_at Idle) (Legacy.main env folderPath tree)
    spinner_at_rest spinner_fine.
Proof.
  pose proof (spinner_kept_at Idle) as HI.
  pose proof (spinner_at_fine Idle) as HE.
  pose proof (spinner_kept_at Spinning) as HI'.
  pose proof (spinner_at_fine Spinning) as HE'.
  pose proof spinner_at_rest_kept as HR.
  pose proof spinner_at_rest_fine as HRE.
  unfold Legacy.main. cbv beta iota zeta.
  eapply triple_bind; [kept_steps|]. intros _.
  eapply triple_bind.
  { apply triple_map_each. intros f. kept_steps. }
  intros images. eapply triple_bind; [kept_steps|]. intros _.
  eapply triple_bind; [kept_prim|]. intros [|mode]; [kept_steps|].
  eapply triple_bind; [kept_steps|]. intros _.
  eapply triple_bind with (R1 := spinner_at_rest);
    [|intros [o c]; kept_steps].
  destruct mode.
  - eapply triple_bind; [by apply (spinner_print Idle Spinning)|]. intros _.
    eapply triple_bind.
    { apply triple_for_each. intros i f [o c]. unfold Legacy.fast_step.
      eapply triple_bind; [by apply (spinner_print Spinning Spinning)|].
      intros _. kept_steps. }
    intros totals.
    eapply triple_bind with (R1 := spinner_at Stopped).
    { by apply (spinner_print Spinning Stopped). }
    intros _. apply triple_ret. intros s Hs. by right.
  - eapply triple_post with (R := spinner_at Idle); [|by left].
    apply triple_for_each. intros i f [o c]. unfold Legacy.custom_step.
    eapply triple_bind; [kept_steps|]. intros _.
    eapply triple_bind; [kept_prim|]. intros [|choice]; kept_steps.
Qed.

Lemma catch_print_spinner (P : State -> Prop) (main : M unit) (sink : Sink) :
  is_spinner_event (EPrint sink "" (Text "")) = false ->
  triple P main spinner_at_rest spinner_fine ->
  triple P (catch main (fun message => print sink (Text message)))
    spinner_at_rest spinner_fine.
Proof.
  intros Hsink Hm. apply triple_catch; [done|]. intros e.
  eapply kept_print; [apply spinner_kept_fine|by destruct sink].
Qed.

(** X3.  Every run uses the spinner as the prompt library expects: it is
    started at most once, it is given messages and stopped only while it is
    running, and it is not used after it was stopped.  A run that completes
    does not leave the spinner running. *)
Theorem spinner_protocol (env : Env) (folderPath : string)
  (tree : list Dirent) :
  let ok (r : Outcome unit * State) :=
    spinner_state (trace r.2) <> None /\
    (r.1 = Ok tt -> spinner_state (trace r.2) <> Some Spinning) in
  (forall cli, ok (Refactored.program env cli folderPath tree initial)) /\
  ok (Monolith.program env folderPath tree initial) /\
  ok (Legacy.program env folderPath tree initial).
Proof.
  assert (forall (P : State -> Prop) (m : M unit),
            P initial -> triple P m spinner_at_rest spinner_fine ->
            spinner_state (trace (m initial).2) <> None /\
            ((m initial).1 = Ok tt ->
             spinner_state (trace (m initial).2) <> Some Spinning)) as H.
  { intros P m Hi Hm. specialize (Hm initial Hi).
    destruct (m initial) as [[[]|e|c] s]; simpl in *.
    - split; [by apply spinner_at_rest_fine|]. intros _.
      by destruct Hm as [-> | ->].
    - by split.
    - by split. }
  intros ok. split; [|split].
  - intros cli.
    apply (H (fun s => spinner_at Idle s /\ spinner_synced s)); [done|].
    unfold Refactored.program. apply catch_print_spinner; [done|].
    apply Refactored_main_spinner.
  - apply (H (spinner_at Idle)); [done|]. unfold Monolith.program.
    apply catch_print_spinner; [done|]. apply Monolith_main_spinner.
  - apply (H (spinner_at Idle)); [done|]. unfold Legacy.program.
    apply catch_print_spinner; [done|]. apply Legacy_main_spinner.
Qed.

(** ** How a run ends *)

Lemma process_outcome (env : Env) (mode : Mode) (dir : string)
  (l : list MediaFile) (t : Z * Z) (fs : gmap string N) :
  match (process env mode dir l t fs).1.1 with
  | Exited c => c = 0
  | _ => True
  end.
Proof.
  pose proof (process_inv env mode dir l t fs) as H.
  destruct (process env mode dir l t fs) as [[[t'|e|c] calls] fs']; try done.
  simpl. by destruct H as (k & _ & _ & -> & _).
Qed.

Lemma run_ends_well (main : M unit) (sink : Sink) (R : Run) :
  observe (main initial) = R ->
  match outcome R with
  | Ok _ => summary R <> None
  | Thrown _ => summary R = None
  | Exited c => (c = 0 \/ c = 1) /\ summary R = None
  end ->
  ends_well (catch main (fun message => print sink (Text message)) initial).
Proof.
  intros Hobs HR. apply observe_inv in Hobs as (Ho & _ & _ & Hs).
  rewrite catch_run. unfold ends_well.
  destruct (main initial) as [[[]|e|c] s]; simpl in *;
    rewrite <- Ho in HR; rewrite <- Hs in HR.
  - by left.
  - right. split; [by right|]. by rewrite summary_of_app, HR.
  - right. destruct HR as [[-> | ->] HR]; split; auto.
Qed.

Lemma finish_ends (percent : Z -> Z -> Percent) (dcalls : list Event)
  (env : Env) (mode : Mode) (dir : string) (l : list MediaFile) :
  let R := finish percent dcalls (process env mode dir l (0, 0) ∅) in
  match outcome R with
  | Ok _ => summary R <> None
  | Thrown _ => summary R = None
  | Exited c => (c = 0 \/ c = 1) /\ summary R = None
  end.
Proof.
  pose proof (process_outcome env mode dir l (0, 0) ∅) as H.
  unfold finish. simpl.
  destruct (process env mode dir l (0, 0) ∅) as [[[t'|e|c] calls] fs'];
    simpl in *; try done.
  split; [by left|done].
Qed.

(** X4.  A run of part_000 or part_001 ends in one of three ways: it
    completes, and then it has printed the summary line; or it exits with
    status 0 or with status 1, and then it has printed no summary line.  No
    exception escapes [main().catch]. *)
Theorem runs_end_well (env : Env) (folderPath : string) (tree : list Dirent) :
  (forall cli, ends_well (Refactored.program env cli folderPath tree initial)) /\
  ends_well (Monolith.program env folderPath tree initial).
Proof.
  split.
  - intros cli. eapply run_ends_well; [apply Refactored_main_run|].
    unfold Refactored_run. destruct (Nat.eqb _ _); [by split; [right|]|].
    destruct (if cli then Selected fast else selectMode env) as [|[|]].
    + by split; [left|].
    + apply finish_ends.
    + destruct (load_all env _) as [[e|media] calls]; [done|].
      apply finish_ends.
  - eapply run_ends_well; [apply Monolith_main_run|].
    unfold Monolith_run. destruct (Nat.eqb _ _); [by split; [right|]|].
    destruct (load_all env _) as [[e|images] icalls]; [done|].
    destruct (load_all env _) as [[e|videos] vcalls]; [done|].
    destruct (selectMode env) as [|mode]; [by split; [left|]|].
    apply finish_ends.
Qed.

(** ** The output files of a completed run *)

Lemma process_ok_written (env : Env) (mode : Mode) (dir : string)
  (l : list MediaFile) (t t' : Z * Z) (fs fs' : gmap string N)
  (calls : list Event) (p : string) :
  process env mode dir l t fs = (Ok t', calls, fs') ->
  is_Some (fs' !! p) <->
  is_Some (fs !! p) \/ exists f, In f l /\ p = output_path dir f.
Proof.
  revert t fs calls. induction l as [|f l IH]; intros t fs calls; simpl.
  - intros [= _ _ <-]. split; [by left|]. by intros [H|(f & [] & _)].
  - destruct (chosen_width env mode (file_info f)) as [|mw]; [done|].
    destruct (encoded env dir f mw) as [e|sz]; [done|].
    destruct (process env mode dir l _ _) as [[o calls'] fs''] eqn:Hp.
    intros [= -> _ ->]. rewrite (IH _ _ _ Hp). split.
    + intros [H|(g & Hg & ->)].
      * destruct (decide (output_path dir f = p)) as [<-|Hne].
        -- right. exists f. by split; [left|].
        -- left. by rewrite lookup_insert_ne in H.
      * right. exists g. by split; [right|].
    + intros [H|(g & [<-|Hg] & ->)].
      * left. destruct (decide (output_path dir f = p)) as [<-|Hne].
        -- by rewrite lookup_insert_eq.
        -- by rewrite lookup_insert_ne.
      * left. by rewrite lookup_insert_eq.
      * right. by exists g.
Qed.

Lemma same_file_output (dir : string) (l l' : list MediaFile) (p : string) :
  Forall2 same_file l l' ->
  (exists f, In f l' /\ p = output_path dir f) <->
  (exists f, In f l /\ p = output_path dir f).
Proof.
  induction 1 as [|f f' l l' (w & h & ->) _ IH].
  - split; by intros (f & [] & _).
  - split.
    + intros (g & [<-|Hg] & ->); [exists f; by split; [left|]|].
      destruct (proj1 IH) as (g' & Hg' & E); [by exists g|].
      exists g'. by split; [right|].
    + intros (g & [<-|Hg] & ->).
      * exists (with_dimensions f w h). by split; [left|].
      * destruct (proj2 IH) as (g' & Hg' & E); [by exists g|].
        exists g'. by split; [right|].
Qed.

(** X5.  After a run that completes, the files written are exactly the
    output paths of the media files: every media file has its output, and
    nothing else was written. *)
Theorem completed_run_outputs (env : Env) (folderPath : string)
  (tree : list Dirent) (p : string) :
  let media := Refactored.findMedia env folderPath folderPath tree in
  let expected :=
    exists f, In f media /\ p = output_path (outputDir_of folderPath) f in
  (forall cli s',
     Refactored.program env cli folderPath tree initial = (Ok tt, s') ->
     is_Some (files s' !! p) <-> expected) /\
  (forall s',
     Monolith.program env folderPath tree initial = (Ok tt, s') ->
     is_Some (files s' !! p) <-> expected).
Proof.
  intros media expected. split.
  - intros cli s' Hrun.
    destruct (Refactored_completed env cli folderPath tree s' Hrun)
      as (mode & media' & totals & pcalls & _ & Hsame & Hp & _).
    rewrite (process_ok_written _ _ _ _ _ _ _ _ _ p Hp), lookup_empty.
    rewrite (same_file_output _ _ _ p Hsame). split; [|by right].
    by intros [[? [=]]|H].
  - intros s' Hrun.
    destruct (Monolith_completed env folderPath tree s' Hrun)
      as (mode & media' & totals & pcalls & _ & Hsame & Hp & _).
    rewrite (process_ok_written _ _ _ _ _ _ _ _ _ p Hp), lookup_empty.
    rewrite (same_file_output _ _ _ p Hsame), findMedia_agree.
    unfold expected, media. split.
    + intros [[? [=]]|(f & Hf & ->)]. exists f. split; [|done].
      by apply images_first_In.
    + intros (f & Hf & ->). right. exists f. split; [|done].
      by apply images_first_In.
Qed.

(** On the example folder: [a.JPG] and [a.png] share the output
    [a.webp]. *)
Lemma completed_run_outputs_witness :
  is_Some
    (files (Refactored.program example_env true "pics" example_tree
              initial).2 !! "pics-compressed/sub.d/v.mp4").
Proof.
  destruct (completed_run_outputs example_env "pics" example_tree
              "pics-compressed/sub.d/v.mp4") as [H _].
  apply (H true); [vm_compute; reflexivity|].
  exists example_video. split; [|vm_compute; reflexivity].
  vm_compute. tauto.
Defined.

(** ** Normalised folder paths *)

Lemma valid_names_proper (names : list string) :
  Forall (fun n => valid_name n = true) names ->
  Forall (fun n => proper n = true) names.
Proof. intros H. eapply Forall_impl; [exact H|]. apply valid_name_proper. Qed.

Lemma valid_names_no_slash (names : list string) :
  Forall (fun n => valid_name n = true) names ->
  Forall (fun n => no_slash n = true) names.
Proof. intros H. eapply Forall_impl; [exact H|]. apply valid_name_no_slash. Qed.

Lemma valid_names_nontrivial (names : list string) :
  Forall (fun n => valid_name n = true) names ->
  Forall (fun n => nontrivial n = true) names.
Proof.
  intros H. by apply proper_nontrivial, valid_names_proper.
Qed.

Lemma unsegments_app (l1 l2 : list string) :
  l1 ≠ [] -> l2 ≠ [] ->
  Path.unsegments (l1 ++ l2) =
  Path.unsegments l1 ++ "/" ++ Path.unsegments l2.
Proof.
  intros H1 H2. induction l1 as [|x [|y l1] IH]; [done| |].
  - by destruct l2.
  - simpl app in *. rewrite !unsegments_cons2, IH by done.
    by rewrite !append_assoc.
Qed.

Section NormalPath.
Variables (absolute : bool) (names : list string).
Hypothesis names_nonempty : names ≠ [].
Hypothesis names_valid : Forall (fun n => valid_name n = true) names.

Lemma segments_normal_path :
  Path.segments (normal_path absolute names) =
  ((if absolute then [""] else []) ++ names)%list.
Proof.
  pose proof (segments_unsegments names names_nonempty
                (valid_names_no_slash names names_valid)) as Hs.
  unfold normal_path. destruct absolute; [|done].
  by rewrite segments_cons_slash, Hs.
Qed.

Lemma normal_path_body : String.eqb (Path.unsegments names) "" = false.
Proof.
  apply unsegments_nonempty; [done|]. by apply valid_names_nontrivial.
Qed.

Lemma normal_path_nonempty : String.eqb (normal_path absolute names) "" = false.
Proof.
  unfold normal_path. destruct absolute; [done|]. apply normal_path_body.
Qed.

Lemma normal_path_isAbsolute :
  Path.isAbsolute (normal_path absolute names) = absolute.
Proof.
  unfold normal_path. destruct absolute; [done|].
  rewrite <- (append_nil_r (Path.unsegments names)).
  apply unsegments_relative;
    auto using valid_names_nontrivial, valid_names_no_slash.
Qed.

Lemma normal_path_last :
  exists n, last names = Some n /\ str_nonempty n = true /\
    last (Path.segments (normal_path absolute names)) = Some n.
Proof.
  destruct (last names) as [n|] eqn:Hl;
    [|by apply last_None in Hl].
  exists n. split; [done|]. split.
  - apply last_Some in Hl as [l' ->].
    apply Forall_app in names_valid as [_ Hn]. inversion Hn; subst.
    by apply valid_name_nonempty.
  - rewrite segments_normal_path.
    apply last_Some in Hl as [l' ->]. by rewrite app_assoc, last_snoc.
Qed.

Lemma normalize_normal_path :
  Path.normalize (normal_path absolute names) = normal_path absolute names.
Proof.
  unfold Path.normalize. rewrite normal_path_nonempty, normal_path_isAbsolute.
  unfold Path.normalizeString, Path.normalizeSegments, Path.trailingSeparator.
  destruct normal_path_last as (n & _ & Hn & ->).
  rewrite segments_normal_path, nstack_app.
  assert (Path.nstack (negb absolute) []
            (if absolute then [""] else []) = []) as ->
    by (by destruct absolute).
  rewrite nstack_proper by (by apply valid_names_proper).
  rewrite app_nil_r, rev_involutive, normal_path_body.
  destruct n; [done|]. by destruct absolute.
Qed.
End NormalPath.

Lemma join_normal_path (absolute : bool) (names more : list string) :
  names ≠ [] -> more ≠ [] ->
  Forall (fun n => valid_name n = true) names ->
  Forall (fun n => valid_name n = true) more ->
  Path.join (normal_path absolute names) (Path.unsegments more) =
  normal_path absolute (names ++ more).
Proof.
  intros Hn Hm Hvn Hvm. rewrite (join_eq _ more Hm Hvm).
  rewrite (normal_path_nonempty absolute names Hn Hvn).
  rewrite (normal_path_body more Hm Hvm).
  assert (normal_path absolute names ++ "/" ++ Path.unsegments more =
          normal_path absolute (names ++ more)) as ->.
  { unfold normal_path. by rewrite unsegments_app, append_assoc. }
  apply normalize_normal_path; [by destruct names|by apply Forall_app].
Qed.

Lemma join_normal_name (absolute : bool) (names : list string) (x : string) :
  names ≠ [] -> Forall (fun n => valid_name n = true) names ->
  valid_name x = true ->
  Path.join (normal_path absolute names) x = normal_path absolute (names ++ [x]).
Proof.
  intros Hn Hvn Hx.
  apply (join_normal_path absolute names [x]); try done. by constructor.
Qed.

Lemma join_all_normal_path (absolute : bool) (names more : list string) :
  names ≠ [] ->
  Forall (fun n => valid_name n = true) names ->
  Forall (fun n => valid_name n = true) more ->
  join_all (normal_path absolute names) more =
  normal_path absolute (names ++ more).
Proof.
  intros Hn Hvn Hvm. revert names Hn Hvn.
  induction Hvm as [|x more Hx _ IH]; intros names Hn Hvn.
  - by rewrite app_nil_r.
  - unfold join_all in *. simpl. rewrite join_normal_name by done.
    rewrite IH; [by rewrite <- app_assoc|by destruct names|].
    apply Forall_app. split; [done|by constructor].
Qed.

Lemma strip_trailing_empty_last (l : list string) (n : string) :
  last l = Some n -> str_nonempty n = true ->
  Path.strip_trailing_empty l = l.
Proof.
  intros Hl Hn. apply last_Some in Hl as [l' ->].
  induction l' as [|x l' IH]; simpl; [by rewrite Hn|].
  rewrite IH. by destruct (l' ++ [n])%list eqn:E; [destruct l'|].
Qed.

Lemma basename_normal_path (absolute : bool) (dirs : list string)
  (n : string) :
  Forall (fun n => valid_name n = true) (dirs ++ [n]) ->
  Path.basename (normal_path absolute (dirs ++ [n])) = n.
Proof.
  intros Hv. unfold Path.basename.
  rewrite segments_normal_path; [|by destruct dirs|done].
  rewrite List.filter_app.
  rewrite (filter_nonempty_nontrivial (dirs ++ [n]))
    by (by apply valid_names_nontrivial).
  by rewrite app_assoc, last_snoc.
Qed.

Lemma dirname_normal_path (absolute : bool) (dirs : list string)
  (n : string) :
  Forall (fun n => valid_name n = true) (dirs ++ [n]) ->
  Path.dirname (normal_path absolute (dirs ++ [n])) =
  match dirs with
  | [] => if absolute then "/" else "."
  | _ => normal_path absolute dirs
  end.
Proof.
  intros Hv. unfold Path.dirname.
  assert ((dirs ++ [n])%list ≠ []) as Hne by (by destruct dirs).
  rewrite (normal_path_nonempty absolute _ Hne Hv).
  rewrite (normal_path_isAbsolute absolute _ Hne Hv).
  destruct (normal_path_last absolute _ Hne Hv) as (n' & Hl & Hn' & Hs).
  rewrite (strip_trailing_empty_last _ _ Hs Hn').
  rewrite segments_normal_path, app_assoc, removelast_last by done.
  apply Forall_app in Hv as [Hd _].
  destruct dirs as [|d dirs]; [by destruct absolute|].
  inversion Hd as [|? ? Hvd _]; subst.
  apply valid_name_nonempty in Hvd. destruct d as [|c d]; [done|].
  destruct absolute; [|by destruct dirs].
  unfold normal_path. by destruct dirs.
Qed.

Lemma compressed_name_valid (n : string) :
  valid_name n = true -> valid_name (n ++ "-compressed") = true.
Proof.
  intros Hv. pose proof (valid_name_no_slash n Hv) as Hns.
  set (m := n ++ "-compressed").
  assert (11 <= String.length m)%nat as Hl
    by (subst m; rewrite str_length_app; simpl; lia).
  assert (no_slash m = true) as Hm by (subst m; by rewrite no_slash_app, Hns).
  unfold valid_name. rewrite Hm. clearbody m.
  destruct (String.eqb_spec m ".") as [E|_];
    [rewrite E in Hl; simpl in Hl; lia|].
  destruct (String.eqb_spec m "..") as [E|_];
    [rewrite E in Hl; simpl in Hl; lia|].
  destruct m; [simpl in Hl; lia|done].
Qed.

Lemma join_root (m : string) :
  valid_name m = true -> Path.join "/" m = "/" ++ m.
Proof.
  intros Hv. change m with (Path.unsegments [m]) at 1.
  rewrite (join_eq "/" [m]); [|done|by constructor].
  assert (String.eqb (Path.unsegments [m]) "" = false) as ->
    by (apply normal_path_body; [done|by constructor]).
  change (if String.eqb "/" "" then Path.unsegments [m]
          else "/" ++ "/" ++ Path.unsegments [m])
    with (String "/" (normal_path true [m])).
  unfold Path.normalize.
  change (String.eqb (String "/" (normal_path true [m])) "") with false.
  change (Path.isAbsolute (String "/" (normal_path true [m]))) with true.
  cbv iota zeta.
  assert (Path.segments (String "/" (normal_path true [m])) = [""; ""; m])
    as Hs.
  { change (String "/" (normal_path true [m]))
      with ("/" ++ normal_path true [m]).
    rewrite segments_cons_slash, segments_normal_path; [done..|].
    by constructor. }
  unfold Path.normalizeString, Path.normalizeSegments, Path.trailingSeparator.
  rewrite Hs. unfold Path.nstack. simpl fold_left.
  rewrite (nstep_proper _ _ _ (valid_name_proper _ Hv)). simpl.
  apply valid_name_nonempty in Hv. by destruct m.
Qed.

Lemma join_dot (m : string) :
  valid_name m = true -> Path.join "." m = m.
Proof.
  intros Hv. change m with (Path.unsegments [m]) at 1.
  rewrite (join_eq "." [m]); [|done|by constructor].
  assert (String.eqb (Path.unsegments [m]) "" = false) as ->
    by (apply normal_path_body; [done|by constructor]).
  change (if String.eqb "." "" then Path.unsegments [m]
          else "." ++ "/" ++ Path.unsegments [m])
    with (String "." (String "/" m)).
  unfold Path.normalize.
  change (String.eqb (String "." (String "/" m)) "") with false.
  change (Path.isAbsolute (String "." (String "/" m))) with false.
  cbv iota zeta.
  assert (Path.segments (String "." (String "/" m)) = ["."; m]) as Hs.
  { change (String "." (String "/" m)) with ("." ++ "/" ++ m).
    by rewrite segments_app_slash,
         (segments_no_slash m (valid_name_no_slash m Hv)). }
  unfold Path.normalizeString, Path.normalizeSegments, Path.trailingSeparator.
  rewrite Hs. unfold Path.nstack. simpl fold_left.
  rewrite (nstep_trivial true [] ".") by done.
  rewrite (nstep_proper _ _ _ (valid_name_proper _ Hv)). simpl.
  apply valid_name_nonempty in Hv. by destruct m.
Qed.

Lemma outputDir_of_normal (absolute : bool) (names : list string) :
  names ≠ [] -> Forall (fun n => valid_name n = true) names ->
  outputDir_of (normal_path absolute names) =
  normal_path absolute names ++ "-compressed".
Proof.
  intros Hne Hv. destruct (last names) as [n|] eqn:Hl;
    [|by apply last_None in Hl].
  apply last_Some in Hl as [dirs ->]. unfold outputDir_of.
  rewrite basename_normal_path, dirname_normal_path by done.
  pose proof Hv as Hv'. apply Forall_app in Hv' as [Hd Hn].
  inversion Hn as [|? ? Hvn _]; subst.
  pose proof (compressed_name_valid n Hvn) as Hm.
  assert (normal_path absolute (dirs ++ [n]) ++ "-compressed" =
          normal_path absolute (dirs ++ [n ++ "-compressed"])) as ->.
  { unfold normal_path. by rewrite append_assoc, <- unsegments_snoc_app. }
  destruct dirs as [|d dirs].
  - destruct absolute; [by apply join_root|by apply join_dot].
  - change (n ++ "-compressed") with (Path.unsegments [n ++ "-compressed"])
      at 1.
    apply join_normal_path; try done. by constructor.
Qed.

(** X6.  For a normalised folder path (names that are not empty, hold no
    slash and are neither [.] nor [..], separated by single slashes,
    absolute or relative) the output folder is the folder path with
    [-compressed] appended: the sibling of the input folder. *)
Theorem outputDir_of_normal_path (absolute : bool) (names : list string) :
  names ≠ [] -> Forall (fun n => valid_name n = true) names ->
  outputDir_of (normal_path absolute names) =
  normal_path absolute names ++ "-compressed".
Proof. apply outputDir_of_normal. Qed.

Lemma outputDir_of_normal_path_witness :
  outputDir_of "/Users/me/My Photos" = "/Users/me/My Photos-compressed".
Proof.
  apply (outputDir_of_normal_path true ["Users"; "me"; "My Photos"]);
    [done|by repeat constructor].
Defined.

(** ** The paths of the media files and of their outputs *)

Lemma normal_path_app (absolute : bool) (names more : list string) :
  names ≠ [] -> more ≠ [] ->
  normal_path absolute (names ++ more) =
  normal_path absolute names ++ "/" ++ Path.unsegments more.
Proof.
  intros Hn Hm. unfold normal_path. by rewrite unsegments_app, append_assoc.
Qed.

Lemma media_paths_normal (env : Env) (absolute : bool) (names : list string)
  (tree : list Dirent) (f : MediaFile) :
  let folderPath := normal_path absolute names in
  names ≠ [] -> Forall (fun n => valid_name n = true) names ->
  wf_tree tree = true ->
  In f (Refactored.findMedia env folderPath folderPath tree) ->
  path f = folderPath ++ "/" ++ relativePath f /\
  output_path (outputDir_of folderPath) f =
    folderPath ++ "-compressed" ++ "/" ++
    replace_ext (relativePath f) (Refactored.output_ext (type f)).
Proof.
  intros folderPath Hne Hv Hwf Hin.
  destruct (found_file env folderPath tree f Hwf Hin)
    as (dirs & n & sz & _ & Hvn & Hc & _ & _ & Hp & Hr).
  destruct (output_relative dirs n (type f) Hvn Hc) as (stem & _ & Hs & Hx).
  assert ((dirs ++ [n])%list ≠ []) as Hne' by (by destruct dirs).
  split.
  - rewrite Hp, Hr. unfold folderPath.
    rewrite join_all_normal_path by done. by apply normal_path_app.
  - unfold output_path. rewrite Hr, Hx. unfold folderPath.
    rewrite outputDir_of_normal by done.
    destruct (last names) as [m|] eqn:Hl; [|by apply last_None in Hl].
    apply last_Some in Hl as [ds ->].
    assert (normal_path absolute (ds ++ [m]) ++ "-compressed" =
            normal_path absolute (ds ++ [m ++ "-compressed"])) as E.
    { unfold normal_path. by rewrite append_assoc, <- unsegments_snoc_app. }
    rewrite <- append_assoc, E.
    assert (Forall (fun n => valid_name n = true)
              (ds ++ [m ++ "-compressed"])) as Hv'.
    { apply Forall_app in Hv as [Hd Hm]. apply Forall_app. split; [done|].
      inversion Hm; subst. constructor; [|done].
      by apply compressed_name_valid. }
    assert (Forall (fun n => valid_name n = true)
              (dirs ++ [stem ++ Refactored.output_ext (type f)])) as Hv''.
    { apply Forall_app in Hvn as [Hd _]. apply Forall_app. split; [done|].
      by constructor. }
    rewrite join_normal_path; try done; try (by destruct ds);
      try (by destruct dirs).
    apply normal_path_app; [by destruct ds|by destruct dirs].
Qed.

(** X7.  In a normalised input folder, the path of a media file is the
    folder path, a slash, and the file's relative path; its output path is
    the folder path with [-compressed] appended, a slash, and the relative
    path with the last extension replaced.  So the output tree mirrors the
    input tree. *)
Theorem media_paths (env : Env) (absolute : bool) (names : list string)
  (tree : list Dirent) (f : MediaFile) :
  let folderPath := normal_path absolute names in
  names ≠ [] -> Forall (fun n => valid_name n = true) names ->
  wf_tree tree = true ->
  In f (Refactored.findMedia env folderPath folderPath tree) ->
  path f = folderPath ++ "/" ++ relativePath f /\
  output_path (outputDir_of folderPath) f =
    folderPath ++ "-compressed" ++ "/" ++
    replace_ext (relativePath f) (Refactored.output_ext (type f)).
Proof. apply media_paths_normal. Qed.

Lemma media_paths_witness :
  path example_video = "pics" ++ "/" ++ "sub.d/v.mov" /\
  output_path (outputDir_of "pics") example_video =
    "pics" ++ "-compressed" ++ "/" ++ "sub.d/v.mp4".
Proof.
  apply (media_paths example_env false ["pics"] example_tree example_video);
    [done|by repeat constructor|reflexivity|].
  vm_compute. tauto.
Defined.

Lemma differ_after_prefix (a x y : string) (c d : ascii) :
  c <> d -> a ++ String c x <> a ++ String d y.
Proof.
  intros Hcd. induction a as [|b a IH]; simpl; intros [=]; [done|].
  by apply IH.
Qed.

(** X8.  In a normalised input folder no output path is the path of a media
    file of the folder: the run never overwrites one of its inputs. *)
Theorem outputs_are_not_inputs (env : Env) (absolute : bool)
  (names : list string) (tree : list Dirent) (f g : MediaFile) :
  let folderPath := normal_path absolute names in
  let media := Refactored.findMedia env folderPath folderPath tree in
  names ≠ [] -> Forall (fun n => valid_name n = true) names ->
  wf_tree tree = true -> In f media -> In g media ->
  output_path (outputDir_of folderPath) f <> path g.
Proof.
  intros folderPath media Hne Hv Hwf Hf Hg. subst media folderPath.
  destruct (media_paths_normal env absolute names tree f Hne Hv Hwf Hf)
    as [_ ->].
  destruct (media_paths_normal env absolute names tree g Hne Hv Hwf Hg)
    as [-> _].
  by apply differ_after_prefix.
Qed.

Lemma outputs_are_not_inputs_witness :
  output_path (outputDir_of "pics") example_image <> path example_video.
Proof.
  apply (outputs_are_not_inputs example_env false ["pics"] example_tree);
    [done|by repeat constructor|reflexivity|vm_compute; tauto|
     vm_compute; tauto].
Defined.

(** For the folder path ["."] the hypothesis fails, and so does the
    conclusion: on a second run in the same folder the output of [a.png] is
    the media file [.-compressed/a.webp] that the walk has found. *)
Example dot_folder_overwrites_input :
  let tree :=
    [FileEntry "a.png" 50; DirEntry ".-compressed" [FileEntry "a.webp" 10]] in
  let media := Refactored.findMedia example_env "." "." tree in
  List.map path media = ["a.png"; ".-compressed/a.webp"] /\
  List.map (output_path (outputDir_of ".")) media =
    [".-compressed/a.webp"; ".-compressed/.-compressed/a.webp"].
Proof. vm_compute. by split. Qed.

(** ** Reading the dimensions *)

Lemma load_all_fails (env : Env) (l : list MediaFile) (f : MediaFile)
  (e : string) :
  In f l -> load_dimensions env f = inl e ->
  exists e' calls,
    load_all env l = (inl e', calls) /\ List.filter is_encode calls = [].
Proof.
  intros Hf He. pose proof (load_all_inv env l) as Hinv.
  destruct (load_all env l) as [[e'|l'] calls] eqn:Hl.
  - exists e', calls. split; [done|]. destruct Hinv as [k ->].
    apply dimension_calls_not_encodes.
  - apply load_all_loaded in Hl as [_ Hok].
    rewrite List.Forall_forall in Hok. destruct (Hok f Hf) as [f' Hf'].
    by rewrite He in Hf'.
Qed.

Lemma nonempty_length {A} (l : list A) (x : A) :
  In x l -> Nat.eqb (List.length l) 0 = false.
Proof. by destruct l. Qed.

Lemma dimension_calls_of_tools (s : State) :
  List.filter is_dimension_call (trace s) =
  List.filter is_dimension_call (tools s).
Proof.
  unfold tools. induction (trace s) as [|e l IH]; [done|]. simpl.
  destruct e; simpl; by rewrite ?IH.
Qed.

Lemma encode_calls_not_dimension (env : Env) (mode : Mode) (dir : string)
  (l : list MediaFile) (calls : list Event) :
  Forall2 (call_for env mode dir) l calls ->
  List.filter is_dimension_call calls = [].
Proof.
  induction 1 as [|f c l calls (mw & _ & ->) _ IH]; [done|]. simpl.
  rewrite IH. unfold encode_call. by destruct (type f).
Qed.

(** In fast mode part_000 calls no tool that reads dimensions. *)
Lemma fast_mode_reads_no_dimensions (env : Env) (cli : bool)
  (folderPath : string) (tree : list Dirent) :
  (if cli then Selected fast else selectMode env) = Selected fast ->
  List.filter is_dimension_call
    (trace (Refactored.program env cli folderPath tree initial).2) = [].
Proof.
  intros Hmode.
  pose proof (Refactored_main_run env cli folderPath tree) as Hrun.
  unfold Refactored_run in Hrun. rewrite Hmode in Hrun.
  apply observe_inv in Hrun as (_ & Htools & _).
  assert (List.filter is_dimension_call
            (tools (Refactored.main env cli folderPath tree initial).2) = [])
    as Hmain.
  { rewrite Htools.
    destruct (Nat.eqb _ 0); [done|].
    pose proof (process_inv env fast (outputDir_of folderPath)
                  (Refactored.findMedia env folderPath folderPath tree)
                  (0, 0) ∅) as Hi.
    destruct (process _ _ _ _ _ _) as [[o calls] fs].
    destruct Hi as (k & Hk & _). simpl.
    by apply (encode_calls_not_dimension _ _ _ _ _ Hk). }
  rewrite dimension_calls_of_tools. unfold Refactored.program.
  rewrite catch_run.
  destruct (Refactored.main env cli folderPath tree initial)
    as [[[]|e|c] s]; try done.
  simpl. rewrite tools_add_events. simpl. by rewrite app_nil_r.
Qed.



(** ** Cancelling *)

Lemma footprint_ask_answer (P : Event -> Prop) (W : string -> Prop)
  (question : string) {A} (answer : A) :
  P (EAsk question) ->
  hoare (footprint P W) (emit (EAsk question) ;;; ret answer)
    (fun a => a = answer).
Proof.
  intros He. eapply hoare_bind; [by apply footprint_emit|]. intros _ _.
  by apply hoare_ret.
Qed.

Section Cancelled.
Variable env : Env.
Hypothesis cancelled : selectMode env = Cancelled.

Local Abbreviation Idle_inv :=
  (footprint (fun e => idle_event e = true) (fun _ => False)).

Lemma Refactored_cancelled (folderPath : string) (tree : list Dirent) :
  hoare Idle_inv (Refactored.program env false folderPath tree) anything.
Proof.
  unfold Refactored.program. apply hoare_catch; [|intros e; hoare_steps].
  unfold Refactored.main. cbv beta iota zeta. simpl Refactored.createLogger.
  cbv beta iota zeta delta [Refactored.info Refactored.error].
  apply hoare_seq; [hoare_steps|]. intros _.
  apply hoare_seq; [hoare_steps|]. intros _.
  apply (hoare_bind _ _ _ (fun _ : Mode => False)); [|by intros ? []].
  unfold Refactored.getModeInteractive.
  eapply hoare_bind; [by apply footprint_ask_answer|].
  intros a ->. rewrite cancelled. hoare_steps.
Qed.

Lemma Monolith_cancelled (folderPath : string) (tree : list Dirent) :
  hoare Idle_inv (Monolith.program env folderPath tree) anything.
Proof.
  unfold Monolith.program. apply hoare_catch; [|intros e; hoare_steps].
  unfold Monolith.main. cbv beta iota zeta.
  apply hoare_seq; [hoare_steps|]. intros _.
  apply hoare_seq.
  { eapply hoare_any. apply (hoare_map_each _ _ (fun _ _ => True)).
    intros f _. hoare_steps; done. }
  intros images. apply hoare_seq.
  { eapply hoare_any. apply (hoare_map_each _ _ (fun _ _ => True)).
    intros f _. hoare_steps; done. }
  intros videos. apply hoare_seq; [hoare_steps|]. intros _.
  eapply hoare_bind; [by apply footprint_ask_answer|].
  intros a ->. rewrite cancelled. hoare_steps.
Qed.

Lemma Legacy_cancelled (folderPath : string) (tree : list Dirent) :
  hoare Idle_inv (Legacy.program env folderPath tree) anything.
Proof.
  unfold Legacy.program. apply hoare_catch; [|intros e; hoare_steps].
  unfold Legacy.main. cbv beta iota zeta.
  apply hoare_seq; [hoare_steps|]. intros _.
  apply hoare_seq.
  { eapply hoare_any. apply (hoare_map_each _ _ (fun _ _ => True)).
    intros f _. hoare_steps; done. }
  intros images. apply hoare_seq; [hoare_steps|]. intros _.
  eapply hoare_bind; [by apply footprint_ask_answer|].
  intros a ->. rewrite cancelled. hoare_steps.
Qed.
End Cancelled.

(** X10.  When the user cancels the Mode prompt, no program creates a
    directory, runs an encoder or writes a file; part_000, which has called
    no tool by then, exits with status 0. *)
Theorem cancelled_mode_prompt (env : Env) (folderPath : string)
  (tree : list Dirent) :
  selectMode env = Cancelled ->
  let idle (r : Outcome unit * State) :=
    forallb idle_event (trace r.2) = true /\ files r.2 = ∅ in
  idle (Refactored.program env false folderPath tree initial) /\
  idle (Monolith.program env folderPath tree initial) /\
  idle (Legacy.program env folderPath tree initial) /\
  (Refactored.findMedia env folderPath folderPath tree <> [] ->
   let r := Refactored.program env false folderPath tree initial in
   r.1 = Exited 0 /\ tools r.2 = []).
Proof.
  intros Hc idle.
  assert (forall m : M unit,
            hoare (footprint (fun e => idle_event e = true) (fun _ => False))
              m anything -> idle (m initial)) as H.
  { intros m Hm. destruct (hoare_initial _ _ _ Hm) as [Ht Hf].
    - apply footprint_initial.
    - split; [by apply forallb_forall, List.Forall_forall|].
      apply map_eq. intros p. rewrite lookup_empty.
      destruct (files (m initial).2 !! p) eqn:E; [|done].
      by destruct (Hf _ _ E). }
  split; [by apply H, Refactored_cancelled|].
  split; [by apply H, Monolith_cancelled|].
  split; [by apply H, Legacy_cancelled|].
  intros Hne r. subst r.
  pose proof (Refactored_main_run env false folderPath tree) as Hrun.
  unfold Refactored_run in Hrun. rewrite Hc in Hrun.
  destruct (Refactored.findMedia env folderPath folderPath tree) as [|f l];
    [done|]. simpl in Hrun.
  apply observe_inv in Hrun as (Ho & Ht & _). simpl in Ho, Ht.
  unfold Refactored.program. rewrite catch_run.
  by destruct (Refactored.main env false folderPath _ initial)
    as [[[]|e1|c] s].
Qed.

Lemma cancelled_mode_prompt_witness :
  (Refactored.program cancelling_env false "pics" example_tree initial).1 =
    Exited 0 /\
  forallb idle_event
    (trace (Monolith.program cancelling_env "pics" example_tree initial).2) =
    true.
Proof.
  destruct (cancelled_mode_prompt cancelling_env "pics" example_tree eq_refl)
    as (_ & [H2 _] & _ & H).
  split; [|exact H2]. apply H. vm_compute. discriminate.
Defined.

(** ** [normalizePath] *)

Lemma trimStart_whitespace (ws s : string) :
  all_whitespace ws = true -> trimStart (ws ++ s) = trimStart s.
Proof.
  induction ws as [|c ws IH]; simpl; [done|].
  intros [Hc Hws]%andb_prop. rewrite Hc. by apply IH.
Qed.

Lemma trimStart_clean (s : string) :
  starts_with_whitespace s = false -> trimStart s = s.
Proof. destruct s as [|c s]; simpl; [done|]. by intros ->. Qed.

Lemma trimEnd_whitespace (s ws : string) :
  all_whitespace ws = true -> trimEnd (s ++ ws) = trimEnd s.
Proof.
  intros Hws.
  assert (trimEnd ws = "") as Hw.
  { induction ws as [|c ws IH]; simpl in *; [done|].
    apply andb_prop in Hws as [Hc Hws]. by rewrite IH, Hc. }
  induction s as [|c s IH]; simpl; [done|]. by rewrite IH.
Qed.

Lemma last_char_some (c : ascii) (s : string) :
  exists d, last_char (String c s) = Some d.
Proof.
  revert c. induction s as [|d s IH]; intros c; [by exists c|].
  destruct (IH d) as [x Hx]. exists x. by rewrite <- Hx.
Qed.

Lemma last_char_cons (c : ascii) (s : string) :
  last_char (String c s) =
  match last_char s with Some d => Some d | None => Some c end.
Proof.
  destruct s as [|d s]; [done|]. destruct (last_char_some d s) as [x Hx].
  rewrite Hx. by rewrite <- Hx.
Qed.

Lemma last_char_none (s : string) : last_char s = None -> s = "".
Proof.
  induction s as [|c s IH]; [done|]. rewrite last_char_cons.
  by destruct (last_char s).
Qed.

Lemma trimEnd_clean (s : string) :
  ends_with is_whitespace s = false -> trimEnd s = s.
Proof.
  unfold ends_with. induction s as [|c s IH]; [done|].
  rewrite last_char_cons. cbn [trimEnd]. intros H.
  destruct (last_char s) as [d|] eqn:E.
  - rewrite IH by done. destruct s; [done|done].
  - apply last_char_none in E as ->. simpl. by rewrite H.
Qed.

Lemma strip_trailing_slash_clean (s : string) :
  ends_with is_slash s = false -> strip_trailing_slash s = s.
Proof.
  unfold ends_with. induction s as [|c s IH]; [done|].
  rewrite last_char_cons. cbn [strip_trailing_slash]. intros H.
  destruct (last_char s) as [d|] eqn:E.
  - rewrite IH by done. by destruct s.
  - apply last_char_none in E as ->. by rewrite H.
Qed.

Lemma trimStart_all_whitespace (ws : string) :
  all_whitespace ws = true -> trimStart ws = "".
Proof.
  induction ws as [|c ws IH]; simpl; [done|].
  intros [-> Hws]%andb_prop. by apply IH.
Qed.

Lemma trim_around (before s after : string) :
  all_whitespace before = true -> all_whitespace after = true ->
  starts_with_whitespace s = false -> ends_with is_whitespace s = false ->
  trim (before ++ s ++ after) = s.
Proof.
  intros Hb Ha Hs He. unfold trim. rewrite trimStart_whitespace by done.
  destruct s as [|c s].
  - simpl. by rewrite trimStart_all_whitespace.
  - rewrite trimStart_clean by done.
    rewrite trimEnd_whitespace by done. by apply trimEnd_clean.
Qed.

Lemma escape_spaces_head (s : string) :
  match escape_spaces s with
  | String d _ => is_space d = false
  | EmptyString => s = ""
  end.
Proof.
  destruct s as [|c s]; simpl; [done|]. by destruct (is_space c) eqn:E.
Qed.

Lemma unescape_escape (s : string) : unescape_spaces (escape_spaces s) = s.
Proof.
  induction s as [|c s IH]; [done|].
  cbn [escape_spaces]. destruct (is_space c) eqn:Hc.
  - cbn [unescape_spaces]. rewrite Hc. simpl. by rewrite IH.
  - cbn [unescape_spaces]. pose proof (escape_spaces_head s) as Hh.
    destruct (escape_spaces s) as [|d r] eqn:E; [by rewrite Hh|].
    rewrite Hh, andb_false_r. by rewrite IH.
Qed.

Lemma escape_spaces_last (s : string) :
  last_char (escape_spaces s) = last_char s.
Proof.
  induction s as [|c s IH]; [done|]. cbn [escape_spaces].
  destruct (is_space c); rewrite !last_char_cons, IH; by destruct (last_char s).
Qed.

Lemma escape_spaces_start (s : string) :
  starts_with_whitespace s = false ->
  starts_with_whitespace (escape_spaces s) = false.
Proof.
  destruct s as [|c s]; simpl; [done|]. intros H.
  by destruct (is_space c).
Qed.

(** X11.  [normalizePath] undoes what a terminal does to a dropped folder:
    for a path that neither starts nor ends with white space and does not
    end with a slash, pasted with a backslash before every space and with
    white space around it, the result is the path itself. *)
Theorem normalizePath_dropped (p before after : string) :
  starts_with_whitespace p = false ->
  ends_with is_whitespace p = false ->
  ends_with is_slash p = false ->
  all_whitespace before = true -> all_whitespace after = true ->
  normalizePath (before ++ escape_spaces p ++ after) = p.
Proof.
  intros Hs He Hsl Hb Ha. unfold normalizePath.
  rewrite trim_around; try done.
  - by rewrite unescape_escape, strip_trailing_slash_clean.
  - by apply escape_spaces_start.
  - unfold ends_with in *. by rewrite escape_spaces_last.
Qed.

Lemma normalizePath_dropped_witness :
  normalizePath " /Users/me/My\ Photos " = "/Users/me/My Photos".
Proof.
  apply (normalizePath_dropped "/Users/me/My Photos" " " " "); reflexivity.
Defined.

(** ** [formatBytes] *)

(** X12.  Just below one mebibyte [formatBytes] rounds up in kilobytes: for
    the 51 sizes from 1048525 to 1048575 bytes it prints "1024.0 KB" (from
    1048576 bytes on it prints megabytes, starting with "1.00 MB"). *)
Theorem formatBytes_just_below_MiB (bytes : Z) :
  1048525 <= bytes < 1048576 -> formatBytes bytes = "1024.0 KB".
Proof.
  intros H. unfold formatBytes.
  destruct (Z.ltb_spec bytes 1024) as [?|_]; [lia|].
  destruct (Z.ltb_spec bytes (1024 * 1024)) as [_|?]; [|lia].
  unfold toFixed.
  assert (toFixed_integer bytes 1024 1 = 10240) as ->; [|reflexivity].
  unfold toFixed_integer. symmetry.
  apply (Z.div_unique_pos _ _ _ (2 * bytes * 10 + 1024 - 10240 * 2048));
    [|]; change (10 ^ Z.of_nat 1) with 10; lia.
Qed.

Lemma formatBytes_just_below_MiB_witness :
  formatBytes 1048575 = "1024.0 KB".
Proof. apply formatBytes_just_below_MiB. lia. Defined.

(** ** Started with a folder argument *)

(** X13.  Started with a non-empty folder argument, part_000 never runs
    the folder prompt.  If the normalised argument is not a directory it
    prints "Error: Invalid folder path" on [console.error] and exits with
    status 1 without doing anything else; otherwise it is the run of [main]
    in CLI mode on the normalised argument, which never prompts. *)
Theorem started_with_argument (sh : Shell) (env : Env)
  (getFolderInteractive : M string) (arg : string) :
  argv2 sh = Some arg -> arg <> "" -> stat_isDirectory sh "" = None ->
  let folderPath := normalizePath arg in
  let r := Refactored_start sh env getFolderInteractive initial in
  (if verifyFolder sh folderPath
   then r = Refactored.program env true folderPath (readdir sh folderPath)
              initial
   else r = (Exited 1,
             add_events
               [EPrint ConsoleError "" (Text "Error: Invalid folder path")]
               initial)) /\
  forallb cli_event (trace r.2) = true.
Proof.
  intros Harg Hne Hstat folderPath r.
  assert (if verifyFolder sh folderPath
          then r = Refactored.program env true folderPath
                     (readdir sh folderPath) initial
          else r = (Exited 1,
                    add_events
                      [EPrint ConsoleError ""
                         (Text "Error: Invalid folder path")] initial)) as H.
  { subst r. unfold Refactored_start, getFolderFromCli. rewrite Harg.
    apply String.eqb_neq in Hne. rewrite Hne. fold folderPath.
    destruct (verifyFolder sh folderPath) eqn:Hv; simpl negb; cbv iota.
    - assert (String.eqb folderPath "" = false) as Hf.
      { apply String.eqb_neq. intros E. rewrite E in Hv.
        unfold verifyFolder in Hv. by rewrite Hstat in Hv. }
      unfold Refactored.program, catch. rewrite !bind_run, !ret_run.
      cbv beta iota. by rewrite Hf.
    - unfold catch. by repeat mstep. }
  split; [exact H|].
  destruct (verifyFolder sh folderPath).
  - rewrite H. apply forallb_forall, List.Forall_forall.
    eapply (hoare_initial _ _ _ (cli_main_footprint env _ _)).
    apply footprint_initial.
  - by rewrite H.
Qed.

Lemma started_with_argument_witness :
  Refactored_start example_shell example_env (ret "") initial =
  Refactored.program example_env true "pics" example_tree initial /\
  forallb cli_event
    (trace (Refactored_start example_shell example_env (ret "") initial).2) =
  true.
Proof.
  apply (started_with_argument example_shell example_env (ret "") "pics/");
    [reflexivity|discriminate|reflexivity].
Defined.

(** ** Which part of a name decides *)

Lemma last_dot_suffix_app (a t : string) :
  no_dot t = true ->
  Path.last_dot_suffix (a ++ String "." t) = Some (String "." t).
Proof.
  intros Ht.
  assert (Path.last_dot_suffix t = None) as Hn.
  { clear a. induction t as [|c t IH]; [done|]. simpl in *.
    unfold no_dot in Ht. simpl in Ht. apply andb_prop in Ht as [Hc Ht].
    rewrite (IH Ht). apply negb_true_iff in Hc. by rewrite Hc. }
  assert (Path.last_dot_suffix (String "." t) = Some (String "." t)) as Hd.
  { simpl. by rewrite Hn. }
  induction a as [|c a IH]; [done|].
  change (String c a ++ String "." t) with (String c (a ++ String "." t)).
  cbn [Path.last_dot_suffix]. by rewrite IH.
Qed.

(** X14.  The extension that classifies an entry is what follows the last
    dot of its name, in lower case; an entry whose only dot is its first
    character (such as [.png]) has no extension and is skipped. *)
Theorem extension_is_after_last_dot (stem ext : string) :
  no_slash stem = true -> no_slash ext = true -> no_dot ext = true ->
  ext <> "" ->
  lowercased_extension (stem ++ "." ++ ext) =
    (if String.eqb stem "" then "" else toLowerCase ("." ++ ext)) /\
  (stem = "" -> classify (stem ++ "." ++ ext) = None).
Proof.
  intros Hs He Hd Hne.
  assert (lowercased_extension (stem ++ "." ++ ext) =
          if String.eqb stem "" then "" else toLowerCase ("." ++ ext)) as H.
  { unfold lowercased_extension, Path.extname.
    assert (valid_name (stem ++ "." ++ ext) = true) as Hv.
    { unfold valid_name.
      repeat (apply andb_true_intro; split).
      - by destruct stem.
      - by rewrite !no_slash_app, Hs, He.
      - apply negb_true_iff, String.eqb_neq. intros E.
        apply (f_equal String.length) in E. rewrite !str_length_app in E.
        destruct ext; [done|]. simpl in E. lia.
      - apply negb_true_iff, String.eqb_neq. intros E.
        pose proof (f_equal String.length E) as El.
        rewrite !str_length_app in El.
        destruct stem as [|c stem]; [|destruct ext; simpl in El; [done|lia]].
        destruct ext as [|d [|d' ext]]; simpl in El; [done| |lia].
        injection E as ->. done. }
    rewrite (basename_valid _ Hv).
    change (stem ++ "." ++ ext) with (stem ++ String "." ext).
    rewrite last_dot_suffix_app by done.
    destruct (String.eqb_spec stem "") as [->|Hstem].
    - simpl. by rewrite Nat.eqb_refl.
    - assert (Nat.eqb (String.length (String "." ext))
                (String.length (stem ++ String "." ext)) = false) as ->.
      { apply Nat.eqb_neq. rewrite str_length_app. destruct stem; [done|].
        simpl. lia. }
      assert (String.eqb (stem ++ String "." ext) ".." = false) as ->; [|done].
      apply negb_true_iff. unfold valid_name in Hv.
      by apply andb_prop in Hv as [_ Hv]. }
  split; [exact H|]. intros ->. unfold classify. rewrite H. done.
Qed.

Lemma extension_is_after_last_dot_witness :
  lowercased_extension "holiday.2024.JPG" = ".jpg".
Proof.
  apply (extension_is_after_last_dot "holiday.2024" "JPG"); done.
Defined.

(** ** The walk of index.ts *)

Lemma omap_flat_map {A B C} (g : B -> option C) (f : A -> list B)
  (l : list A) :
  omap g (flat_map f l) = flat_map (fun x => omap g (f x)) l.
Proof.
  induction l as [|x l IH]; [done|]. simpl. by rewrite omap_app, IH.
Qed.

Lemma findImages_entry_images (env : Env) (dir base : string) (e : Dirent) :
  Legacy.findImages_entry env dir base e =
  omap as_image (Refactored.findMedia_entry env dir base e).
Proof.
  revert dir. induction e as [n sz|n sub IH] using Dirent_nested_ind;
    intros dir.
  - cbn [Legacy.findImages_entry Refactored.findMedia_entry dirent_name].
    cbv zeta. destruct (includes IMAGE_EXTS _); [done|].
    by destruct (includes VIDEO_EXTS _).
  - cbn [Legacy.findImages_entry Refactored.findMedia_entry dirent_name].
    cbv zeta. rewrite omap_flat_map.
    induction IH as [|x l Hx _ IHl]; [done|]. simpl. by rewrite Hx, IHl.
Qed.

(** X15.  index.ts finds exactly the images among the media files that
    part_001 and part_000 find, in the same order and with the same paths,
    names, relative paths and sizes. *)
Theorem findImages_are_the_images (env : Env) (dir baseDir : string)
  (tree : list Dirent) :
  Legacy.findImages env dir baseDir tree =
    omap as_image (Refactored.findMedia env dir baseDir tree) /\
  Legacy.findImages env dir baseDir tree =
    omap as_image (Monolith.findMedia env dir baseDir tree).
Proof.
  assert (Legacy.findImages env dir baseDir tree =
          omap as_image (Refactored.findMedia env dir baseDir tree)) as H.
  { unfold Legacy.findImages, Refactored.findMedia. rewrite omap_flat_map.
    induction tree as [|e tree IH]; [done|]. simpl.
    by rewrite findImages_entry_images, IH. }
  split; [done|]. by rewrite findMedia_agree.
Qed.

(** ** Distinct files have distinct paths *)

Lemma files_entry_key (e : Dirent) (dirs : list string)
  (x : list string * string * N) :
  In x (files_entry dirs e) ->
  exists rest, entry_key x = (dirs ++ dirent_name e :: rest)%list.
Proof.
  revert dirs. induction e as [n sz|n sub IH] using Dirent_nested_ind;
    intros dirs Hx.
  - destruct Hx as [<-|[]]. by exists [].
  - simpl in Hx. apply in_flat_map in Hx as (e & He & Hx).
    rewrite List.Forall_forall in IH.
    destruct (IH e He _ Hx) as [rest ->].
    exists (dirent_name e :: rest). by rewrite <- app_assoc.
Qed.

Lemma distinct_strings_NoDup (l : list string) :
  distinct_strings l = true -> List.NoDup l.
Proof.
  induction l as [|x l IH]; simpl; [constructor|].
  intros [Hx Hl]%andb_prop. constructor; [|by apply IH].
  apply negb_true_iff in Hx. intros Hin. apply includes_In in Hin.
  by rewrite Hin in Hx.
Qed.

Lemma files_entries_keys (dirs : list string) (l : list Dirent) :
  List.NoDup (List.map dirent_name l) ->
  Forall (fun e => List.NoDup (List.map entry_key (files_entry dirs e))) l ->
  List.NoDup (List.map entry_key (flat_map (files_entry dirs) l)).
Proof.
  induction l as [|e l IH]; simpl; [constructor|].
  intros Hnd Hall. apply List.NoDup_cons_iff in Hnd as [He Hnd].
  inversion Hall as [|? ? Hk Hall']; subst. rewrite List.map_app.
  apply NoDup_ListNoDup, NoDup_app. split; [by apply NoDup_ListNoDup|].
  split; [|by apply NoDup_ListNoDup, IH].
  intros k Hk1 Hk2. apply list_elem_of_In in Hk1, Hk2.
  apply in_map_iff in Hk1 as (x & <- & Hx).
  apply in_map_iff in Hk2 as (y & Hxy & Hy).
  apply in_flat_map in Hy as (e' & He' & Hy).
  destruct (files_entry_key _ _ _ Hx) as [r1 E1].
  destruct (files_entry_key _ _ _ Hy) as [r2 E2].
  rewrite E1, E2 in Hxy. apply app_inv_head in Hxy. injection Hxy as Hn _.
  apply He. rewrite <- Hn. by apply in_map.
Qed.

Lemma files_entry_keys (e : Dirent) (dirs : list string) :
  distinct_entry e = true ->
  List.NoDup (List.map entry_key (files_entry dirs e)).
Proof.
  revert dirs. induction e as [n sz|n sub IH] using Dirent_nested_ind;
    intros dirs Hd.
  - simpl. constructor; [by intros []|constructor].
  - simpl in *. apply andb_prop in Hd as [Hn Hs].
    apply files_entries_keys; [by apply distinct_strings_NoDup|].
    rewrite List.Forall_forall in *. intros e He. apply IH; [done|].
    rewrite forallb_forall in Hs. by apply Hs.
Qed.

Lemma files_of_keys (tree : list Dirent) :
  distinct_tree tree = true ->
  List.NoDup (List.map entry_key (files_of tree)).
Proof.
  intros [Hn Hs]%andb_prop. unfold files_of.
  apply files_entries_keys; [by apply distinct_strings_NoDup|].
  apply List.Forall_forall. intros e He. apply files_entry_keys.
  rewrite forallb_forall in Hs. by apply Hs.
Qed.

Lemma NoDup_map_omap {A B C K} (key : A -> K) (g : A -> option B)
  (h : B -> C) (l : list A) :
  List.NoDup (List.map key l) ->
  (forall x y a b, In x l -> In y l -> g x = Some a -> g y = Some b ->
     h a = h b -> key x = key y) ->
  List.NoDup (List.map h (omap g l)).
Proof.
  induction l as [|x l IH]; simpl; [constructor|].
  intros Hnd Hinj. apply List.NoDup_cons_iff in Hnd as [Hx Hnd].
  assert (List.NoDup (List.map h (omap g l))) as Hl.
  { apply IH; [done|]. intros y z a b Hy Hz. apply Hinj; by right. }
  destruct (g x) as [a|] eqn:Ha; [|done]. simpl.
  constructor; [|done]. intros Hin.
  apply in_map_iff in Hin as (b & Hab & Hb).
  apply list_elem_of_In, list_elem_of_omap in Hb as (y & Hy & Hgy).
  apply list_elem_of_In in Hy. apply Hx.
  assert (key x = key y) as ->
    by (apply (Hinj x y a b); [by left|by right|done..]).
  by apply in_map.
Qed.

(** X16.  If no directory lists a name twice, the media files that the
    walk returns have pairwise distinct paths. *)
Theorem media_paths_distinct (env : Env) (folderPath : string)
  (tree : list Dirent) :
  wf_tree tree = true -> distinct_tree tree = true ->
  List.NoDup
    (List.map path (Refactored.findMedia env folderPath folderPath tree)).
Proof.
  intros Hwf Hd. rewrite Refactored_findMedia_walk.
  apply (NoDup_map_omap entry_key); [by apply files_of_keys|].
  intros [[d1 n1] s1] [[d2 n2] s2] a b H1 H2 Ha Hb Hp.
  pose proof (files_of_valid tree Hwf) as Hv.
  rewrite List.Forall_forall in Hv.
  pose proof (Hv _ H1) as Hv1. pose proof (Hv _ H2) as Hv2.
  unfold classified_file in Ha, Hb.
  destruct (classify n1); [|done]. destruct (classify n2); [|done].
  injection Ha as <-. injection Hb as <-. simpl in *.
  apply (f_equal (Path.resolveSegments (cwd env))) in Hp.
  rewrite !resolveSegments_join_all in Hp by done.
  by apply app_inv_head in Hp.
Qed.

Lemma media_paths_distinct_witness :
  List.NoDup
    (List.map path (Refactored.findMedia example_env "pics" "pics"
                      example_tree)).
Proof. apply media_paths_distinct; reflexivity. Defined.

(** ** The progress counter *)

Lemma triple_bind_value {A B} (P R1 R E : State -> Prop) (Q : A -> Prop)
  (m : M A) (k : A -> M B) :
  triple P m R1 E -> hoare (fun _ => True) m Q ->
  (forall a, Q a -> triple R1 (k a) R E) ->
  triple P (bind m k) R E.
Proof.
  intros Hm Hv Hk s Hs. specialize (Hm s Hs).
  destruct (Hv s I) as [_ Hq]. unfold bind.
  destruct (m s) as [[a|e|c] s1]; simpl in *; [|done..].
  by apply Hk.
Qed.

(** A loop whose invariant counts the rounds. *)
Lemma triple_for_each_counted {A V} (I : nat -> State -> Prop)
  (E : State -> Prop) (body : nat -> A -> V -> M V) (l : list A) (i : nat)
  (acc : V) :
  (forall j x acc, l !! j = Some x ->
     triple (I (i + j)%nat) (body (i + j)%nat x acc) (I (S (i + j))) E) ->
  triple (I i) (for_each body i l acc) (I (i + List.length l)%nat) E.
Proof.
  revert i acc. induction l as [|x l IH]; intros i acc Hb; simpl.
  - rewrite Nat.add_0_r. by apply triple_ret.
  - eapply triple_bind.
    + specialize (Hb 0%nat x acc eq_refl). by rewrite Nat.add_0_r in Hb.
    + intros acc'. replace (i + S (List.length l))%nat
        with (S i + List.length l)%nat by lia.
      apply IH. intros j y acc'' Hj. specialize (Hb (S j) y acc'' Hj).
      by replace (i + S j)%nat with (S i + j)%nat in Hb by lia.
Qed.

Lemma progress_messages_snoc (tr : list Event) (e : Event) :
  progress_messages (tr ++ [e]) =
  (progress_messages tr ++ option_list (progress_of e))%list.
Proof.
  unfold progress_messages. rewrite omap_app. simpl.
  by destruct (progress_of e).
Qed.

Lemma progress_at_kept (expected : list (string * nat * nat)) (k : nat) :
  kept_by no_progress (progress_at expected k).
Proof.
  split; [|done]. intros s e He Hs. unfold progress_at in *. simpl.
  rewrite progress_messages_snoc, Hs. unfold no_progress in He.
  destruct (progress_of e); [done|]. simpl. by rewrite app_nil_r.
Qed.

Lemma progress_within_kept (expected : list (string * nat * nat)) :
  kept_by no_progress (progress_within expected).
Proof.
  split.
  - intros s e He [k Hk]. exists k. by apply progress_at_kept.
  - intros s fs [k Hk]. by exists k.
Qed.

Lemma progress_at_within (expected : list (string * nat * nat)) (k : nat)
  (s : State) :
  progress_at expected k s -> progress_within expected s.
Proof. intros H. by exists k. Qed.

#[local] Hint Resolve progress_at_kept progress_within_kept
  progress_at_within : kept.

Lemma progress_at_next (expected : list (string * nat * nat)) (k : nat)
  (sink : Sink) (pre : string) (file_name : string) (n : nat) (s : State) :
  expected !! k = Some (file_name, (k + 1)%nat, n) ->
  progress_at expected k s ->
  progress_at expected (S k)
    (add_events [EPrint sink pre (Progress file_name (k + 1) n)] s).
Proof.
  intros Hk Hs. unfold progress_at in *. simpl.
  rewrite progress_messages_snoc, Hs. simpl.
  by rewrite (take_S_r _ _ _ Hk).
Qed.

Lemma numbered_lookup (n i k : nat) (names : list string) (x : string) :
  names !! k = Some x ->
  numbered n i names !! k = Some (x, (i + k + 1)%nat, n).
Proof.
  revert i k. induction names as [|y names IH]; intros i [|k] Hk;
    simpl in *; try done.
  - injection Hk as ->. by rewrite Nat.add_0_r.
  - rewrite (IH (S i) k Hk). do 3 f_equal. lia.
Qed.

Lemma numbered_length (n i : nat) (names : list string) :
  List.length (numbered n i names) = List.length names.
Proof. revert i. induction names; intros i; simpl; auto. Qed.

Ltac quiet_steps := kept_steps_by no_progress.
Ltac quiet_prim := kept_prim_by no_progress.

Section Progress.
Variables (env : Env) (expected : list (string * nat * nat)).
Let At := progress_at expected.
Let Within := progress_within expected.

Lemma Refactored_progress_next (cli : bool) (k n : nat) (file_name : string) :
  expected !! k = Some (file_name, (k + 1)%nat, n) ->
  triple (At k)
    (Refactored.progress (Refactored.createLogger cli)
       (Progress file_name (k + 1) n))
    (At (S k)) Within.
Proof.
  intros Hk s Hs. destruct cli; simpl.
  - by apply progress_at_next.
  - unfold bind, Refactored.get_spinnerStarted. simpl.
    destruct (spinnerStarted s); simpl; by apply progress_at_next.
Qed.

Lemma Refactored_step_progress (cli : bool) (mode : Mode) (dir : string)
  (n i : nat) (f : MediaFile) (totals : Z * Z) :
  expected !! i = Some (name f, (i + 1)%nat, n) ->
  triple (At i)
    (Refactored.step env (Refactored.createLogger cli) mode dir n i f totals)
    (At (S i)) Within.
Proof.
  intros Hi. unfold Refactored.step. destruct totals as [o c].
  eapply (triple_bind _ (At i)).
  { destruct mode; [quiet_steps|].
    unfold Refactored.getMaxWidthInteractive. subst At Within. quiet_steps. }
  intros mw. eapply triple_bind; [by apply Refactored_progress_next|].
  intros _. eapply (triple_bind _ (At (S i))).
  { unfold Refactored.processFile, Refactored.compressImage,
      Refactored.compressVideo. subst At Within.
    destruct (type f); quiet_steps. }
  intros sz. subst At Within. destruct mode, cli; simpl; quiet_steps.
Qed.
End Progress.

Lemma names_kept (R : MediaFile -> MediaFile -> Prop) (l l' : list MediaFile) :
  (forall f f', R f f' -> name f' = name f) ->
  Forall2 R l l' -> List.map name l' = List.map name l.
Proof.
  intros HR H. induction H as [|f f' l l' Hf _ IH]; simpl; [done|].
  by rewrite (HR _ _ Hf), IH.
Qed.

Lemma loadDimensions_names (env : Env) (l : list MediaFile) :
  hoare (fun _ => True) (Refactored.loadDimensions env l)
    (fun l' => List.map name l' = List.map name l).
Proof.
  eapply hoare_weaken.
  - unfold Refactored.loadDimensions.
    apply (hoare_map_each _ _ (fun f f' => name f' = name f)). intros f _.
    destruct (type f).
    + intros s _. split; [done|]. unfold bind, metadata, emit. simpl.
      by destruct (sharp_metadata env (path f)).
    + intros s _. by split.
  - intros l' H. by apply (names_kept _ _ _ (fun f f' H => H)).
Qed.

Lemma progress_at_all (expected : list (string * nat * nat)) (s : State) :
  progress_at expected (List.length expected) s ->
  progress_messages (trace s) = expected.
Proof. unfold progress_at. by rewrite firstn_all. Qed.

Lemma progress_within_prefix (expected : list (string * nat * nat))
  (s : State) :
  progress_within expected s ->
  progress_messages (trace s) `prefix_of` expected.
Proof.
  intros [k Hk]. rewrite Hk. exists (drop k expected).
  by rewrite take_drop.
Qed.

Lemma Refactored_main_progress (env : Env) (cli : bool) (folderPath : string)
  (tree : list Dirent) :
  let media := Refactored.findMedia env folderPath folderPath tree in
  let expected := numbered (List.length media) 0 (List.map name media) in
  triple (progress_at expected 0) (Refactored.main env cli folderPath tree)
    (progress_at expected (List.length expected)) (progress_within expected).
Proof.
  intros media expected. unfold Refactored.main. fold media.
  assert (Hlog : forall m k,
    no_progress (EPrint ClackInfo "" m) = true ->
    triple (progress_at expected k)
      (Refactored.info (Refactored.createLogger cli) m)
      (progress_at expected k) (progress_within expected) /\
    triple (progress_at expected k)
      (Refactored.error (Refactored.createLogger cli) m)
      (progress_at expected k) (progress_within expected) /\
    triple (progress_at expected k)
      (Refactored.success (Refactored.createLogger cli) m)
      (progress_at expected k) (progress_within expected)).
  { intros m k Hm. destruct cli; simpl; repeat split;
      first [eapply kept_print | eapply kept_emit]; eauto with kept. }
  eapply (triple_bind _ (progress_at expected 0)).
  { destruct (Nat.eqb (List.length media) 0); [|quiet_steps].
    eapply triple_bind; [by apply Hlog|]. intros _. quiet_steps. }
  intros _. eapply triple_bind; [by apply Hlog|]. intros _.
  eapply (triple_bind _ (progress_at expected 0)).
  { destruct cli; [quiet_steps|].
    unfold Refactored.getModeInteractive. quiet_steps. }
  intros mode.
  eapply (triple_bind_value _ (progress_at expected 0) _ _
            (fun l => List.map name l = List.map name media)).
  { destruct mode; [quiet_steps|]. unfold Refactored.loadDimensions.
    apply triple_map_each. intros f. destruct (type f); quiet_steps. }
  { destruct mode; [by apply hoare_ret|apply loadDimensions_names]. }
  intros media' Hnames.
  assert (Hlen : List.length media' = List.length media).
  { by rewrite <- (length_map name media'), Hnames, length_map. }
  eapply triple_bind; [quiet_prim|]. intros _.
  eapply (triple_bind _ (progress_at expected (List.length expected))).
  { replace (List.length expected) with (0 + List.length media')%nat
      by (subst expected; rewrite numbered_length, length_map; lia).
    apply (triple_for_each_counted (progress_at expected)).
    intros j f acc Hj. apply Refactored_step_progress. simpl.
    subst expected. rewrite Hlen, <- Hnames.
    apply numbered_lookup. by rewrite list_lookup_fmap, Hj. }
  intros [o c].
  eapply (triple_bind _ (progress_at expected (List.length expected))).
  { destruct cli; simpl; [quiet_prim|].
    unfold bind, Refactored.get_spinnerStarted. intros s Hs. simpl.
    destruct (spinnerStarted s); simpl; [|done].
    by apply progress_at_kept. }
  intros _. eapply triple_bind; [by apply Hlog|]. intros _.
  eapply triple_bind; [by apply Hlog|]. intros _.
  destruct cli; simpl; quiet_prim.
Qed.

Lemma map_each_names {A B} (nameA : A -> string) (nameB : B -> string)
  (body : A -> M B) (l : list A) :
  (forall x, hoare (fun _ => True) (body x) (fun y => nameB y = nameA x)) ->
  hoare (fun _ => True) (map_each body l)
    (fun l' => List.map nameB l' = List.map nameA l).
Proof.
  intros Hb. eapply hoare_weaken.
  - apply (hoare_map_each _ _ (fun x y => nameB y = nameA x)).
    intros x _. apply Hb.
  - intros l' H. induction H as [|x y l l' Hxy _ IH]; simpl; [done|].
    by rewrite Hxy, IH.
Qed.

Lemma askMode_value (env : Env) :
  hoare (fun _ => True) (askMode env) (fun a => a = selectMode env).
Proof. by intros s _. Qed.

Lemma Monolith_main_progress (env : Env) (folderPath : string)
  (tree : list Dirent) :
  let media := Monolith.findMedia env folderPath folderPath tree in
  let images := List.filter (fun m => MediaType_eqb (type m) image) media in
  let videos := List.filter (fun m => MediaType_eqb (type m) video) media in
  let names := List.map name (images ++ videos) in
  let expected := numbered (List.length names) 0 names in
  triple (progress_at expected 0) (Monolith.main env folderPath tree)
    (progress_at expected
       match selectMode env with
       | Selected fast => List.length expected
       | _ => 0%nat
       end)
    (progress_within expected).
Proof.
  intros media images videos names expected.
  unfold Monolith.main. cbv beta iota zeta. fold media. fold images.
  fold videos.
  eapply (triple_bind _ (progress_at expected 0)); [quiet_steps|]. intros _.
  eapply (triple_bind_value _ (progress_at expected 0) _ _
            (fun l => List.map name l = List.map name images)).
  { apply triple_map_each. intros f. quiet_steps. }
  { apply map_each_names. intros f s _. split; [done|].
    unfold bind, metadata, emit. simpl.
    by destruct (sharp_metadata env (path f)). }
  intros images' Himages.
  eapply (triple_bind_value _ (progress_at expected 0) _ _
            (fun l => List.map name l = List.map name videos)).
  { apply triple_map_each. intros f. quiet_steps. }
  { apply map_each_names. by intros f s _. }
  intros videos' Hvideos.
  assert (Hnames : List.map name (images' ++ videos') = names).
  { subst names. by rewrite !map_app, Himages, Hvideos. }
  assert (Hlen : List.length (images' ++ videos') = List.length names).
  { by rewrite <- Hnames, length_map. }
  eapply triple_bind; [quiet_prim|]. intros _.
  eapply (triple_bind_value _ (progress_at expected 0) _ _
            (fun a => a = selectMode env)).
  { quiet_prim. }
  { apply askMode_value. }
  intros mode ->. destruct (selectMode env) as [|mode]; [quiet_steps|].
  eapply triple_bind; [quiet_prim|]. intros _.
  eapply (triple_bind _
            (progress_at expected
               match mode with fast => List.length expected | custom => 0%nat
               end));
    [|intros [o c]; destruct mode; quiet_steps].
  destruct mode.
  - eapply triple_bind; [quiet_prim|]. intros _.
    eapply (triple_bind _ (progress_at expected (List.length expected)));
      [|intros totals; quiet_steps].
    replace (List.length expected) with (0 + List.length (images' ++ videos'))%nat
      by (subst expected; rewrite numbered_length; lia).
    apply (triple_for_each_counted (progress_at expected)).
    intros j f [o c] Hj. unfold Monolith.fast_step. simpl.
    eapply (triple_bind _ (progress_at expected (S j))).
    { intros s Hs. apply progress_at_next; [|done].
      subst expected. rewrite Hlen. apply numbered_lookup.
      by rewrite <- Hnames, list_lookup_fmap, Hj. }
    intros _. unfold Monolith.compressVideo. destruct (type f); quiet_steps.
  - apply triple_for_each. intros i f [o c]. unfold Monolith.custom_step.
    eapply triple_bind; [quiet_steps|]. intros _.
    eapply triple_bind; [quiet_prim|]. intros [|choice]; [quiet_steps|].
    unfold Monolith.compressVideo. destruct (type f); quiet_steps.
Qed.

Lemma Legacy_main_progress (env : Env) (folderPath : string)
  (tree : list Dirent) :
  let images := Legacy.findImages env folderPath folderPath tree in
  let names := List.map Legacy.name images in
  let expected := numbered (List.length names) 0 names in
  triple (progress_at expected 0) (Legacy.main env folderPath tree)
    (progress_at expected
       match selectMode env with
       | Selected fast => List.length expected
       | _ => 0%nat
       end)
    (progress_within expected).
Proof.
  intros images names expected.
  unfold Legacy.main. cbv beta iota zeta. fold images.
  eapply (triple_bind _ (progress_at expected 0)); [quiet_steps|]. intros _.
  eapply (triple_bind_value _ (progress_at expected 0) _ _
            (fun l => List.map Legacy.name l = names)).
  { apply triple_map_each. intros f. quiet_steps. }
  { apply map_each_names. intros f s _. split; [done|].
    unfold bind, metadata, emit. simpl.
    by destruct (sharp_metadata env (Legacy.path f)). }
  intros images' Hnames.
  assert (Hlen : List.length images' = List.length names).
  { by rewrite <- Hnames, length_map. }
  eapply triple_bind; [quiet_prim|]. intros _.
  eapply (triple_bind_value _ (progress_at expected 0) _ _
            (fun a => a = selectMode env)).
  { quiet_prim. }
  { apply askMode_value. }
  intros mode ->. destruct (selectMode env) as [|mode]; [quiet_steps|].
  eapply triple_bind; [quiet_prim|]. intros _.
  eapply (triple_bind _
            (progress_at expected
               match mode with fast => List.length expected | custom => 0%nat
               end));
    [|intros [o c]; destruct mode; quiet_steps].
  destruct mode.
  - eapply triple_bind; [quiet_prim|]. intros _.
    eapply (triple_bind _ (progress_at expected (List.length expected)));
      [|intros totals; quiet_steps].
    replace (List.length expected) with (0 + List.length images')%nat
      by (subst expected; rewrite numbered_length; lia).
    apply (triple_for_each_counted (progress_at expected)).
    intros j f [o c] Hj. unfold Legacy.fast_step. simpl.
    eapply (triple_bind _ (progress_at expected (S j))).
    { intros s Hs. apply progress_at_next; [|done].
      subst expected. rewrite Hlen. apply numbered_lookup.
      by rewrite <- Hnames, list_lookup_fmap, Hj. }
    intros _. quiet_steps.
  - apply triple_for_each. intros i f [o c]. unfold Legacy.custom_step.
    eapply triple_bind; [quiet_steps|]. intros _.
    eapply triple_bind; [quiet_prim|]. intros [|choice]; quiet_steps.
Qed.

Lemma catch_progress (expected : list (string * nat * nat)) (k : nat)
  (main : M unit) (sink : Sink) :
  triple (progress_at expected 0) main (progress_at expected k)
    (progress_within expected) ->
  let r := catch main (fun message => print sink (Text message)) initial in
  match r.1 with
  | Ok _ => progress_messages (trace r.2) = take k expected
  | _ => progress_messages (trace r.2) `prefix_of` expected
  end.
Proof.
  intros Hm r.
  assert (triple (progress_at expected 0)
            (catch main (fun message => print sink (Text message)))
            (progress_at expected k) (progress_within expected)) as H.
  { apply triple_catch; [done|]. intros e.
    eapply kept_print; [apply progress_within_kept|done]. }
  specialize (H initial eq_refl). fold r in H.
  destruct (r.1); [done|by apply progress_within_prefix..].
Qed.

(** X17.  part_000 reports its progress once per file, in the order of
    processing: the progress messages of a run that completes are the names
    of the files found, numbered 1, 2, ... out of their number, and those of
    a run that stops early are the first of these. *)
Theorem progress_counter (env : Env) (cli : bool) (folderPath : string)
  (tree : list Dirent) :
  let media := Refactored.findMedia env folderPath folderPath tree in
  let expected := numbered (List.length media) 0 (List.map name media) in
  let r := Refactored.program env cli folderPath tree initial in
  match r.1 with
  | Ok _ => progress_messages (trace r.2) = expected
  | _ => progress_messages (trace r.2) `prefix_of` expected
  end.
Proof.
  intros media expected r.
  pose proof (catch_progress expected (List.length expected) _ ConsoleError
                (Refactored_main_progress env cli folderPath tree)) as H.
  simpl in H. rewrite firstn_all in H. exact H.
Qed.

(** X18.  part_001 and index.ts report progress in fast mode only: there the
    spinner shows each file's name with its number, images before videos in
    part_001; in custom mode no progress message is printed.  A run that
    stops early has printed the first of these messages. *)
Theorem older_progress_counter (env : Env) (folderPath : string)
  (tree : list Dirent) :
  let media := Monolith.findMedia env folderPath folderPath tree in
  let images := List.filter (fun m => MediaType_eqb (type m) image) media in
  let videos := List.filter (fun m => MediaType_eqb (type m) video) media in
  let names := List.map name (images ++ videos) in
  let legacy_names :=
    List.map Legacy.name (Legacy.findImages env folderPath folderPath tree) in
  let shown (names : list string) :=
    match selectMode env with
    | Selected fast => numbered (List.length names) 0 names
    | _ => []
    end in
  let r := Monolith.program env folderPath tree initial in
  let r' := Legacy.program env folderPath tree initial in
  match r.1 with
  | Ok _ => progress_messages (trace r.2) = shown names
  | _ => progress_messages (trace r.2)
           `prefix_of` numbered (List.length names) 0 names
  end /\
  match r'.1 with
  | Ok _ => progress_messages (trace r'.2) = shown legacy_names
  | _ => progress_messages (trace r'.2)
           `prefix_of` numbered (List.length legacy_names) 0 legacy_names
  end.
Proof.
  intros media images videos names legacy_names shown r r'. split.
  - pose proof (catch_progress _ _ _ ClackError
                  (Monolith_main_progress env folderPath tree)) as H.
    simpl in H. fold media images videos names in H.
    subst shown r. unfold Monolith.program.
    destruct (catch _ _ initial).1; [|done..]. rewrite H.
    destruct (selectMode env) as [|[|]]; [done| |done].
    by rewrite firstn_all.
  - pose proof (catch_progress _ _ _ ClackError
                  (Legacy_main_progress env folderPath tree)) as H.
    simpl in H. fold legacy_names in H.
    subst shown r'. unfold Legacy.program.
    destruct (catch _ _ initial).1; [|done..]. rewrite H.
    destruct (selectMode env) as [|[|]]; [done| |done].
    by rewrite firstn_all.
Qed.
